(** * mpnum: the POVM layer ([mpnum/povm/mppovm.py])

    A shallow embedding of [MPPovm] and of the numpy operations its
    methods call, followed by the properties of the specification.

    Conventions of the embedding.

    - Python exceptions are values of [exn]; a function that may raise
      returns a [result].  An [assert] without message is identified by
      the line of [mppovm.py] it stands on.
    - [float64] and [complex128] arithmetic is carried out exactly, over
      the rationals [Q] (a complex number is a pair of rationals).
      Rounding is outside the model; every tolerance comparison
      ([<= eps]) is the exact comparison.  The result of dividing by a
      zero float ([nan], [inf]) fails every comparison the code makes
      with it, and is modelled by the assertion that fails first.
    - A numpy array is its shape and its elements in C order.
    - [mpnum.mparray.MPArray] is not part of the sources at hand.  A chain
      is kept as the dense tensor it denotes, indexed site by site; its
      bond dimensions play no role in the POVM layer. *)

From Stdlib Require Import QArith Qabs Lia Lqa String.
From stdpp Require Import base decidable option list.

Local Open Scope nat_scope.

(** * Exceptions and results *)

Inductive exn : Type :=
| AssertionError (line : nat)
| ValueError (msg : string)
| IndexError
| TypeError
| StopIteration.

Inductive result (A : Type) : Type :=
| Ok (a : A)
| Raise (e : exn).
Arguments Ok {A} a.
Arguments Raise {A} e.

#[global] Instance result_ret : MRet result := λ A a, Ok a.
#[global] Instance result_bind : MBind result := λ A B f m,
  match m with
  | Ok a => f a
  | Raise e => Raise e
  end.

(** [assert b], standing on line [line] of the source. *)
Definition assert (b : bool) (line : nat) : result unit :=
  if b then Ok tt else Raise (AssertionError line).

Definition is_ok {A} (r : result A) : bool :=
  match r with Ok _ => true | Raise _ => false end.

(** * Exact complex numbers *)

Record complex : Type := Complex { re : Q; im : Q }.

(** The result of [x ** 0.5]: the square root of a rational that is not
    negative, kept by its radicand, or [nan]. *)
Inductive root : Type :=
| Sqrt (radicand : Q)
| NaN.

(** * numpy arrays *)

Module np.

(** [np.prod(shape)], the number of elements of an array. *)
Definition size (shape : list nat) : nat := foldr Nat.mul 1 shape.

Record ndarray (A : Type) : Type := NDArray {
  shape : list nat;
  flat : list A
}.
Arguments NDArray {A} shape flat.
Arguments shape {A} _.
Arguments flat {A} _.

Definition ndim {A} (a : ndarray A) : nat := length (shape a).

(** A multi-index addresses an element when it has one entry per axis,
    each below the axis' dimension. *)
Definition in_range (idx shape : list nat) : Prop := Forall2 lt idx shape.

(** [np.unravel_index(n, shape)], C order (the last axis runs fastest). *)
Fixpoint unravel_index (n : nat) (shape : list nat) : list nat :=
  match shape with
  | [] => []
  | _ :: rest => n / size rest :: unravel_index (n mod size rest) rest
  end.

(** [np.ravel_multi_index(idx, shape)]: the position of [a[idx]] in
    [a.flat]. *)
Fixpoint ravel_multi_index (idx shape : list nat) : nat :=
  match idx, shape with
  | i :: idx', _ :: rest => i * size rest + ravel_multi_index idx' rest
  | _, _ => 0
  end.

(** [np.zeros(shape, int)] *)
Definition zeros (shape : list nat) : ndarray nat :=
  NDArray shape (replicate (size shape) 0).

(** [a[idx]] for a full multi-index. *)
Definition getitem {A} (a : ndarray A) (idx : list nat) : option A :=
  flat a !! ravel_multi_index idx (shape a).

(** [a[idx] = v] for a full multi-index in range. *)
Definition setitem {A} (a : ndarray A) (idx : list nat) (v : A) : ndarray A :=
  NDArray (shape a) (<[ravel_multi_index idx (shape a) := v]> (flat a)).

(** The array of the given shape whose element at [idx] is [f idx]. *)
Definition fromfunction {A} (f : list nat → A) (shape : list nat) : ndarray A :=
  NDArray shape ((λ n, f (unravel_index n shape)) <$> seq 0 (size shape)).

(** Elementwise operations. *)
Definition map {A B} (f : A → B) (a : ndarray A) : ndarray B :=
  NDArray (shape a) (f <$> flat a).

(** [a.all()] *)
Definition all (a : ndarray bool) : bool := forallb id (flat a).

(** An elementwise operation on two arrays of the same shape. *)
Definition map2 {A B C} (f : A → B → C) (a : ndarray A) (b : ndarray B) : ndarray C :=
  NDArray (shape a) (zip_with f (flat a) (flat b)).

(** [a.reshape(newshape)] *)
Definition reshape {A} (a : ndarray A) (newshape : list nat) : result (ndarray A) :=
  if bool_decide (size newshape = length (flat a))
  then Ok (NDArray newshape (flat a))
  else Raise (ValueError "cannot reshape array").

(** [np.outer(a, b)], on the flattened arrays. *)
Definition outer (a b : ndarray Q) : ndarray Q :=
  NDArray [length (flat a); length (flat b)]
          (x ← flat a; (λ y, (x * y)%Q) <$> flat b).

(** The place of [idx] in an array that is broadcast along its axes of
    dimension one. *)
Definition clip (idx shape : list nat) : list nat :=
  zip_with (λ i d, if d =? 1 then 0 else i) idx shape.

(** [a / b] for two arrays with the same number of axes, broadcast
    against each other. *)
Definition divide (a b : ndarray Q) : result (ndarray Q) :=
  if bool_decide (length (shape a) = length (shape b))
     && forallb (λ '(d, d'), (d =? d') || (d =? 1) || (d' =? 1)) (zip (shape a) (shape b))
  then Ok (fromfunction
             (λ idx, (default 0 (getitem a (clip idx (shape a)))
                      / default 0 (getitem b (clip idx (shape b))))%Q)
             (zip_with (λ d d', if d =? 1 then d' else d) (shape a) (shape b)))
  else Raise (ValueError "operands could not be broadcast together").

(** [np.eye(n)] *)
Definition eye (n : nat) : ndarray complex :=
  fromfunction (λ idx, match idx with
                       | [i; j] => if i =? j then Complex 1 0 else Complex 0 0
                       | _ => Complex 0 0
                       end) [n; n].

(** [np.ones(shape)] *)
Definition ones (shape : list nat) : ndarray complex :=
  NDArray shape (replicate (size shape) (Complex 1 0)).

End np.

(** * Two-dimensional sample batches

    [out = np.zeros((n_samples, n_cols), dtype=np.uint8)]: one row per
    sample.  The number of columns is kept apart from the rows, as a batch
    of no samples still has a second dimension. *)

Record batch : Type := Batch {
  n_cols : nat;
  rows : list (list nat)
}.

(** * Operations on exact complex numbers *)

Module cx.
Local Open Scope Q_scope.

Definition zero : complex := Complex 0 0.
Definition one : complex := Complex 1 0.
Definition of_real (x : Q) : complex := Complex x 0.
Definition add (z w : complex) : complex := Complex (re z + re w) (im z + im w).
Definition sub (z w : complex) : complex := Complex (re z - re w) (im z - im w).
Definition mul (z w : complex) : complex :=
  Complex (re z * re w - im z * im w) (re z * im w + im z * re w).
Definition conj (z : complex) : complex := Complex (re z) (- im z).
(** [z / x] for a float [x]; meaningful for [x] other than zero. *)
Definition div_real (z : complex) (x : Q) : complex := Complex (re z / x) (im z / x).
(** [abs(z) ** 2] *)
Definition abs2 (z : complex) : Q := re z * re z + im z * im z.
(** [abs(z) <= eps]: the modulus is not negative, and its square is
    compared with the square of [eps]. *)
Definition abs_le (z : complex) (eps : Q) : bool :=
  Qle_bool 0 eps && Qle_bool (abs2 z) (eps * eps).

Definition eq (z w : complex) : Prop := re z == re w ∧ im z == im w.

(** [sum(f(i) for i in range(n))] *)
Definition sum_n (n : nat) (f : nat → complex) : complex :=
  foldr add zero (f <$> seq 0 n).

(** The sum of [f idx] over every multi-index [idx] of the given shape. *)
Fixpoint sum_over (shape : list nat) (f : list nat → complex) : complex :=
  match shape with
  | [] => f []
  | d :: rest => sum_n d (λ i, sum_over rest (λ idx, f (i :: idx)))
  end.

(** The same over one multi-index per site. *)
Fixpoint sum_sites (shapes : list (list nat)) (f : list (list nat) → complex) : complex :=
  match shapes with
  | [] => f []
  | s :: rest => sum_over s (λ c, sum_sites rest (λ cs, f (c :: cs)))
  end.
End cx.

Infix "≃" := cx.eq (at level 70, no associativity).

(** [abs(x) <= eps] for a float [x]. *)
Definition abs_le (x eps : Q) : bool := Qle_bool (Qabs x) eps.

(** [sum(l)] for floats. *)
Definition Qsum (l : list Q) : Q := foldr Qplus 0%Q l.

(** * Chains *)

(** Modelled from the spec: [mpnum.mparray] (the tensor-algebra
    collaborator) is not among the sources.  A chain of [N] sites is kept
    as the per-site dimensions of its physical legs and the dense tensor it
    denotes: [entry m [i_1; ...; i_N]] is the element whose physical
    indices at site [k] are the list [i_k]. *)
Record MPArray : Type := mkMPArray {
  pdims : list (list nat);
  entry : list (list nat) → complex
}.

Inductive index_item : Type :=
| Int (i : nat)      (* an integer index on the first leg of the site *)
| SliceAll.          (* [slice(None)] *)

(** Modelled from the spec: the operations of [mpnum.mparray] that
    [mppovm.py] calls, with the meaning the spec gives them: transpose and
    reshape of the physical legs of every site, elementwise conjugate,
    contraction of legs site by site, sums over legs, removal of the sites
    that are left without an index, indexing, and the dense array of a
    chain. *)
Module mp.

Definition len (m : MPArray) : nat := length (pdims m).
Definition plegs (m : MPArray) : list nat := length <$> pdims m.

Definition in_range (idx : list (list nat)) (pdims : list (list nat)) : Prop :=
  Forall2 np.in_range idx pdims.

(** Cut a flat multi-index into the indices of the sites. *)
Fixpoint split_sites (legs : list nat) (idx : list nat) : list (list nat) :=
  match legs with
  | [] => []
  | n :: rest => take n idx :: split_sites rest (drop n idx)
  end.

(** [m.to_array()]: the legs of the first site, then those of the second,
    and so on. *)
Definition to_array (m : MPArray) : np.ndarray complex :=
  np.fromfunction (λ idx, entry m (split_sites (plegs m) idx)) (concat (pdims m)).

(** [m.to_array_global()], for a chain whose sites have the same number
    of legs: the first leg of every site, then the second leg of every
    site, and so on. *)
Definition legs (m : MPArray) : nat := default 0 (head (plegs m)).

Definition global_shape (m : MPArray) : list nat :=
  l ← seq 0 (legs m); (λ pd, default 0 (pd !! l)) <$> pdims m.

Definition local_index (sites legs : nat) (idx : list nat) : list (list nat) :=
  (λ s, (λ l, default 0 (idx !! (l * sites + s))) <$> seq 0 legs) <$> seq 0 sites.

Definition to_array_global (m : MPArray) : np.ndarray complex :=
  np.fromfunction (λ idx, entry m (local_index (len m) (legs m) idx)) (global_shape m).

(** The value of a chain none of whose sites has a physical leg. *)
Definition scalar (m : MPArray) : complex := entry m (replicate (len m) []).

(** [m.conj()] *)
Definition conj (m : MPArray) : MPArray :=
  mkMPArray (pdims m) (λ idx, cx.conj (entry m idx)).

(** [mp.prune(m, singletons)]: the sites without physical legs (and, with
    [singletons], those all of whose legs have dimension one) are
    contracted into their neighbours; what remains is the chain
    restricted to the other sites. *)
Definition prunable (singletons : bool) (pd : list nat) : bool :=
  match pd with
  | [] => true
  | _ => singletons && forallb (Nat.eqb 1) pd
  end.

Fixpoint unprune (singletons : bool) (pds : list (list nat))
    (idx : list (list nat)) : list (list nat) :=
  match pds with
  | [] => []
  | pd :: rest =>
      if prunable singletons pd
      then replicate (length pd) 0 :: unprune singletons rest idx
      else match idx with
           | i :: idx' => i :: unprune singletons rest idx'
           | [] => [] :: unprune singletons rest []
           end
  end.

Definition prune (m : MPArray) (singletons : bool) : MPArray :=
  mkMPArray (filter (λ pd, prunable singletons pd = false) (pdims m))
            (λ idx, entry m (unprune singletons (pdims m) idx)).

(** The index of one site from its [kept] legs and the values [summed] of
    the legs at the positions [axes]. *)
Fixpoint fill_axes (legs pos : nat) (axes kept summed : list nat) : list nat :=
  match legs with
  | 0 => []
  | S legs' =>
      match list_find (λ a, a = pos) axes with
      | Some (k, _) =>
          default 0 (summed !! k) :: fill_axes legs' (S pos) axes kept summed
      | None =>
          match kept with
          | i :: kept' => i :: fill_axes legs' (S pos) axes kept' summed
          | [] => 0 :: fill_axes legs' (S pos) axes [] summed
          end
      end
  end.

Definition kept_dims (pd axes : list nat) : list nat :=
  (λ '(_, d), d) <$> filter (λ '(pos, _), pos ∉ axes) (imap (λ pos d, (pos, d)) pd).

Definition summed_dims (pd axes : list nat) : list nat :=
  (λ a, default 0 (pd !! a)) <$> axes.

(** [m.sum(axes)]: at every site, sum over the legs listed for it. *)
Definition sum (m : MPArray) (axes : list (list nat)) : MPArray :=
  mkMPArray (zip_with kept_dims (pdims m) axes)
    (λ kept, cx.sum_sites (zip_with summed_dims (pdims m) axes)
       (λ summed,
          entry m (zip_with (λ '(pd, ax) '(k, s), fill_axes (length pd) 0 ax k s)
                            (zip (pdims m) axes) (zip kept summed)))).

(** [m.sum()]: the sum of all elements. *)
Definition sum_all (m : MPArray) : complex := cx.sum_sites (pdims m) (entry m).

(** A leg position as Python writes it: a negative one counts from the
    last leg. *)
Definition axis (legs : nat) (a : Z) : nat :=
  if (a <? 0)%Z then legs - Z.to_nat (- a) else Z.to_nat a.

Definition axes_of (pd : list nat) (axes : list Z) : list nat :=
  axis (length pd) <$> axes.

(** [m.transpose(axes)]: [np.transpose] of the physical legs of every
    site; leg [n] of the result is leg [axes[n]] of [m]. *)
Definition permute (axes : list nat) (l : list nat) : list nat :=
  (λ a, default 0 (l !! a)) <$> axes.

Definition unpermute (axes : list nat) (idx : list nat) : list nat :=
  (λ pos, match list_find (λ a, a = pos) axes with
          | Some (n, _) => default 0 (idx !! n)
          | None => 0
          end) <$> seq 0 (length axes).

Definition transpose (m : MPArray) (axes : list nat) : MPArray :=
  mkMPArray (permute axes <$> pdims m) (λ idx, entry m (unpermute axes <$> idx)).

(** A shape as it is passed to [reshape]: [None] is [-1], the dimension
    that numpy infers from the number of elements. *)
Definition resolve_shape (old : list nat) (new : list (option nat)) : list nat :=
  let known := np.size (omap id new) in
  (λ d, default (np.size old / known) d) <$> new.

(** [m.reshape(newshapes)]: C-order reshape of the physical legs of every
    site. *)
Definition reshape (m : MPArray) (newshapes : list (list (option nat))) : MPArray :=
  let news := zip_with resolve_shape (pdims m) newshapes in
  mkMPArray news
    (λ idx, entry m (zip_with (λ '(old, new) i,
                        np.unravel_index (np.ravel_multi_index i new) old)
                      (zip (pdims m) news) idx)).

(** [m.ravel()]: one flat physical leg per site. *)
Definition ravel (m : MPArray) : MPArray :=
  reshape m ((λ _, [None]) <$> pdims m).

(** [mp.dot(a, b, axes)]: at every site, the legs [axes.1] of [a] are
    contracted with the legs [axes.2] of [b]; the site keeps the other
    legs of [a], then the other legs of [b]. *)
Definition dot (a b : MPArray) (axes : list Z * list Z) : MPArray :=
  let la := (λ pd, axes_of pd axes.1) <$> pdims a in
  let lb := (λ pd, axes_of pd axes.2) <$> pdims b in
  mkMPArray
    (zip_with app (zip_with kept_dims (pdims a) la) (zip_with kept_dims (pdims b) lb))
    (λ idx,
       cx.sum_sites (zip_with summed_dims (pdims a) la)
         (λ cs,
            cx.mul
              (entry a (zip_with (λ '(pd, ax) '(i, c),
                          fill_axes (length pd) 0 ax (take (length pd - length ax) i) c)
                        (zip (pdims a) la) (zip idx cs)))
              (entry b (zip_with (λ '(pd, ax) '(i, c),
                          fill_axes (length pd) 0 ax
                            (drop (length i - (length pd - length ax)) i) c)
                        (zip (pdims b) lb) (zip idx cs))))).

(** The default axes of [mp.dot]: the last leg of [a] with the first of
    [b]. *)
Definition default_axes : list Z * list Z := ([(-1)%Z], [0%Z]).

(** [MPArray.from_kron(factors)]: the product chain of the per-site
    arrays. *)
Definition from_kron (factors : list (np.ndarray complex)) : MPArray :=
  mkMPArray (np.shape <$> factors)
    (λ idx, foldr cx.mul cx.one
              (zip_with (λ f i, default cx.zero (np.getitem f i)) factors idx)).

(** [m[items]], one item per site: an integer selects on the first leg
    of its site (which loses that leg), [slice(None)] keeps the site. *)
Definition item_ok (it : index_item) (pd : list nat) : bool :=
  match it, pd with
  | Int i, d :: _ => i <? d
  | Int _, [] => false
  | SliceAll, _ => true
  end.

Definition getitem (m : MPArray) (items : list index_item) : result MPArray :=
  if forallb (λ '(it, pd), item_ok it pd) (zip items (pdims m))
  then Ok (mkMPArray
             (zip_with (λ it pd, match it with Int _ => tail pd | SliceAll => pd end)
                       items (pdims m))
             (λ idx, entry m (zip_with (λ it i, match it with
                                                 | Int n => n :: i
                                                 | SliceAll => i
                                                 end) items idx)))
  else Raise IndexError.

End mp.

(** * The random source

    [rng] is an argument of the sampling methods; the two calls made on it
    are [rng.choice(a, p=p)] and [rng.choice(a, size, p=p)].  A generator
    is a state and these two operations on it; [None] is an exception
    raised by the generator. *)

Record Generator (S : Type) : Type := mkGenerator {
  choice : S → nat → list Q → option (nat * S);
  choices : S → nat → nat → list Q → option (list nat * S)
}.
Arguments choice {S} _ _ _ _.
Arguments choices {S} _ _ _ _ _.

(** [range(start, stop, step)] for a positive [step]. *)
Definition py_range (start stop step : nat) : list nat :=
  (λ k, start + k * step) <$> seq 0 ((stop - start + step - 1) / step).

(** [row[start:stop] = vals] on a row of [uint8]: the slice is cut to the
    row, and [vals] has its length, or is one value for all of it. *)
Definition set_slice (row : list nat) (start stop : nat) (vals : list nat)
    : result (list nat) :=
  let start := start `min` length row in
  let stop := stop `min` length row in
  vals ← (if bool_decide (length vals = stop - start) then Ok vals
          else match vals with
               | [v] => Ok (replicate (stop - start) v)
               | _ => Raise (ValueError "could not broadcast input array")
               end);
  Ok (take start row ++ ((λ v, v mod 256) <$> vals) ++ drop (start + length vals) row).

(** [b[:, pos] = col] on a batch of [uint8]. *)
Definition set_column (b : batch) (pos : nat) (col : list nat) : result batch :=
  if bool_decide (pos < n_cols b) then
    if bool_decide (length col = length (rows b)) then
      Ok (Batch (n_cols b) (zip_with (λ r v, <[pos := v mod 256]> r) (rows b) col))
    else Raise (ValueError "could not broadcast input array")
  else Raise IndexError.

(** [for x in xs: st = body(st, x)], stopping at the first exception. *)
Definition for_each {A St} (xs : list A) (body : St → A → result St) (st : St) : result St :=
  foldl (λ r x, st ← r; body st x) (Ok st) xs.

(** * [mpnum.mpsmpo] *)

(** Modelled from the spec: the reductions of a state to the windows of a
    given width, and the density operator of a purified state, belong to
    [mpnum.mpsmpo], which is not among the sources.  They are arguments of
    the embedding: each reduction returns the reduced states in increasing
    order of the window start. *)
Record mpsmpo : Type := mkMpsmpo {
  reductions_mps_as_pmps : MPArray → nat → list MPArray;
  reductions_mpo : MPArray → nat → list MPArray;
  reductions_pmps : MPArray → nat → list MPArray;
  pmps_to_mpo : MPArray → MPArray
}.

(** [next(it)] on the sequence a generator yields. *)
Definition next {A} (it : result (list A)) : result A :=
  xs ← it;
  match xs with
  | x :: _ => Ok x
  | [] => Raise StopIteration
  end.

(** * MPPovm *)

Module MPPovm.

Local Open Scope string_scope.
Local Open Scope nat_scope.

(** [MPPovm.__init__]: the two assertions on the physical legs. *)
Definition init (m : MPArray) : result MPArray :=
  _ ← assert (forallb (Nat.eqb 3) (mp.plegs m)) 48;
  _ ← assert (forallb (λ pd, bool_decide (pd !! 1 = pd !! 2)) (pdims m)) 50;
  Ok m.

Definition from_local_povm (lelems : np.ndarray complex) (width : nat) : result MPArray :=
  init (mp.from_kron (replicate width lelems)).

(** [eye(local_dims)]: the POVM of the one outcome that is the identity, on
    every site. *)
Definition eye (local_dims : list nat) : result MPArray :=
  factors ← mapM (λ dim, np.reshape (np.eye dim) [1; dim; dim]) local_dims;
  init (mp.from_kron factors).

(** [lt.shape[1]], the first physical leg of a site. *)
Definition outdims (self : MPArray) : list nat :=
  (λ pd, default 0 (pd !! 0)) <$> pdims self.

Definition nsoutdims (self : MPArray) : list nat :=
  filter (λ d, 1 < d) (outdims self).

(** [lt.shape[2]], the second physical leg of a site. *)
Definition hdims (self : MPArray) : list nat :=
  (λ pd, default 0 (pd !! 1)) <$> pdims self.

Definition probability_map (self : MPArray) : MPArray :=
  mp.reshape (mp.transpose self [0; 2; 1])
             ((λ pdim, [Some (default 0 (pdim !! 0)); None]) <$> pdims self).

(** The generator [expectations(mpa, mode)], as the sequence of the
    chains it yields; an exception is raised at the first [next]. *)
Definition expectations (ops : mpsmpo) (self mpa : MPArray) (mode : string)
    : result (list MPArray) :=
  _ ← assert (bool_decide (mp.len self ≤ mp.len mpa)) 132;
  let mode :=
    if String.eqb mode "auto" then
      if forallb (Nat.eqb 1) (mp.plegs mpa) then "mps"
      else if forallb (Nat.eqb 2) (mp.plegs mpa) then "mpdo"
      else mode
    else mode in
  let pmap := probability_map self in
  if String.eqb mode "mps" then
    Ok ((λ psi_red,
           let rho_red := pmps_to_mpo ops psi_red in
           mp.dot pmap (mp.ravel rho_red) mp.default_axes)
        <$> reductions_mps_as_pmps ops mpa (mp.len self))
  else if String.eqb mode "mpdo" then
    Ok ((λ rho_red, mp.dot pmap (mp.ravel rho_red) mp.default_axes)
        <$> reductions_mpo ops mpa (mp.len self))
  else if String.eqb mode "pmps" then
    Ok ((λ psi_red,
           let rho_red := pmps_to_mpo ops psi_red in
           mp.dot pmap (mp.ravel rho_red) mp.default_axes)
        <$> reductions_pmps ops mpa (mp.len self))
  else Raise (ValueError "Could not understand data dype.").

(** [p[p < 0] = 0.0] on one element. *)
Definition clamp (x : Q) : Q := if Qle_bool 0 x then x else 0%Q.

(** [marginal_p[k]] *)
Definition marginal (marginal_p : list (option MPArray)) (k : nat) : result MPArray :=
  match marginal_p !! k with
  | Some (Some p) => Ok p
  | Some None => Raise TypeError
  | None => Raise IndexError
  end.

(** Lines 258 to 261 of [_sample_cond_single]: the draw from the
    conditional probabilities [p]. *)
Definition _sample_cond_draw {S} (rng : Generator S) (s : S) (p : np.ndarray Q)
    (n_out n_group : nat) (out : list nat) (out_p : Q) : result (S * list nat * Q) :=
  '(choice, s) ← match choice rng s (length (np.flat p)) (np.flat p) with
                 | Some r => Ok r
                 | None => Raise (ValueError "rng.choice")
                 end;
  idx ← (if bool_decide (choice < np.size (np.shape p))
         then Ok (np.unravel_index choice (np.shape p))
         else Raise (ValueError "index out of bounds"));
  out ← set_slice out n_out (n_out + n_group) idx;
  let out_p := (out_p * default 0 (np.flat p !! choice))%Q in
  Ok (s, out, out_p).

(** [_sample_cond_single]: one pass of its loop.  The state of the loop
    is the generator, the row [out] and [out_p]. *)
Definition _sample_cond_step {S} (rng : Generator S)
    (marginal_p : list (option MPArray)) (n_sites n_group : nat) (eps : Q)
    (st : S * list nat * Q) (n_out : nat) : result (S * list nat * Q) :=
  let '(s, out, out_p) := st in
  p ← marginal marginal_p (n_sites `min` (n_out + n_group));
  p ← mp.getitem p ((Int <$> take n_out out) ++ replicate (mp.len p - n_out) SliceAll);
  (* the quotient by a zero float is not finite, and fails the comparisons *)
  let finite := negb (Qeq_bool out_p 0) in
  let p := np.map (λ z, cx.div_real z out_p) (mp.to_array (mp.prune p false)) in
  _ ← assert (np.all (np.map (λ z, finite && abs_le (im z) eps) p)) 252;
  let p := np.map re p in
  _ ← assert (np.all (np.map (λ x, finite && Qle_bool (- eps) x) p)) 254;
  let p := np.map clamp p in
  _ ← assert (abs_le (Qsum (np.flat p) - 1) eps) 256;
  _sample_cond_draw rng s p n_out n_group out out_p.

Definition _sample_cond_single {S} (rng : Generator S) (s : S)
    (marginal_p : list (option MPArray)) (n_group : nat) (out : list nat) (eps : Q)
    : result (S * list nat) :=
  joint ← match last marginal_p with
          | Some (Some p) => Ok p
          | Some None => Raise TypeError
          | None => Raise IndexError
          end;
  let n_sites := mp.len joint in
  let out_p := 1%Q in
  _ ← (if bool_decide (n_group = 0)
       then Raise (ValueError "range() arg 3 must not be zero") else Ok tt);
  '(s, out, out_p) ← for_each (py_range 0 n_sites n_group)
                        (_sample_cond_step rng marginal_p n_sites n_group eps)
                        (s, out, out_p);
  p ← mp.getitem joint (Int <$> out);
  let p := mp.scalar p in
  _ ← assert (cx.abs_le (cx.sub p (cx.of_real out_p)) eps) 264;
  Ok (s, out).

(** The loop of [_sample_cond] that fills [marginal_p] from the last
    entry down to the first. *)
Definition marginals (probab : MPArray) : result (list (option MPArray)) :=
  let marginal_p : list (option MPArray) := replicate (mp.len probab + 1) None in
  let marginal_p := <[mp.len probab := Some probab]> marginal_p in
  for_each (reverse (seq 0 (mp.len probab)))
    (λ marginal_p n_sites,
       prev ← marginal marginal_p (n_sites + 1);
       let p := mp.sum prev (replicate n_sites [] ++ [[0]]) in
       let p := if bool_decide (0 < n_sites) then mp.prune p false else p in
       Ok (<[n_sites := Some p]> marginal_p))
    marginal_p.

Definition _sample_cond {S} (rng : Generator S) (s : S) (probab : MPArray)
    (n_samples n_group : nat) (out : batch) (eps : Q) : result (S * batch) :=
  marginal_p ← marginals probab;
  m0 ← marginal marginal_p 0;
  _ ← assert (cx.abs_le (cx.sub (mp.scalar m0) cx.one) eps) 279;
  for_each (seq 0 n_samples)
    (λ '(s, out) i,
       row ← match rows out !! i with
             | Some r => Ok r
             | None => Raise IndexError
             end;
       '(s, row) ← _sample_cond_single rng s marginal_p n_group row eps;
       Ok (s, Batch (n_cols out) (<[i := row]> (rows out))))
    (s, out).

(** Lines 291 to 293 of [_sample_direct]: the draws from the full
    probabilities. *)
Definition _sample_direct_draw {S} (rng : Generator S) (s : S) (probab : np.ndarray Q)
    (n_samples : nat) (out : batch) : result (S * batch) :=
  '(choices, s) ← match choices rng s (length (np.flat probab)) n_samples
                          (np.flat probab) with
                  | Some r => Ok r
                  | None => Raise (ValueError "rng.choice")
                  end;
  _ ← (if forallb (λ c, c <? np.size (np.shape probab)) choices
       then Ok tt else Raise (ValueError "index out of bounds"));
  out ← for_each (seq 0 (np.ndim probab))
          (λ out pos,
             set_column out pos
               ((λ c, default 0 (np.unravel_index c (np.shape probab) !! pos))
                <$> choices))
          out;
  Ok (s, out).

Definition _sample_direct {S} (rng : Generator S) (s : S) (self probab : MPArray)
    (n_samples : nat) (out : batch) (eps : Q) : result (S * batch) :=
  let probab := mp.to_array (mp.prune probab true) in
  _ ← assert (np.all (np.map (λ z, abs_le (im z) eps) probab)) 286;
  let probab := np.map re probab in
  _ ← assert (np.all (np.map (λ x, Qle_bool (- eps) x) probab)) 288;
  let probab := np.map clamp probab in
  _ ← assert (abs_le (Qsum (np.flat probab) - 1) eps) 290;
  _sample_direct_draw rng s probab n_samples out.

(** [(out < np.array(dims)[None, :]).all()], with numpy's broadcasting
    of the two shapes [(n, n_cols)] and [(1, len(dims))]. *)
Definition all_below (out : batch) (dims : list nat) : result bool :=
  if bool_decide (n_cols out = length dims) then
    Ok (forallb (λ r, forallb (λ '(v, d), v <? d) (zip r dims)) (rows out))
  else if bool_decide (length dims = 1) then
    Ok (forallb (λ r, forallb (λ v, v <? default 0 (dims !! 0)) r) (rows out))
  else if bool_decide (n_cols out = 1) then
    Ok (forallb (λ r, forallb (λ d, default 0 (r !! 0) <? d) dims) (rows out))
  else Raise (ValueError "operands could not be broadcast together").

Definition sample {S} (ops : mpsmpo) (rng : Generator S) (s : S)
    (self state : MPArray) (n_samples : nat) (method : string) (n_group : nat)
    (mode : string) (eps : Q) : result (S * batch) :=
  _ ← assert (bool_decide (mp.len self = mp.len state)) 326;
  probab ← next (expectations ops self state mode);
  let probab := mp.prune probab true in
  let probab_sum := mp.sum_all probab in
  _ ← assert (abs_le (im probab_sum) eps) 331;
  _ ← assert (abs_le (1 - re probab_sum) eps) 332;
  _ ← assert (forallb (λ dim, dim <=? 255) (outdims self)) 336;
  let out := Batch (mp.len probab) (replicate n_samples (replicate (mp.len probab) 255)) in
  '(s, out) ← (if String.eqb method "cond" then
                 _sample_cond rng s probab n_samples n_group out eps
               else if String.eqb method "direct" then
                 _sample_direct rng s self probab n_samples out eps
               else Raise (ValueError "Unknown method"));
  ok ← all_below out (nsoutdims self);
  _ ← assert ok 345;
  Ok (s, out).

(** [np.fromfunction(lambda i, j, k: (i == j) & (j == k), [outdim] * 3)] *)
Definition eye3d (outdim : nat) : np.ndarray complex :=
  np.fromfunction (λ idx, match idx with
                          | [i; j; k] =>
                              if (i =? j) && (j =? k) then Complex 1 0 else Complex 0 0
                          | _ => Complex 0 0
                          end) [outdim; outdim; outdim].

(** [x ** 0.5] *)
Definition pow_half (x : Q) : root := if Qle_bool 0 x then Sqrt x else NaN.

(** Lines 188 to 194 of [find_matching_elements]: [other] with the
    outcomes dropped where [self] has only one. *)
Definition project (self other : MPArray) : result MPArray :=
  let support := (λ outdim, bool_decide (1 < outdim)) <$> outdims self in
  let tr := mp.from_kron
              (zip_with (λ (keep : bool) outdim,
                           if keep then np.eye outdim else np.ones [1; outdim])
                        support (outdims other)) in
  init (mp.dot tr other mp.default_axes).

(** Lines 199 to 205 (and 206 to 212): the squared norms of the
    elements, from their inner products. *)
Definition normsq (self : MPArray) : MPArray :=
  let snormsq := mp.dot (mp.conj self) self ([1%Z; 2%Z], [1%Z; 2%Z]) in
  let eye3d := mp.from_kron (eye3d <$> outdims self) in
  mp.dot eye3d snormsq ([1%Z; 2%Z], [0%Z; 1%Z]).

(** Lines 216 to 232 of [find_matching_elements]: the comparison of the
    inner products with the products of the norms, and the prefactors. *)
Definition match_prefactors (inner snormsq onormsq : np.ndarray Q) (eps : Q)
    : result (np.ndarray bool * np.ndarray root) :=
  _ ← assert (np.all (np.map (λ x, negb (Qle_bool x 0)) snormsq)) 216;
  _ ← assert (np.all (np.map (λ x, negb (Qle_bool x 0)) onormsq)) 217;
  _ ← assert (bool_decide (np.shape inner = (np.shape snormsq ++ np.shape onormsq)%list)) 218;
  normprod ← np.reshape (np.outer snormsq onormsq) (np.shape inner);
  _ ← assert (np.all (np.map2 (λ n i, Qle_bool (- eps) ((n - i) / n))
                              normprod inner)) 221;
  let match_ := np.map2 (λ i n, abs_le (i / n - 1) eps) inner normprod in
  let snormsq_shape := np.shape snormsq in
  snormsq ← np.reshape snormsq (snormsq_shape ++ replicate (np.ndim onormsq) 1)%list;
  onormsq ← np.reshape onormsq (replicate (length snormsq_shape) 1 ++ np.shape onormsq)%list;
  ratio ← np.divide snormsq onormsq;
  let prefactors := np.map pow_half ratio in
  _ ← assert (bool_decide (np.shape prefactors = np.shape match_)) 231;
  let prefactors := np.map2 (λ (m : bool) p, if m then p else NaN) match_ prefactors in
  Ok (match_, prefactors).

Definition find_matching_elements (self other : MPArray) (eps : Q)
    : result (list nat * np.ndarray bool * np.ndarray root) :=
  _ ← (if bool_decide (hdims self = hdims other) then Ok tt
       else Raise (ValueError "Incompatible input Hilbert space"));
  let support := (λ outdim, bool_decide (1 < outdim)) <$> outdims self in
  other ← project self other;
  let inner := mp.dot (mp.conj self) other ([1%Z; 2%Z], [1%Z; 2%Z]) in
  let snormsq := normsq self in
  let onormsq := normsq other in
  let inner := np.map cx.abs2 (mp.to_array_global (mp.prune inner true)) in
  let snormsq := np.map re (mp.to_array (mp.prune snormsq true)) in
  let onormsq := np.map re (mp.to_array (mp.prune onormsq true)) in
  '(match_, prefactors) ← match_prefactors inner snormsq onormsq eps;
  let sites := (λ '(i, _), i) <$> filter (λ '(_, keep), keep = true)
                                         (imap (λ i keep, (i, keep)) support) in
  Ok (sites, match_, prefactors).

(** [(samples == np.array(out)[None, :]).all(1).sum()] *)
Definition count_rows (samples : batch) (out : list nat) : nat :=
  length (filter (λ r, forallb (λ '(v, o), v =? o) (zip r out) = true) (rows samples)).

Definition count_samples (self : MPArray) (samples : batch) : result (np.ndarray nat) :=
  let n_samples := length (rows samples) in
  let counts := np.zeros (nsoutdims self) in
  _ ← assert (bool_decide (n_cols samples = np.ndim counts)) 361;
  let counts :=
    foldl (λ counts out_num,
             let out := np.unravel_index out_num (np.shape counts) in
             np.setitem counts out (count_rows samples out))
          counts (seq 0 (np.size (np.shape counts))) in
  _ ← assert (bool_decide (sum_list (np.flat counts) = n_samples)) 365;
  Ok counts.

End MPPovm.

(** * Notions of the specification

    The properties below are stated with the following notions; none of
    them is part of the program. *)

(** ** Chains of one or three legs per site *)

(** One physical leg per site. *)
Definition sing (l : list nat) : list (list nat) := (λ i, [i]) <$> l.

(** The legs of a POVM and of a density operator, from the outcome and the
    Hilbert space dimension of every site. *)
Definition povm_pdims (ohs : list (nat * nat)) : list (list nat) :=
  (λ '(o, h), [o; h; h]) <$> ohs.

Definition mpo_pdims (ohs : list (nat * nat)) : list (list nat) :=
  (λ '(_, h), [h; h]) <$> ohs.

Definition square_dims (ohs : list (nat * nat)) : list (list nat) :=
  (λ '(_, h), [h; h]) <$> ohs.

Definition merged_pdims (ohs : list (nat * nat)) : list (list nat) :=
  (λ '(o, h), [o; h * h]) <$> ohs.

Definition merged_dims (ohs : list (nat * nat)) : list (list nat) :=
  (λ '(_, h), [h * h]) <$> ohs.

(** Row and column of the operator index [j] of one site, row-major. *)
Definition row_col (h : nat) (c : list nat) : list nat :=
  let j := default 0 (c !! 0) in [j / h; j mod h].

(** ** Sample batches and generators *)

(** The shape [(n, c)] of a batch. *)
Definition has_shape (b : batch) (n c : nat) : Prop :=
  n_cols b = c ∧ length (rows b) = n ∧ Forall (λ r, length r = c) (rows b).

(** A generator draws an index of positive weight. *)
Definition rng_lawful {S} (rng : Generator S) : Prop :=
  ∀ s a p i s', choice rng s a p = Some (i, s') → ∃ w, p !! i = Some w ∧ (0 < w)%Q.

(** Every reduction to a window of [width] sites has [width] sites. *)
Definition ops_wf (ops : mpsmpo) : Prop :=
  ∀ mpa width,
    Forall (λ rho, mp.len rho = width) (reductions_mpo ops mpa width) ∧
    Forall (λ psi, mp.len (pmps_to_mpo ops psi) = width)
           (reductions_mps_as_pmps ops mpa width) ∧
    Forall (λ psi, mp.len (pmps_to_mpo ops psi) = width)
           (reductions_pmps ops mpa width).

(** ** Marginal distributions *)

(** [marginal_p] as [_sample_cond] builds it for the chain [probab] of
    outcome dimensions [ds]. *)
Definition marginal_family (ds : list nat) (probab : MPArray)
    (marginal_p : list (option MPArray)) : Prop :=
  last marginal_p = Some (Some probab) ∧
  marginal_p !! length ds = Some (Some probab) ∧
  ∀ k, 1 ≤ k ≤ length ds →
    ∃ m, marginal_p !! k = Some (Some m) ∧ pdims m = sing (take k ds).

(** What [marginal_p[k]] holds: the chain over the first [k] sites whose
    elements are the sums of [probab] over the outcomes of the other
    sites. *)
Definition marginal_at (ds : list nat) (probab : MPArray) (k : nat) (m : MPArray) : Prop :=
  (0 < k →
     pdims m = sing (take k ds) ∧
     ∀ idx, length idx = k →
       entry m (sing idx)
       = cx.sum_over (drop k ds) (λ tl, entry probab (sing (idx ++ tl)))) ∧
  (k = 0 → mp.scalar m = cx.sum_over ds (λ tl, entry probab (sing tl))).

(** The state of the loop of [_sample_cond_single] once the first [k]
    sites are drawn. *)
Definition drawn {St} (ds : list nat) (marginal_p : list (option MPArray))
    (k : nat) (st : St * list nat * Q) : Prop :=
  let '(_, out, out_p) := st in
  length out = length ds ∧
  np.in_range (take k out) (take k ds) ∧
  (0 < out_p)%Q ∧
  (k = 0 → out_p = 1%Q) ∧
  (0 < k → ∃ m, marginal_p !! k = Some (Some m) ∧
                (out_p == re (entry m (sing (take k out))))%Q).

(** ** Probabilities, inner products and norms *)

(** Sums over a list of indices. *)
Definition sum_list_cx (l : list nat) (f : nat → complex) : complex :=
  foldr cx.add cx.zero (f <$> l).

(** The probability of the outcome [ks] in the state [rho]: the trace of
    the product of the element [E_ks] of the POVM, whose matrix is
    [E_ks[a, b] = self[(k_1, a_1, b_1), ...]], with the density operator. *)
Definition born (self rho : MPArray) (ks : list nat) : complex :=
  cx.sum_sites ((λ h, [h; h]) <$> MPPovm.hdims self)
    (λ abs, cx.mul (entry self (zip_with cons ks abs)) (entry rho (reverse <$> abs))).

(** The inner product of two elements, and the squared norm of one. *)
Definition inner_product (a b : MPArray) (i j : list nat) : complex :=
  cx.sum_sites ((λ h, [h; h]) <$> MPPovm.hdims a)
    (λ abs, cx.mul (cx.conj (entry a (zip_with cons i abs)))
                   (entry b (zip_with cons j abs))).

Definition norm_squared (a : MPArray) (i : list nat) : Q :=
  re (cx.sum_sites ((λ h, [h; h]) <$> MPPovm.hdims a)
        (λ abs, cx.of_real (cx.abs2 (entry a (zip_with cons i abs))))).

(** The test of [find_matching_elements] on the elements [ix] and [jx]:
    equality in the Cauchy-Schwarz inequality, within [eps]. *)
Definition proportional (self : MPArray) (eps : Q) (ix jx : list nat) : bool :=
  abs_le (cx.abs2 (inner_product self self ix jx)
          / (norm_squared self ix * norm_squared self jx) - 1) eps.

(** [C] is dominated by [A] and [B]: the two are real and not negative,
    and [|C|^2 <= A * B]. *)
Definition dominated (A B C : complex) : Prop :=
  (im A == 0 ∧ im B == 0 ∧ 0 <= re A ∧ 0 <= re B ∧ cx.abs2 C <= re A * re B)%Q.

(** ** The chains of [find_matching_elements]

    The outcome dimensions of [a] and of [b], and the dimension of the
    Hilbert space, site by site. *)
Definition left_pdims (dims : list (nat * nat * nat)) : list (list nat) :=
  (λ '(o, _, h), [o; h; h]) <$> dims.

Definition right_pdims (dims : list (nat * nat * nat)) : list (list nat) :=
  (λ '(_, o, h), [o; h; h]) <$> dims.

Definition pair_pdims (dims : list (nat * nat * nat)) : list (list nat) :=
  (λ '(o, o', _), [o; o']) <$> dims.

Definition operator_dims (dims : list (nat * nat * nat)) : list (list nat) :=
  (λ '(_, _, h), [h; h]) <$> dims.

Definition twice (ohs : list (nat * nat)) : list (nat * nat * nat) :=
  (λ '(o, h), (o, o, h)) <$> ohs.

Definition operator_axes : list Z * list Z := ([1%Z; 2%Z], [1%Z; 2%Z]).

Definition diagonal_axes : list Z * list Z := ([1%Z; 2%Z], [0%Z; 1%Z]).

Definition cube_pdims (os : list nat) : list (list nat) := (λ o, [o; o; o]) <$> os.

Definition square_pdims (os : list nat) : list (list nat) := (λ o, [o; o]) <$> os.

(** The outcome dimensions that are left when the singleton outcomes are
    pruned, and an outcome on them completed by the only outcome of the
    others. *)
Definition informative (os : list nat) : list nat := filter (λ o, o ≠ 1) os.

Fixpoint expand (os idx : list nat) : list nat :=
  match os with
  | [] => []
  | o :: os' =>
      if o =? 1 then 0 :: expand os' idx
      else match idx with
           | i :: idx' => i :: expand os' idx'
           | [] => 0 :: expand os' []
           end
  end.

(** The outcome and Hilbert space dimensions of [other] once the outcomes
    are dropped where [self] has only one. *)
Definition projected_dims (ohs ohs' : list (nat * nat)) : list (nat * nat) :=
  zip_with (λ '(o, _) '(o', h'), (if bool_decide (1 < o) then o' else 1, h')) ohs ohs'.

(** The factor of [tr] at a site where the POVM has [o] outcomes. *)
Definition selector (o : nat) : np.ndarray complex :=
  if bool_decide (1 < o) then np.eye o else np.ones [1; o].

(** An array has as many elements as its shape says. *)
Definition well_shaped {A} (a : np.ndarray A) : Prop :=
  length (np.flat a) = np.size (np.shape a).

(** * A generator

    A linear congruential generator, with [choice] by inversion of the
    cumulative weights.  As the generators of numpy do, it refuses
    weights that are negative or that do not sum to one within [10^-8]. *)

Module lcg.

Definition next_seed (seed : N) : N := ((1103515245 * seed + 12345) mod 2147483648)%N.

Definition uniform (seed : N) : Q := (Z.of_N ((seed / 65536) mod 1000)%N # 1000)%Q.

Fixpoint inverse_cdf (u : Q) (p : list Q) (acc : Q) (i : nat) : option nat :=
  match p with
  | [] => None
  | x :: p' =>
      let acc := (acc + x)%Q in
      if Qle_bool acc u then inverse_cdf u p' acc (S i) else Some i
  end.

Definition choice (seed : N) (a : nat) (p : list Q) : option (nat * N) :=
  if bool_decide (length p = a) && forallb (Qle_bool 0) p
     && abs_le (Qsum p - 1) (1 # 100000000) then
    i ← inverse_cdf (uniform seed * Qsum p)%Q p 0%Q 0;
    Some (i, next_seed seed)
  else None.

Fixpoint choices (seed : N) (a n : nat) (p : list Q) : option (list nat * N) :=
  match n with
  | 0 => Some ([], seed)
  | S n' => '(i, seed) ← choice seed a p;
            '(l, seed) ← choices seed a n' p;
            Some (i :: l, seed)
  end.

Definition rng : Generator N := mkGenerator N choice choices.

End lcg.

(** ** Further notions *)

(** Every row of a batch has as many entries as the batch has columns. *)
Definition rectangular (b : batch) : Prop :=
  Forall (λ r, length r = n_cols b) (rows b).

(** A generator returns as many draws as it is asked for. *)
Definition rng_sized {S} (rng : Generator S) : Prop :=
  ∀ s a n p cs s', choices rng s a n p = Some (cs, s') → length cs = n.

(** The trace of a density operator: the sum of its diagonal elements. *)
Definition trace (rho : MPArray) : complex :=
  cx.sum_sites ((λ pd, take 1 pd) <$> pdims rho)
    (λ cs, entry rho ((λ c, c ++ c) <$> cs)).

(** * Examples *)

Module ex.

Definition real (x : Q) : complex := Complex x 0.

(** The reductions of a chain to the windows of its full width: the
  chain itself. *)
Definition whole (m : MPArray) (width : nat) : list MPArray :=
if bool_decide (mp.len m = width) then [m] else [].

Definition full_window : mpsmpo := mkMpsmpo whole whole whole (λ m, m).

(** The measurement of a qubit in the computational basis, and the POVM
  of two such sites. *)
Definition z_basis : np.ndarray complex :=
np.NDArray [2; 2; 2] (real <$> [1; 0; 0; 0;  0; 0; 0; 1]%Q).

Definition z_povm : MPArray := mp.from_kron [z_basis; z_basis].

(** The measurement of the first of two qubits only: the second site has
  the identity as its one element. *)
Definition whole_qubit : np.ndarray complex :=
np.NDArray [1; 2; 2] (real <$> [1; 0; 0; 1]%Q).

Definition z_first : MPArray := mp.from_kron [z_basis; whole_qubit].

(** The maximally mixed state of two qubits. *)
Definition mixed_qubit : np.ndarray complex :=
np.NDArray [2; 2] (real <$> [1 # 2; 0; 0; 1 # 2]%Q).

Definition mixed_state : MPArray := mp.from_kron [mixed_qubit; mixed_qubit].

(** A POVM of two proportional elements, a third and two thirds of the
  identity of a qubit. *)
Definition thirds : np.ndarray complex :=
np.NDArray [2; 2; 2] (real <$> [1 # 3; 0; 0; 1 # 3;  2 # 3; 0; 0; 2 # 3]%Q).

Definition thirds_povm : MPArray := mp.from_kron [thirds].

(** Operators on a Hilbert space of dimension one whose second site has
  two complex elements. *)
Definition first_outcome : np.ndarray complex :=
np.NDArray [2; 1; 1] [real 1; real 0].

(** A POVM of one site whose second element is zero. *)
Definition first_only : MPArray := mp.from_kron [first_outcome].

Definition skewed : np.ndarray complex :=
np.NDArray [2; 1; 1] [Complex (1000000001 # 2000000000) (2000000001 # 20000000000);
                      Complex (1000000001 # 2000000000) (- 2000000001 # 20000000000)].

Definition skewed_povm : MPArray := mp.from_kron [first_outcome; skewed].

Definition unit_state : MPArray :=
mp.from_kron [np.NDArray [1; 1] [real 1]; np.NDArray [1; 1] [real 1]].

(** The chain of probabilities of [skewed_povm] in [unit_state], and the
  uniform distribution on two bits. *)
Definition skewed_probab : MPArray :=
mkMPArray [[2]; [2]]
  (λ idx, match idx with
          | [[0]; [0]] => Complex (1000000001 # 2000000000) (2000000001 # 20000000000)
          | [[0]; [1]] => Complex (1000000001 # 2000000000) (- 2000000001 # 20000000000)
          | _ => cx.zero
          end).

Definition uniform_probab : MPArray := mkMPArray [[2]; [2]] (λ _, real (1 # 4)).

Definition unfilled (n_samples n_cols : nat) : batch :=
Batch n_cols (replicate n_samples (replicate n_cols 255)).

Definition tolerance : Q := 1 # 10000000000.

(** What [find_matching_elements] returns for [z_povm] and itself. *)
Definition z_matches : np.ndarray bool :=
np.NDArray [2; 2; 2; 2]
  [true; false; false; false;  false; true; false; false;
   false; false; true; false;  false; false; false; true].

Definition z_prefactors : np.ndarray root :=
np.map (λ m : bool, if m then Sqrt 1 else NaN) z_matches.

End ex.

(** * Properties *)

Arguments np.size : simpl never.

(** ** Multi-indices and the histogram of a batch *)

Section numpy_index.
Implicit Types (shape idx : list nat) (n : nat).

Lemma size_nil : np.size [] = 1.
Proof. reflexivity. Qed.

Lemma size_cons d shape : np.size (d :: shape) = d * np.size shape.
Proof. reflexivity. Qed.

Lemma size_app s1 s2 : np.size (s1 ++ s2) = np.size s1 * np.size s2.
Proof.
  induction s1 as [|d s1 IH]; simpl.
  - lia.
  - rewrite !size_cons, IH. lia.
Qed.

Lemma in_range_length idx shape : np.in_range idx shape → length idx = length shape.
Proof. apply Forall2_length. Qed.

Lemma unravel_index_length n shape : length (np.unravel_index n shape) = length shape.
Proof. revert n. induction shape as [|d shape IH]; intros n; simpl; [done|]. by rewrite IH. Qed.

Lemma unravel_index_in_range n shape :
  n < np.size shape → np.in_range (np.unravel_index n shape) shape.
Proof.
  revert n. induction shape as [|d shape IH]; intros n Hn; simpl.
  - constructor.
  - rewrite size_cons in Hn.
    assert (np.size shape ≠ 0) by (intros E; rewrite E in Hn; lia).
    constructor.
    + apply Nat.Div0.div_lt_upper_bound. lia.
    + apply IH. by apply Nat.mod_upper_bound.
Qed.

Lemma ravel_unravel n shape :
  n < np.size shape → np.ravel_multi_index (np.unravel_index n shape) shape = n.
Proof.
  revert n. induction shape as [|d shape IH]; intros n Hn; simpl.
  - unfold np.size in Hn; simpl in Hn. lia.
  - rewrite size_cons in Hn.
    assert (np.size shape ≠ 0) by (intros E; rewrite E in Hn; lia).
    rewrite IH by by apply Nat.mod_upper_bound.
    pose proof (Nat.div_mod_eq n (np.size shape)). lia.
Qed.

Lemma ravel_lt idx shape :
  np.in_range idx shape → np.ravel_multi_index idx shape < np.size shape.
Proof.
  induction 1 as [|i d idx shape Hi _ IH]; simpl.
  - unfold np.size; simpl; lia.
  - rewrite size_cons. nia.
Qed.

Lemma unravel_ravel idx shape :
  np.in_range idx shape → np.unravel_index (np.ravel_multi_index idx shape) shape = idx.
Proof.
  induction 1 as [|i d idx shape Hi Hr IH]; simpl; [done|].
  pose proof (ravel_lt _ _ Hr) as Hlt.
  set (r := np.ravel_multi_index idx shape) in *.
  assert (np.size shape ≠ 0) by lia.
  replace ((i * np.size shape + r) / np.size shape) with i
    by (rewrite Nat.div_add_l, Nat.div_small by done; lia).
  replace ((i * np.size shape + r) `mod` np.size shape) with r
    by (rewrite Nat.add_comm, Nat.Div0.mod_add, Nat.mod_small by done; done).
  by rewrite IH.
Qed.
End numpy_index.

Section count_samples.
Implicit Types (samples : batch) (out r : list nat).

Lemma row_eqb_spec r out :
  length r = length out →
  forallb (λ '(v, o), v =? o) (zip r out) = true ↔ r = out.
Proof.
  revert out. induction r as [|v r IH]; intros [|o out] Hlen; simplify_eq/=; [done|].
  rewrite andb_true_iff, Nat.eqb_eq, IH by done. naive_solver.
Qed.

Lemma count_rows_eq samples out :
  Forall (λ r, length r = length out) (rows samples) →
  MPPovm.count_rows samples out = length (filter (λ r, r = out) (rows samples)).
Proof.
  unfold MPPovm.count_rows. induction 1 as [|r rs Hr _ IH]; [done|].
  rewrite !filter_cons. pose proof (row_eqb_spec r out Hr).
  repeat case_decide; simpl; try rewrite IH; naive_solver.
Qed.

Lemma sum_list_indicator (k n : nat) :
  k < n → sum_list ((λ i, if decide (i = k) then 1 else 0) <$> seq 0 n) = 1.
Proof.
  intros Hk. replace n with (k + (1 + (n - S k))) by lia.
  rewrite !seq_app, !fmap_app, !sum_list_with_app. csimpl.
  rewrite decide_True by done.
  assert (∀ l : list nat, Forall (λ i, i ≠ k) l →
    sum_list ((λ i, if decide (i = k) then 1 else 0) <$> l) = 0) as Hz.
  { induction 1; csimpl; [done|]. rewrite decide_False by done. lia. }
  rewrite !Hz; [lia| |].
  - apply Forall_forall. intros i Hi%list_elem_of_In%in_seq. lia.
  - apply Forall_forall. intros i Hi%list_elem_of_In%in_seq. lia.
Qed.

Lemma sum_list_plus {A} (f g : A → nat) (l : list A) :
  sum_list ((λ x, f x + g x) <$> l) = sum_list (f <$> l) + sum_list (g <$> l).
Proof. induction l; csimpl; lia. Qed.

(** Every row in range is counted at exactly one outcome. *)
Lemma histogram_total shape (rs : list (list nat)) :
  Forall (λ r, np.in_range r shape) rs →
  sum_list ((λ n, length (filter (λ r, r = np.unravel_index n shape) rs))
            <$> seq 0 (np.size shape)) = length rs.
Proof.
  induction 1 as [|r rs Hr _ IH]; simpl.
  - induction (seq 0 (np.size shape)); csimpl; [done|]. done.
  - rewrite <- IH. change (S ?x) with (1 + x).
    rewrite <- (sum_list_indicator (np.ravel_multi_index r shape)
      (np.size shape)) by by apply ravel_lt.
    rewrite <- sum_list_plus. f_equal. apply list_fmap_ext.
    intros n ? [-> Hn]%lookup_seq. simpl.
    rewrite filter_cons.
    destruct (decide (r = np.unravel_index n shape)) as [->|Hne].
    + rewrite ravel_unravel by done. by rewrite decide_True.
    + rewrite decide_False; [done|]. intros ->. by rewrite unravel_ravel in Hne.
Qed.

(** The loop of [count_samples], after the outcomes below [m]. *)
Lemma count_loop shape (f : list nat → nat) m :
  m ≤ np.size shape →
  foldl (λ counts out_num,
           let out := np.unravel_index out_num (np.shape counts) in
           np.setitem counts out (f out))
        (np.zeros shape) (seq 0 m)
  = np.NDArray shape (((λ n, f (np.unravel_index n shape)) <$> seq 0 m)
                      ++ replicate (np.size shape - m) 0).
Proof.
  induction m as [|m IH]; intros Hm.
  - simpl. by rewrite Nat.sub_0_r.
  - rewrite seq_S, foldl_app, IH by lia. simpl.
    unfold np.setitem; simpl. f_equal.
    rewrite ravel_unravel by lia.
    rewrite insert_app_r_alt; rewrite length_fmap, length_seq; [|lia].
    rewrite Nat.sub_diag, fmap_app, <- app_assoc. f_equal.
    replace (np.size shape - m) with (S (np.size shape - S m)) by lia.
    done.
Qed.
End count_samples.

Lemma count_samples_value (self : MPArray) (samples : batch) :
  let shape := MPPovm.nsoutdims self in
  n_cols samples = length shape →
  Forall (λ r, np.in_range r shape) (rows samples) →
  MPPovm.count_samples self samples =
    Ok (np.NDArray shape
          ((λ n, length (filter (λ r, r = np.unravel_index n shape) (rows samples)))
           <$> seq 0 (np.size shape))).
Proof.
  intros shape Hcols Hrows. unfold MPPovm.count_samples. fold shape.
  change (np.ndim (np.zeros shape)) with (length shape).
  change (np.shape (np.zeros shape)) with shape.
  rewrite (bool_decide_eq_true_2 _ Hcols). cbn [assert mbind result_bind].
  rewrite count_loop by done. rewrite Nat.sub_diag, app_nil_r.
  assert (((λ n, MPPovm.count_rows samples (np.unravel_index n shape))
             <$> seq 0 (np.size shape))
          = ((λ n, length (filter (λ r, r = np.unravel_index n shape) (rows samples)))
             <$> seq 0 (np.size shape))) as ->.
  { apply list_fmap_ext. intros n ? [-> Hn]%lookup_seq. simpl.
    apply count_rows_eq. eapply Forall_impl; [done|]. intros r Hr. simpl in Hr.
    by rewrite unravel_index_length; apply in_range_length. }
  cbn [np.flat]. rewrite (bool_decide_eq_true_2 _ (histogram_total shape _ Hrows)).
  done.
Qed.

(** C7.  For a batch whose rows are in range for the non-singleton outcome
    dimensions of the POVM, [count_samples] returns an array of that shape;
    its element at every outcome is the number of rows equal to the
    outcome, and its elements sum to the number of samples (the assertion of
    line 365 holds). *)
Theorem count_samples_histogram (self : MPArray) (samples : batch) :
  n_cols samples = length (MPPovm.nsoutdims self) →
  Forall (λ r, np.in_range r (MPPovm.nsoutdims self)) (rows samples) →
  ∃ counts,
    MPPovm.count_samples self samples = Ok counts ∧
    np.shape counts = MPPovm.nsoutdims self ∧
    (∀ out, np.in_range out (MPPovm.nsoutdims self) →
       np.getitem counts out = Some (length (filter (λ r, r = out) (rows samples)))) ∧
    sum_list (np.flat counts) = length (rows samples).
Proof.
  intros Hcols Hrows. eexists. split; [by apply count_samples_value|].
  split; [done|]. split; [|by apply histogram_total].
  intros out Hout. unfold np.getitem. cbn [np.flat np.shape].
  rewrite list_lookup_fmap, lookup_seq_lt by by apply ravel_lt.
  simpl. by rewrite unravel_ravel.
Qed.

(** ** The mode of [expectations] *)

Section dispatch.
Local Open Scope string_scope.
Local Open Scope nat_scope.

Implicit Types (ops : mpsmpo) (self mpa state : MPArray) (mode : string).

Lemma assert_true line : assert true line = Ok tt.
Proof. done. Qed.

Lemma forallb_eqb_Forall (k : nat) (l : list nat) :
  forallb (Nat.eqb k) l = true ↔ Forall (λ n, n = k) l.
Proof.
  rewrite forallb_forall, Forall_forall. split; intros H n Hn.
  - symmetry. apply Nat.eqb_eq, H. by apply list_elem_of_In.
  - apply Nat.eqb_eq. symmetry. apply H. by apply list_elem_of_In.
Qed.

Lemma one_leg_not_two (l : list nat) :
  l ≠ [] → Forall (λ n, n = 2) l → forallb (Nat.eqb 1) l = false.
Proof. intros Hl H. destruct l as [|n l]; [done|]. by apply Forall_cons in H as [-> _]. Qed.

Lemma expectations_explicit ops self mpa mode :
  mp.len self ≤ mp.len mpa →
  mode = "mps" ∨ mode = "mpdo" ∨ mode = "pmps" →
  is_ok (MPPovm.expectations ops self mpa mode) = true.
Proof.
  intros Hlen Hmode. unfold MPPovm.expectations.
  rewrite bool_decide_eq_true_2 by done. cbn [assert mbind result_bind].
  destruct Hmode as [-> | [-> | ->]]; done.
Qed.

Ltac case_mode mode :=
  destruct (String.eqb_spec mode "auto") as [-> | ?];
  [|destruct (String.eqb_spec mode "mps") as [-> | ?];
    [|destruct (String.eqb_spec mode "mpdo") as [-> | ?];
      [|destruct (String.eqb_spec mode "pmps") as [-> | ?]]]].

Lemma expectations_auto_one_leg ops self mpa :
  Forall (λ n, n = 1) (mp.plegs mpa) →
  MPPovm.expectations ops self mpa "auto" = MPPovm.expectations ops self mpa "mps".
Proof.
  intros H%forallb_eqb_Forall. unfold MPPovm.expectations.
  destruct (assert _ _); [|done]. cbn [mbind result_bind].
  rewrite H. done.
Qed.

Lemma expectations_auto_two_legs ops self mpa :
  Forall (λ n, n = 2) (mp.plegs mpa) → mp.plegs mpa ≠ [] →
  MPPovm.expectations ops self mpa "auto" = MPPovm.expectations ops self mpa "mpdo".
Proof.
  intros H Hne. unfold MPPovm.expectations.
  destruct (assert _ _); [|done]. cbn [mbind result_bind].
  rewrite one_leg_not_two by done. apply forallb_eqb_Forall in H. rewrite H. done.
Qed.

Lemma expectations_auto_never_pmps ops self mpa by_pmps :
  MPPovm.expectations
    (mkMpsmpo (reductions_mps_as_pmps ops) (reductions_mpo ops) by_pmps (pmps_to_mpo ops))
    self mpa "auto" = MPPovm.expectations ops self mpa "auto".
Proof.
  unfold MPPovm.expectations.
  destruct (assert _ _); [|done]. cbn [mbind result_bind].
  destruct (forallb (Nat.eqb 1) (mp.plegs mpa)); [done|].
  destruct (forallb (Nat.eqb 2) (mp.plegs mpa)); done.
Qed.

Lemma expectations_value_error ops self mpa mode :
  MPPovm.expectations ops self mpa mode
    = Raise (ValueError "Could not understand data dype.") ↔
  mp.len self ≤ mp.len mpa ∧
  mode ≠ "mps" ∧ mode ≠ "mpdo" ∧ mode ≠ "pmps" ∧
  ¬ (mode = "auto" ∧ (Forall (λ n, n = 1) (mp.plegs mpa)
                      ∨ Forall (λ n, n = 2) (mp.plegs mpa))).
Proof.
  unfold MPPovm.expectations. rewrite <- !forallb_eqb_Forall.
  destruct (bool_decide (mp.len self ≤ mp.len mpa)) eqn:Hlen;
    cbn [assert mbind result_bind].
  2:{ apply bool_decide_eq_false in Hlen. split; [done|]. by intros [? _]. }
  apply bool_decide_eq_true in Hlen.
  destruct (String.eqb_spec mode "auto") as [-> | Hauto].
  - destruct (forallb (Nat.eqb 1) (mp.plegs mpa)), (forallb (Nat.eqb 2) (mp.plegs mpa));
      simpl.
    1-3: split; [done|]; intros (_ & _ & _ & _ & []); auto.
    split; [|done]. intros _. repeat split; try done. intros [_ [|]]; done.
  - destruct (String.eqb_spec mode "mps") as [-> | ?].
    { split; [done|]. by intros (_ & ? & _). }
    destruct (String.eqb_spec mode "mpdo") as [-> | ?].
    { split; [done|]. by intros (_ & _ & ? & _). }
    destruct (String.eqb_spec mode "pmps") as [-> | ?].
    { split; [done|]. by intros (_ & _ & _ & ? & _). }
    split; [|done]. intros _. repeat split; try done. by intros [? _].
Qed.

(** C8.  [expectations] raises the [ValueError] of line 156 exactly when
    the state has enough sites, the mode is none of [mps], [mpdo] and
    [pmps], and it is not [auto] on a state whose sites all have one leg
    or all have two.  Under [auto] a state of one leg per site is read as
    [mps] and one of two legs per site as [mpdo]; the reductions of [pmps]
    play no role under [auto]. *)
Theorem expectations_mode_dispatch (ops : mpsmpo) (self mpa : MPArray) (mode : string) :
  let one_leg := Forall (λ n, n = 1) (mp.plegs mpa) in
  let two_legs := Forall (λ n, n = 2) (mp.plegs mpa) in
  let run := MPPovm.expectations ops self mpa in
  (run mode = Raise (ValueError "Could not understand data dype.") ↔
     mp.len self ≤ mp.len mpa ∧
     mode ≠ "mps" ∧ mode ≠ "mpdo" ∧ mode ≠ "pmps" ∧
     ¬ (mode = "auto" ∧ (one_leg ∨ two_legs)))
  ∧ (one_leg → run "auto" = run "mps")
  ∧ (two_legs → mp.plegs mpa ≠ [] → run "auto" = run "mpdo")
  ∧ (∀ by_pmps,
       MPPovm.expectations
         (mkMpsmpo (reductions_mps_as_pmps ops) (reductions_mpo ops) by_pmps (pmps_to_mpo ops))
         self mpa "auto" = run "auto").
Proof.
  intros one_leg two_legs run. split; [|split; [|split]].
  - apply expectations_value_error.
  - apply expectations_auto_one_leg.
  - apply expectations_auto_two_legs.
  - apply expectations_auto_never_pmps.
Qed.


End dispatch.

(** ** Loops and the tolerance checks of the sampling paths *)

Section loops.
Context {A St : Type}.
Implicit Types (xs : list A) (body : St → A → result St) (st : St).

Lemma for_each_nil body st : for_each [] body st = Ok st.
Proof. done. Qed.

Lemma for_each_cons x xs body st :
  for_each (x :: xs) body st = body st x ≫= for_each xs body.
Proof.
  unfold for_each. simpl. destruct (body st x) as [st'|e]; simpl; [done|].
  induction xs as [|y xs IH]; simpl; [done|]. apply IH.
Qed.

Lemma for_each_app xs ys body st :
  for_each (xs ++ ys) body st = for_each xs body st ≫= for_each ys body.
Proof.
  revert st. induction xs as [|x xs IH]; intros st; simpl; [done|].
  rewrite !for_each_cons. destruct (body st x); simpl; [apply IH|done].
Qed.

(** An invariant of the loop state, and a property of what the body may
    raise. *)
Lemma for_each_inv (I : St → Prop) (E : exn → Prop) xs body st :
  I st →
  (∀ st x, x ∈ xs → I st →
     match body st x with Ok st' => I st' | Raise e => E e end) →
  match for_each xs body st with Ok st' => I st' | Raise e => E e end.
Proof.
  revert st. induction xs as [|x xs IH]; intros st Hst Hbody; simpl; [done|].
  rewrite for_each_cons.
  pose proof (Hbody st x (list_elem_of_here _ _) Hst) as Hx.
  destruct (body st x) as [st'|e]; simpl; [|done].
  apply IH; [done|]. intros st'' y Hy. apply Hbody. by apply list_elem_of_further.
Qed.
End loops.

Section tolerance.
Local Open Scope Q_scope.
Implicit Types (eps x : Q) (z : complex).

Lemma abs_le_spec x eps : abs_le x eps = true ↔ Qabs x <= eps.
Proof. apply Qle_bool_iff. Qed.

Lemma clamp_negative x : x < 0 → MPPovm.clamp x = 0.
Proof.
  intros Hx. unfold MPPovm.clamp. destruct (Qle_bool 0 x) eqn:E; [|done].
  apply Qle_bool_iff in E. lra.
Qed.

Lemma clamp_nonnegative x : 0 <= x → MPPovm.clamp x = x.
Proof. intros Hx%Qle_bool_iff. unfold MPPovm.clamp. by rewrite Hx. Qed.

Lemma clamp_ge_0 x : 0 <= MPPovm.clamp x.
Proof.
  unfold MPPovm.clamp. destruct (Qle_bool 0 x) eqn:E; [|lra]. by apply Qle_bool_iff.
Qed.

Lemma np_all_map {A} (f : A → bool) (a : np.ndarray A) :
  np.all (np.map f a) = forallb f (np.flat a).
Proof.
  unfold np.all, np.map. cbn [np.flat]. induction (np.flat a); csimpl; [done|].
  by f_equal.
Qed.

Lemma forallb_true_iff {A} (f : A → bool) (l : list A) :
  forallb f l = true ↔ ∀ a, a ∈ l → f a = true.
Proof. rewrite forallb_forall. by setoid_rewrite list_elem_of_In. Qed.

Lemma forallb_false_intro {A} (f : A → bool) (l : list A) (a : A) :
  a ∈ l → f a = false → forallb f l = false.
Proof.
  intros Hx Hf. destruct (forallb f l) eqn:E; [|done].
  rewrite forallb_true_iff in E. rewrite E in Hf; done.
Qed.
End tolerance.

Section draws.
Context {S : Type} (rng : Generator S).

Lemma set_column_not_assertion b pos col line :
  set_column b pos col ≠ Raise (AssertionError line).
Proof. unfold set_column. repeat case_bool_decide; done. Qed.

Lemma _sample_direct_draw_not_assertion s probab n_samples out line :
  MPPovm._sample_direct_draw rng s probab n_samples out ≠ Raise (AssertionError line).
Proof.
  unfold MPPovm._sample_direct_draw.
  destruct (choices rng _ _ _ _) as [[cs s']|]; [|done]. cbn [mbind result_bind].
  destruct (forallb _ cs); [|done]. cbn [mbind result_bind].
  match goal with |- context [for_each ?xs ?body ?st] =>
    pose proof (for_each_inv (λ _, True) (λ e, e ≠ AssertionError line) xs body st I) as H
  end.
  destruct (for_each _ _ _); cbn [mbind result_bind]; [done|].
  intros [= ->]. apply H; [|done]. intros st x _ _.
  pose proof (set_column_not_assertion st x
    ((λ c, default 0%nat (np.unravel_index c (np.shape probab) !! x)) <$> cs) line).
  destruct (set_column _ _ _); [done|]. congruence.
Qed.

Lemma set_slice_not_assertion row start stop vals line :
  set_slice row start stop vals ≠ Raise (AssertionError line).
Proof.
  unfold set_slice. case_bool_decide; [done|].
  destruct vals as [|? [|? ?]]; done.
Qed.

Lemma _sample_cond_draw_not_assertion s p n_out n_group out out_p line :
  MPPovm._sample_cond_draw rng s p n_out n_group out out_p ≠ Raise (AssertionError line).
Proof.
  unfold MPPovm._sample_cond_draw.
  destruct (choice rng _ _ _) as [[c s']|]; [|done]. cbn [mbind result_bind].
  case_bool_decide; [|done]. cbn [mbind result_bind].
  pose proof (set_slice_not_assertion out n_out (n_out + n_group)
    (np.unravel_index c (np.shape p)) line).
  destruct (set_slice _ _ _ _); [done|]. cbn. congruence.
Qed.
End draws.

(** C4.  In the direct and in the conditional sampling path alike: an
    imaginary part beyond [eps], an entry below [- eps], and a sum of the
    clamped entries further than [eps] from one each fail their assertion;
    when the three checks pass, the draw runs on the entries clamped at zero
    (a negative entry becomes exactly zero) and fails on no assertion. *)
Theorem sampling_tolerance_checks {S} (rng : Generator S) (s : S) (eps : Q) :
  (∀ self probab n_samples out,
     let p := mp.to_array (mp.prune probab true) in
     let w := np.map MPPovm.clamp (np.map re p) in
     let run := MPPovm._sample_direct rng s self probab n_samples out eps in
     ((∃ z, z ∈ np.flat p ∧ ¬ Qabs (im z) <= eps) → run = Raise (AssertionError 286)) ∧
     ((∀ z, z ∈ np.flat p → Qabs (im z) <= eps) →
      (∃ z, z ∈ np.flat p ∧ re z < - eps) → run = Raise (AssertionError 288)) ∧
     ((∀ z, z ∈ np.flat p → Qabs (im z) <= eps ∧ - eps <= re z) →
      ¬ Qabs (Qsum (np.flat w) - 1) <= eps → run = Raise (AssertionError 290)) ∧
     ((∀ z, z ∈ np.flat p → Qabs (im z) <= eps ∧ - eps <= re z) →
      Qabs (Qsum (np.flat w) - 1) <= eps →
      run = MPPovm._sample_direct_draw rng s w n_samples out ∧
      ∀ line, run ≠ Raise (AssertionError line)) ∧
     (∀ i z, np.flat p !! i = Some z →
        np.flat w !! i = Some (MPPovm.clamp (re z)) ∧
        (re z < 0 → MPPovm.clamp (re z) = 0) ∧
        (0 <= re z → MPPovm.clamp (re z) = re z)))%Q
  ∧
  (∀ marginal_p n_sites n_group out out_p n_out pk q,
     MPPovm.marginal marginal_p (n_sites `min` (n_out + n_group)) = Ok pk →
     mp.getitem pk ((Int <$> take n_out out) ++ replicate (mp.len pk - n_out) SliceAll)
       = Ok q →
     ¬ out_p == 0 →
     let p := np.map (λ z, cx.div_real z out_p) (mp.to_array (mp.prune q false)) in
     let w := np.map MPPovm.clamp (np.map re p) in
     let run := MPPovm._sample_cond_step rng marginal_p n_sites n_group eps
                  (s, out, out_p) n_out in
     ((∃ z, z ∈ np.flat p ∧ ¬ Qabs (im z) <= eps) → run = Raise (AssertionError 252)) ∧
     ((∀ z, z ∈ np.flat p → Qabs (im z) <= eps) →
      (∃ z, z ∈ np.flat p ∧ re z < - eps) → run = Raise (AssertionError 254)) ∧
     ((∀ z, z ∈ np.flat p → Qabs (im z) <= eps ∧ - eps <= re z) →
      ¬ Qabs (Qsum (np.flat w) - 1) <= eps → run = Raise (AssertionError 256)) ∧
     ((∀ z, z ∈ np.flat p → Qabs (im z) <= eps ∧ - eps <= re z) →
      Qabs (Qsum (np.flat w) - 1) <= eps →
      run = MPPovm._sample_cond_draw rng s w n_out n_group out out_p ∧
      ∀ line, run ≠ Raise (AssertionError line)) ∧
     (∀ i z, np.flat p !! i = Some z →
        np.flat w !! i = Some (MPPovm.clamp (re z)) ∧
        (re z < 0 → MPPovm.clamp (re z) = 0) ∧
        (0 <= re z → MPPovm.clamp (re z) = re z)))%Q.
Proof.
  split.
  - intros self probab n_samples out p w run. subst run. unfold MPPovm._sample_direct.
    fold p. rewrite !np_all_map. fold w.
    assert (∀ i z, np.flat p !! i = Some z →
        np.flat w !! i = Some (MPPovm.clamp (re z)) ∧
        (re z < 0 → MPPovm.clamp (re z) = 0) ∧
        (0 <= re z → MPPovm.clamp (re z) = re z))%Q as Hw.
    { intros i z Hz. split; [|split; [apply clamp_negative|apply clamp_nonnegative]].
      subst w. unfold np.map. cbn [np.flat]. by rewrite !list_lookup_fmap, Hz. }
    split; [|split; [|split; [|split; [|done]]]].
    + intros (z & Hz & Him). rewrite (forallb_false_intro _ _ z Hz); [done|].
      apply not_true_is_false. by rewrite abs_le_spec.
    + intros Him (z & Hz & Hre).
      assert (forallb (λ z, abs_le (im z) eps) (np.flat p) = true) as ->.
      { apply forallb_true_iff. intros z' Hz'. by apply abs_le_spec, Him. }
      cbn [assert mbind result_bind].
      rewrite (forallb_false_intro _ (np.flat (np.map re p)) (re z)); [done| |].
      * unfold np.map. cbn [np.flat]. by apply list_elem_of_fmap_2.
      * apply not_true_is_false. rewrite Qle_bool_iff. lra.
    + intros Hp Hsum.
      assert (forallb (λ z, abs_le (im z) eps) (np.flat p) = true) as ->.
      { apply forallb_true_iff. intros z' Hz'. by apply abs_le_spec, Hp. }
      assert (forallb (λ x, Qle_bool (- eps) x) (np.flat (np.map re p)) = true) as ->.
      { apply forallb_true_iff. intros x Hx. unfold np.map in Hx. cbn [np.flat] in Hx.
        apply list_elem_of_fmap in Hx as (z' & -> & Hz'). by apply Qle_bool_iff, Hp. }
      cbn [assert mbind result_bind].
      assert (abs_le (Qsum (np.flat w) - 1) eps = false) as ->; [|done].
      apply not_true_is_false. by rewrite abs_le_spec.
    + intros Hp Hsum.
      assert (forallb (λ z, abs_le (im z) eps) (np.flat p) = true) as ->.
      { apply forallb_true_iff. intros z' Hz'. by apply abs_le_spec, Hp. }
      assert (forallb (λ x, Qle_bool (- eps) x) (np.flat (np.map re p)) = true) as ->.
      { apply forallb_true_iff. intros x Hx. unfold np.map in Hx. cbn [np.flat] in Hx.
        apply list_elem_of_fmap in Hx as (z' & -> & Hz'). by apply Qle_bool_iff, Hp. }
      apply abs_le_spec in Hsum. rewrite Hsum. cbn [assert mbind result_bind].
      split; [done|]. intros line. apply _sample_direct_draw_not_assertion.
  - intros marginal_p n_sites n_group out out_p n_out pk q Hpk Hq Hout_p p w run.
    subst run. unfold MPPovm._sample_cond_step. rewrite Hpk. cbn [mbind result_bind].
    rewrite Hq. cbn [mbind result_bind]. fold p. rewrite !np_all_map.
    assert (Qeq_bool out_p 0 = false) as ->.
    { apply not_true_is_false. by rewrite Qeq_bool_iff. }
    cbn [negb andb]. fold w.
    assert (∀ i z, np.flat p !! i = Some z →
        np.flat w !! i = Some (MPPovm.clamp (re z)) ∧
        (re z < 0 → MPPovm.clamp (re z) = 0) ∧
        (0 <= re z → MPPovm.clamp (re z) = re z))%Q as Hw.
    { intros i z Hz. split; [|split; [apply clamp_negative|apply clamp_nonnegative]].
      subst w. unfold np.map at 1 2. cbn [np.flat]. by rewrite !list_lookup_fmap, Hz. }
    split; [|split; [|split; [|split; [|done]]]].
    + intros (z & Hz & Him). rewrite (forallb_false_intro _ _ z Hz); [done|].
      apply not_true_is_false. by rewrite abs_le_spec.
    + intros Him (z & Hz & Hre).
      assert (forallb (λ z, abs_le (im z) eps) (np.flat p) = true) as ->.
      { apply forallb_true_iff. intros z' Hz'. by apply abs_le_spec, Him. }
      cbn [assert mbind result_bind].
      rewrite (forallb_false_intro _ (np.flat (np.map re p)) (re z)); [done| |].
      * unfold np.map at 1. cbn [np.flat]. by apply list_elem_of_fmap_2.
      * apply not_true_is_false. rewrite Qle_bool_iff. lra.
    + intros Hp Hsum.
      assert (forallb (λ z, abs_le (im z) eps) (np.flat p) = true) as ->.
      { apply forallb_true_iff. intros z' Hz'. by apply abs_le_spec, Hp. }
      assert (forallb (λ x, Qle_bool (- eps) x) (np.flat (np.map re p)) = true) as ->.
      { apply forallb_true_iff. intros x Hx. unfold np.map at 1 in Hx. cbn [np.flat] in Hx.
        apply list_elem_of_fmap in Hx as (z' & -> & Hz'). by apply Qle_bool_iff, Hp. }
      cbn [assert mbind result_bind].
      assert (abs_le (Qsum (np.flat w) - 1) eps = false) as ->; [|done].
      apply not_true_is_false. by rewrite abs_le_spec.
    + intros Hp Hsum.
      assert (forallb (λ z, abs_le (im z) eps) (np.flat p) = true) as ->.
      { apply forallb_true_iff. intros z' Hz'. by apply abs_le_spec, Hp. }
      assert (forallb (λ x, Qle_bool (- eps) x) (np.flat (np.map re p)) = true) as ->.
      { apply forallb_true_iff. intros x Hx. unfold np.map at 1 in Hx. cbn [np.flat] in Hx.
        apply list_elem_of_fmap in Hx as (z' & -> & Hz'). by apply Qle_bool_iff, Hp. }
      apply abs_le_spec in Hsum. rewrite Hsum. cbn [assert mbind result_bind].
      split; [done|]. intros line. apply _sample_cond_draw_not_assertion.
Qed.

(** ** Shapes of the sampled batches *)

Section shapes.
Implicit Types (self rho : MPArray) (pd : list nat).

Lemma init_ok_legs self :
  MPPovm.init self = Ok self → Forall (λ pd, length pd = 3) (pdims self).
Proof.
  unfold MPPovm.init. destruct (forallb (Nat.eqb 3) (mp.plegs self)) eqn:E; [|done].
  intros _. unfold mp.plegs in E. rewrite forallb_true_iff in E.
  apply Forall_forall. intros pd Hpd. symmetry. apply Nat.eqb_eq, E.
  by apply list_elem_of_fmap_2.
Qed.

(** The chain that [expectations] yields has one leg per site, the
    outcome. *)
Lemma probability_pdims_aux (ps rs : list (list nat)) :
  Forall (λ pd, length pd = 3) ps → length rs = length ps →
  let pm := zip_with mp.resolve_shape (mp.permute [0; 2; 1] <$> ps)
              ((λ pdim, [Some (default 0 (pdim !! 0)); None]) <$> ps) in
  let rv := zip_with mp.resolve_shape rs ((λ _, [None]) <$> rs) in
  zip_with app
    (zip_with mp.kept_dims pm ((λ pd, mp.axes_of pd [(-1)%Z]) <$> pm))
    (zip_with mp.kept_dims rv ((λ pd, mp.axes_of pd [0%Z]) <$> rv))
  = (λ pd, [default 0 (pd !! 0)]) <$> ps.
Proof.
  intros Hps. revert rs. induction Hps as [|pd ps Hpd _ IH]; intros [|r rs] Hlen;
    simplify_eq/=; [done|].
  destruct pd as [|o [|h1 [|h2 [|]]]]; simplify_eq/=.
  f_equal. by apply IH.
Qed.

Lemma probability_pdims self rho :
  MPPovm.init self = Ok self → mp.len rho = mp.len self →
  pdims (mp.dot (MPPovm.probability_map self) (mp.ravel rho) mp.default_axes)
  = (λ d, [d]) <$> MPPovm.outdims self.
Proof.
  intros Hinit%init_ok_legs Hlen. unfold MPPovm.outdims. rewrite <- list_fmap_compose.
  by apply probability_pdims_aux.
Qed.

Lemma prune_singletons_outcomes (ds : list nat) :
  Forall (λ d, 1 ≤ d) ds →
  filter (λ pd, mp.prunable true pd = false) ((λ d, [d]) <$> ds)
  = (λ d, [d]) <$> filter (λ d, 1 < d) ds.
Proof.
  induction 1 as [|d ds Hd _ IH]; [done|]. csimpl.
  rewrite !filter_cons, IH.
  assert (mp.prunable true [d] = bool_decide (d = 1)) as ->.
  { change (mp.prunable true [d]) with ((1 =? d) && true).
    destruct (Nat.eqb_spec 1 d); case_bool_decide; simpl; congruence. }
  repeat case_decide; repeat case_bool_decide; try done; lia.
Qed.
End shapes.

Ltac pass_assert :=
  match goal with
  | |- context [assert ?b ?l] =>
      destruct b; cbn [assert mbind result_bind]; [|done]
  | H : context [assert ?b ?l] |- _ =>
      destruct b; cbn [assert mbind result_bind] in H; [|done]
  end.

Section batches.
Context {S : Type} (rng : Generator S).
Implicit Types (b out : batch) (row : list nat).

Lemma set_slice_length row start stop vals row' :
  set_slice row start stop vals = Ok row' → length row' = length row.
Proof.
  unfold set_slice.
  set (a := start `min` length row). set (z := stop `min` length row).
  assert (∀ vs : list nat, length vs = z - a →
    length (take a row ++ ((λ v, v mod 256) <$> vs) ++ drop (a + length vs) row)
    = length row) as Hlen.
  { intros vs Hvs. rewrite !length_app, length_take, length_fmap, length_drop. lia. }
  case_bool_decide as Hv; cbn [mbind result_bind].
  - intros [= <-]. by apply Hlen.
  - destruct vals as [|v [|? ?]]; cbn [mbind result_bind]; try done.
    intros [= <-]. apply Hlen. by rewrite length_replicate.
Qed.

Lemma _sample_cond_draw_length s p n_out n_group row out_p s' row' out_p' :
  MPPovm._sample_cond_draw rng s p n_out n_group row out_p = Ok (s', row', out_p') →
  length row' = length row.
Proof.
  unfold MPPovm._sample_cond_draw.
  destruct (choice rng _ _ _) as [[c s0]|]; [|done]. cbn [mbind result_bind].
  case_bool_decide; [|done]. cbn [mbind result_bind].
  destruct (set_slice _ _ _ _) as [r|] eqn:E; [|done]. cbn [mbind result_bind].
  intros [= _ <- _]. by eapply set_slice_length.
Qed.

Lemma _sample_cond_step_length marginal_p n_sites n_group eps s row out_p n_out
    s' row' out_p' :
  MPPovm._sample_cond_step rng marginal_p n_sites n_group eps (s, row, out_p) n_out
    = Ok (s', row', out_p') →
  length row' = length row.
Proof.
  unfold MPPovm._sample_cond_step.
  destruct (MPPovm.marginal _ _); [|done]. cbn [mbind result_bind].
  destruct (mp.getitem _ _); [|done]. cbn [mbind result_bind].
  repeat pass_assert. apply _sample_cond_draw_length.
Qed.

Lemma _sample_cond_single_length s marginal_p n_group row eps s' row' :
  MPPovm._sample_cond_single rng s marginal_p n_group row eps = Ok (s', row') →
  length row' = length row.
Proof.
  unfold MPPovm._sample_cond_single.
  destruct (last marginal_p) as [[joint|]|]; try done. cbn [mbind result_bind].
  case_bool_decide; [done|]. cbn [mbind result_bind].
  match goal with |- context [for_each ?xs ?body ?st] =>
    pose proof (for_each_inv (λ '(_, r, _), length r = length row) (λ _, True)
                  xs body st eq_refl) as Hloop
  end.
  destruct (for_each _ _ _) as [[[s1 row1] p1]|]; [|done]. cbn [mbind result_bind].
  destruct (mp.getitem _ _); [|done]. cbn [mbind result_bind].
  pass_assert. intros [= _ <-]. apply Hloop. intros [[s2 row2] p2] n_out _ Hrow2.
  destruct (MPPovm._sample_cond_step _ _ _ _ _ _ _) as [[[s3 row3] p3]|] eqn:E; [|done].
  apply _sample_cond_step_length in E. congruence.
Qed.

Lemma _sample_cond_shape s probab n_samples n_group out eps s' out' n c :
  MPPovm._sample_cond rng s probab n_samples n_group out eps = Ok (s', out') →
  has_shape out n c → has_shape out' n c.
Proof.
  unfold MPPovm._sample_cond. intros Hrun Hout.
  destruct (MPPovm.marginals probab) as [marginal_p|]; [|done].
  cbn [mbind result_bind] in Hrun.
  destruct (MPPovm.marginal _ _); [|done]. cbn [mbind result_bind] in Hrun.
  pass_assert.
  match type of Hrun with for_each ?xs ?body ?st = _ =>
    pose proof (for_each_inv (λ '(_, b), has_shape b n c) (λ _, True)
                  xs body st Hout) as Hloop
  end.
  rewrite Hrun in Hloop. apply Hloop. clear. intros [s out] i _ (Hc & Hn & Hr).
  destruct (rows out !! i) as [row|] eqn:Hi; [|done]. cbn [mbind result_bind].
  destruct (MPPovm._sample_cond_single _ _ _ _ _ _) as [[s1 row1]|] eqn:E; [|done].
  cbn [mbind result_bind]. apply _sample_cond_single_length in E.
  split; [done|]. split; cbn [rows].
  - by rewrite length_insert.
  - apply Forall_insert; [done|]. rewrite E.
    by eapply (Forall_lookup_1 _ _ _ _ Hr).
Qed.

Lemma set_column_shape b pos col b' n c :
  set_column b pos col = Ok b' → has_shape b n c → has_shape b' n c.
Proof.
  unfold set_column. intros Hset (Hc & Hn & Hr).
  repeat case_bool_decide; try done. injection Hset as <-.
  split; [done|]. cbn [rows]. split.
  - rewrite length_zip_with. lia.
  - apply Forall_forall. intros r (r0 & v & -> & Hr0 & _)%elem_of_zip_with.
    rewrite length_insert. by eapply (proj1 (Forall_forall _ _) Hr).
Qed.

Lemma _sample_direct_shape s self probab n_samples out eps s' out' n c :
  MPPovm._sample_direct rng s self probab n_samples out eps = Ok (s', out') →
  has_shape out n c → has_shape out' n c.
Proof.
  unfold MPPovm._sample_direct. intros Hrun Hout.
  repeat pass_assert. unfold MPPovm._sample_direct_draw in Hrun.
  destruct (choices rng _ _ _ _) as [[cs s0]|]; [|done].
  cbn [mbind result_bind] in Hrun.
  destruct (forallb _ cs); [|done]. cbn [mbind result_bind] in Hrun.
  match type of Hrun with context [for_each ?xs ?body ?st] =>
    pose proof (for_each_inv (λ b, has_shape b n c) (λ _, True) xs body st Hout) as Hloop
  end.
  destruct (for_each _ _ _) as [b|]; [|done]. cbn [mbind result_bind] in Hrun.
  injection Hrun as _ <-. apply Hloop. intros b0 pos _ Hb0.
  destruct (set_column _ _ _) eqn:E; [|done]. by eapply set_column_shape.
Qed.
End batches.

Section sample.
Context {S : Type} (rng : Generator S).
Local Open Scope string_scope.
Local Open Scope nat_scope.

Lemma ravel_len rho : mp.len (mp.ravel rho) = mp.len rho.
Proof.
  unfold mp.len, mp.ravel, mp.reshape. cbn [pdims].
  rewrite length_zip_with, length_fmap. lia.
Qed.

Lemma next_expectations_pdims ops self state mode probab :
  ops_wf ops → MPPovm.init self = Ok self →
  next (MPPovm.expectations ops self state mode) = Ok probab →
  pdims probab = (λ d, [d]) <$> MPPovm.outdims self.
Proof.
  intros Hops Hinit. unfold MPPovm.expectations.
  destruct (Hops state (mp.len self)) as (Hmpo & Hmps & Hpmps).
  pass_assert.
  repeat match goal with
  | |- context [if ?b then _ else _] => destruct b
  end; cbn [next mbind result_bind]; try done.
  all: match goal with
       | |- context [_ <$> ?l] =>
           destruct l as [|x xs] eqn:E; csimpl; [done|]; intros [= <-]
       end.
  all: try rewrite E in *.
  all: apply probability_pdims; [done|].
  all: match goal with H : Forall _ (_ :: _) |- _ => by apply Forall_cons in H as [? _] end.
Qed.

Lemma all_below_in_range out dims :
  has_shape out (length (rows out)) (length dims) →
  MPPovm.all_below out dims = Ok true →
  Forall (λ r, np.in_range r dims) (rows out).
Proof.
  intros (Hc & _ & Hr). unfold MPPovm.all_below. rewrite bool_decide_eq_true_2 by done.
  intros [= Hall]. rewrite forallb_true_iff in Hall.
  apply Forall_forall. intros r Hin.
  pose proof (proj1 (Forall_forall _ _) Hr r Hin) as Hlen. simpl in Hlen.
  specialize (Hall r Hin). clear -Hlen Hall.
  revert dims Hlen Hall. induction r as [|v r IH]; intros [|d dims] Hlen Hall;
    simplify_eq/=; [constructor|].
  apply andb_true_iff in Hall as [Hv%Nat.ltb_lt Hall]. constructor; [done|].
  by apply IH.
Qed.
End sample.

(** C3.  [sample] fails when an outcome dimension exceeds 255.  The batch it
    returns has one row per sample and one column per non-singleton outcome
    site; every entry lies below the outcome dimension of its column, and
    none is the sentinel 255. *)
Theorem sample_outcomes_in_range {S} (ops : mpsmpo) (rng : Generator S) (s : S)
    (self state : MPArray) (n_samples : nat) (method : string) (n_group : nat)
    (mode : string) (eps : Q) :
  MPPovm.init self = Ok self →
  Forall (λ d, 1 ≤ d) (MPPovm.outdims self) →
  ops_wf ops →
  let run := MPPovm.sample ops rng s self state n_samples method n_group mode eps in
  (Exists (λ d, 255 < d) (MPPovm.outdims self) → is_ok run = false) ∧
  (∀ s' out, run = Ok (s', out) →
     n_cols out = length (MPPovm.nsoutdims self) ∧
     length (rows out) = n_samples ∧
     Forall (λ r, np.in_range r (MPPovm.nsoutdims self) ∧ Forall (λ v, v ≠ 255) r)
            (rows out)).
Proof.
  intros Hinit Hdims Hops run. subst run. unfold MPPovm.sample. split.
  - intros Hbig. pass_assert.
    destruct (next _) as [probab|]; [|done]. cbn [mbind result_bind].
    do 2 pass_assert.
    assert (forallb (λ dim, dim <=? 255) (MPPovm.outdims self) = false) as ->; [|done].
    apply Exists_exists in Hbig as (d & Hd & Hlt).
    apply (forallb_false_intro _ _ d Hd). apply Nat.leb_gt. lia.
  - intros s' out Hrun. pass_assert.
    destruct (next _) as [probab|] eqn:Hnext; [|done]. cbn [mbind result_bind] in Hrun.
    do 2 pass_assert.
    destruct (forallb (λ dim, dim <=? 255) (MPPovm.outdims self)) eqn:H255;
      cbn [assert mbind result_bind] in Hrun; [|done].
    apply next_expectations_pdims in Hnext; [|done..].
    assert (mp.len (mp.prune probab true) = length (MPPovm.nsoutdims self)) as Hlen.
    { unfold mp.len, mp.prune. cbn [pdims]. rewrite Hnext.
      rewrite prune_singletons_outcomes by done. by rewrite length_fmap. }
    rewrite Hlen in Hrun.
    set (k := length (MPPovm.nsoutdims self)) in *.
    assert (has_shape (Batch k (replicate n_samples (replicate k 255))) n_samples k) as H0.
    { split; [done|]. split; cbn [rows]; [by rewrite length_replicate|].
      apply Forall_replicate. by rewrite length_replicate. }
    match type of Hrun with context [if ?c then ?a else ?b] =>
      destruct (if c then a else b) as [[s1 out1]|] eqn:Hdraw
    end; [|done]. cbn [mbind result_bind] in Hrun.
    assert (has_shape out1 n_samples k) as H1.
    { destruct (String.eqb method "cond"); [by eapply _sample_cond_shape|].
      destruct (String.eqb method "direct"); [by eapply _sample_direct_shape|]. done. }
    destruct (MPPovm.all_below out1 _) as [[]|] eqn:Hok; try done.
    cbn [assert mbind result_bind] in Hrun. injection Hrun as -> ->.
    destruct H1 as (Hc & Hn & Hr). split; [done|]. split; [done|].
    assert (Forall (λ r, np.in_range r (MPPovm.nsoutdims self)) (rows out)) as Hin.
    { apply all_below_in_range; [|done]. by rewrite Hn. }
    eapply Forall_impl; [exact Hin|]. intros r Hrange. split; [done|].
    apply Forall_forall. intros v Hv.
    apply list_elem_of_lookup in Hv as [j Hj].
    destruct (Forall2_lookup_l _ _ _ _ _ Hrange Hj) as (d & Hd & Hvd).
    assert (d ≤ 255); [|lia].
    apply list_elem_of_lookup_2, list_elem_of_filter in Hd as [_ Hd].
    rewrite forallb_true_iff in H255. by apply Nat.leb_le, H255.
Qed.

(** ** Conditional sampling *)

Section one_leg_chains.
Implicit Types (m : MPArray) (ds idx prefix : list nat).

Lemma length_sing l : length (sing l) = length l.
Proof. apply length_fmap. Qed.

Lemma sing_app l k : sing (l ++ k) = sing l ++ sing k.
Proof. apply fmap_app. Qed.

Lemma concat_sing l : concat (sing l) = l.
Proof. induction l; csimpl; [done|]. by f_equal. Qed.

Lemma split_sites_sing idx :
  mp.split_sites (replicate (length idx) 1) idx = sing idx.
Proof. induction idx as [|i idx IH]; csimpl; [done|]. rewrite drop_0. by f_equal. Qed.

Lemma legs_sing l : length <$> sing l = replicate (length l) 1.
Proof. induction l; csimpl; [done|]. by f_equal. Qed.

Lemma plegs_sing m ds : pdims m = sing ds → mp.plegs m = replicate (length ds) 1.
Proof.
  unfold mp.plegs. intros ->. unfold sing. rewrite <- list_fmap_compose.
  induction ds; csimpl; [done|]. by f_equal.
Qed.

Lemma in_range_take idx ds k :
  np.in_range idx ds → np.in_range (take k idx) (take k ds).
Proof. apply Forall2_take. Qed.

Lemma in_range_app idx1 ds1 idx2 ds2 :
  np.in_range idx1 ds1 → np.in_range idx2 ds2 → np.in_range (idx1 ++ idx2) (ds1 ++ ds2).
Proof. apply Forall2_app. Qed.

(** The check of the items of [m[prefix, :, ..., :]]. *)
Lemma items_ok prefix ds k :
  np.in_range prefix (take (length prefix) ds) →
  forallb (λ '(it, pd), mp.item_ok it pd)
    (zip ((Int <$> prefix) ++ replicate k SliceAll) (sing ds)) = true.
Proof.
  revert ds. induction prefix as [|i prefix IH]; intros ds Hin; csimpl.
  - apply forallb_true_iff. intros [it pd] Hx.
    apply list_elem_of_lookup in Hx as [j Hj]. apply lookup_zip_Some in Hj as [Hj _].
    apply lookup_replicate in Hj as [-> _]. done.
  - destruct ds as [|d ds]; csimpl; [done|]. csimpl in Hin.
    apply Forall2_cons in Hin as [Hid Hin]. rewrite IH by done.
    by apply Nat.ltb_lt in Hid as ->.
Qed.

Lemma unprune_prefix a rest (idx : list (list nat)) :
  length idx = length rest →
  mp.unprune false (replicate a [] ++ sing rest) idx = replicate a [] ++ idx.
Proof.
  intros Hlen. induction a as [|a IH]; csimpl.
  - revert idx Hlen. induction rest as [|d rest IH]; intros [|i idx] Hlen;
      simplify_eq/=; [done|]. f_equal. by apply IH.
  - by f_equal.
Qed.

Lemma zip_items prefix k (x : list nat) :
  length x = k →
  zip_with (λ it i, match it with Int n => n :: i | SliceAll => i end)
    ((Int <$> prefix) ++ replicate k SliceAll)
    (replicate (length prefix) [] ++ sing x)
  = sing (prefix ++ x).
Proof.
  intros <-. rewrite sing_app. induction prefix as [|i prefix IH]; csimpl.
  - induction x as [|i x IH]; csimpl; [done|]. by f_equal.
  - by f_equal.
Qed.

Lemma filter_unprunable a rest :
  filter (λ pd, mp.prunable false pd = false) (replicate a [] ++ sing rest) = sing rest.
Proof.
  induction a as [|a IH]; csimpl.
  - induction rest as [|d rest IH]; csimpl; [done|].
    rewrite filter_cons_True by done. by f_equal.
  - by rewrite filter_cons_False by done.
Qed.

(** [mp.prune(m[prefix, :, ..., :]).to_array()] *)
Lemma conditional_array m ds prefix :
  pdims m = sing ds →
  np.in_range prefix (take (length prefix) ds) →
  ∃ q, mp.getitem m ((Int <$> prefix) ++ replicate (mp.len m - length prefix) SliceAll)
       = Ok q ∧
    mp.to_array (mp.prune q false)
    = np.NDArray (drop (length prefix) ds)
        ((λ c, entry m (sing (prefix ++ np.unravel_index c (drop (length prefix) ds))))
         <$> seq 0 (np.size (drop (length prefix) ds))).
Proof.
  intros Hm Hin. pose proof (in_range_length _ _ Hin) as Hlen.
  rewrite length_take in Hlen. set (a := length prefix) in *.
  unfold mp.getitem. rewrite Hm, items_ok by done.
  eexists. split; [done|].
  assert (zip_with (λ it pd, match it with Int _ => tail pd | SliceAll => pd end)
            ((Int <$> prefix) ++ replicate (mp.len m - a) SliceAll) (sing ds)
          = replicate a [] ++ sing (drop a ds)) as Hpd.
  { unfold mp.len. rewrite Hm, length_sing. subst a. clear Hm Hin.
    revert ds Hlen. induction prefix as [|i prefix IH]; intros ds Hlen; csimpl.
    - rewrite Nat.sub_0_r, drop_0. clear. induction ds as [|d ds IH]; csimpl; [done|]. by rewrite IH.
    - destruct ds as [|d ds]; simplify_eq/=; try lia. f_equal. apply IH. lia. }
  unfold mp.to_array, mp.prune, mp.plegs. cbn [pdims entry]. rewrite Hpd.
  rewrite filter_unprunable, concat_sing. unfold np.fromfunction. f_equal.
  apply list_fmap_ext. intros c ? [-> Hc]%lookup_seq. simpl.
  pose proof (unravel_index_length c (drop a ds)) as Hul.
  rewrite legs_sing, <- Hul, split_sites_sing.
  rewrite unprune_prefix by by rewrite !length_sing.
  rewrite zip_items; [done|]. rewrite Hul, length_drop. unfold mp.len.
  by rewrite Hm, length_sing.
Qed.

(** [m[tuple(out)]], the element of a chain at a full outcome. *)
Lemma full_index m ds out :
  pdims m = sing ds → np.in_range out ds →
  ∃ q, mp.getitem m (Int <$> out) = Ok q ∧ mp.scalar q = entry m (sing out).
Proof.
  intros Hm Hin. pose proof (in_range_length _ _ Hin) as Hlen.
  unfold mp.getitem. rewrite Hm.
  pose proof (items_ok out ds 0) as Hok. rewrite app_nil_r in Hok.
  rewrite Hok by (rewrite take_ge by lia; done).
  eexists. split; [done|]. unfold mp.scalar, mp.len. cbn [pdims entry]. f_equal.
  rewrite length_zip_with, length_fmap, length_sing.
  replace (length out `min` length ds) with (length out) by lia.
  pose proof (zip_items out 0 [] eq_refl) as Hz. csimpl in Hz.
  by rewrite !app_nil_r in Hz.
Qed.
End one_leg_chains.

Section positional_loops.
Context {A St : Type}.

Lemma for_each_inv_pos (I : nat → St → Prop) (E : exn → Prop)
    (xs : list A) (body : St → A → result St) (st : St) :
  I 0 st →
  (∀ i x st, xs !! i = Some x → I i st →
     match body st x with Ok st' => I (S i) st' | Raise e => E e end) →
  match for_each xs body st with Ok st' => I (length xs) st' | Raise e => E e end.
Proof.
  revert I st. induction xs as [|x xs IH]; intros I st Hst Hbody; simpl; [done|].
  rewrite for_each_cons. pose proof (Hbody 0 x st eq_refl Hst) as Hx.
  destruct (body st x) as [st'|e]; simpl; [|done].
  apply (IH (λ i, I (S i))); [done|]. intros i y st'' Hy. by apply Hbody.
Qed.
End positional_loops.

Section py_range.
Lemma py_range_lookup stop step i x :
  0 < step → py_range 0 stop step !! i = Some x → x = i * step ∧ x < stop.
Proof.
  intros Hstep. unfold py_range. rewrite list_lookup_fmap.
  destruct (seq _ _ !! i) as [j|] eqn:Hj; [|done]. intros [= <-].
  apply lookup_seq in Hj as [-> Hi]. split; [lia|]. simpl.
  pose proof (Nat.Div0.mul_div_le (stop - 0 + step - 1) step). nia.
Qed.

Lemma py_range_end stop step :
  0 < step → stop `min` (length (py_range 0 stop step) * step) = stop.
Proof.
  intros Hstep. unfold py_range. rewrite length_fmap, length_seq.
  pose proof (Nat.div_mod_eq (stop - 0 + step - 1) step) as Hd.
  pose proof (Nat.mod_upper_bound (stop - 0 + step - 1) step). nia.
Qed.
End py_range.

Section cond_single.
Context {St : Type} (rng : Generator St) (Hrng : rng_lawful rng).
Context (ds : list nat) (probab : MPArray) (marginal_p : list (option MPArray)).
Context (Hprobab : pdims probab = sing ds).
Context (Hds : Forall (λ d, d ≤ 255) ds).
Context (Hfam : marginal_family ds probab marginal_p).
Context (n_group : nat) (Hgroup : 0 < n_group) (eps : Q).

Local Abbreviation N := (length ds).

Lemma clamp_positive (x : Q) : (0 < MPPovm.clamp x → 0 < x ∧ MPPovm.clamp x = x)%Q.
Proof.
  unfold MPPovm.clamp. destruct (Qle_bool 0 x) eqn:E; [done|]. intros H. lra.
Qed.

Lemma mod_256_in_range idx shape :
  Forall (λ d, d ≤ 255) shape → np.in_range idx shape →
  (λ v, v mod 256) <$> idx = idx.
Proof.
  intros Hs Hin. induction Hin as [|i d idx shape Hi _ IH]; [done|].
  rewrite fmap_cons. apply Forall_cons in Hs as [Hd Hs]. f_equal; [apply Nat.mod_small; lia|by apply IH].
Qed.

Lemma _sample_cond_step_drawn s out out_p n_out :
  n_out < N → drawn ds marginal_p n_out (s, out, out_p) →
  match MPPovm._sample_cond_step rng marginal_p N n_group eps (s, out, out_p) n_out with
  | Ok st' => drawn ds marginal_p (N `min` (n_out + n_group)) st'
  | Raise e => e ≠ AssertionError 264
  end.
Proof using Hrng Hds Hfam Hgroup.
  intros Hn (Hlen & Hin & Hpos & _ & _).
  set (k := N `min` (n_out + n_group)).
  destruct Hfam as (_ & _ & Hk). destruct (Hk k ltac:(lia)) as (m & Hm & Hpd).
  unfold MPPovm._sample_cond_step, MPPovm.marginal. fold k. rewrite Hm.
  cbn [mbind result_bind].
  assert (length (take n_out out) = n_out) as Hpl by (rewrite length_take; lia).
  assert (take n_out (take k ds) = take n_out ds) as Htt
    by (rewrite take_take; f_equal; lia).
  destruct (conditional_array m (take k ds) (take n_out out) Hpd) as (q & Hq & Harr).
  { by rewrite Hpl, Htt. }
  rewrite Hpl in Hq, Harr. rewrite Hq. cbn [mbind result_bind]. rewrite Harr.
  set (shape := drop n_out (take k ds)) in *.
  repeat pass_assert.
  unfold MPPovm._sample_cond_draw. cbn [np.map np.shape np.flat].
  match goal with |- context [choice rng s ?a ?p] =>
    destruct (choice rng s a p) as [[c s']|] eqn:Hc
  end; [|done]. cbn [mbind result_bind].
  apply Hrng in Hc as (w & Hw & Hwpos).
  unfold np.map in Hw. cbn [np.flat np.shape] in Hw |- *.
  rewrite !list_lookup_fmap in Hw.
  destruct (seq 0 (np.size shape) !! c) as [c'|] eqn:Hc'; [|done].
  apply lookup_seq in Hc' as [-> Hc']. simpl in Hc'. simpl in Hw.
  injection Hw as Hw.
  rewrite bool_decide_eq_true_2 by done. cbn [mbind result_bind].
  pose proof (unravel_index_in_range c shape Hc') as Hidx.
  pose proof (in_range_length _ _ Hidx) as Hil.
  assert (length shape = k - n_out) as Hsl
    by (subst shape; rewrite length_drop, length_take; lia).
  unfold set_slice. rewrite Hlen.
  replace (n_out `min` N) with n_out by lia.
  replace ((n_out + n_group) `min` N) with k by lia.
  rewrite bool_decide_eq_true_2 by lia. cbn [mbind result_bind].
  rewrite mod_256_in_range with (shape := shape); [|by apply Forall_drop, Forall_take|done].
  rewrite Hil, Hsl. replace (n_out + (k - n_out)) with k by lia.
  set (e := entry m (sing (take n_out out ++ np.unravel_index c shape))) in *.
  rewrite !list_lookup_fmap. rewrite lookup_seq_lt by done. simpl. fold e.
  subst w. apply clamp_positive in Hwpos as [Hwpos Hcl]. rewrite Hcl.
  cbn [re cx.div_real] in Hwpos |- *.
  assert (take k (take n_out out ++ np.unravel_index c shape ++ drop k out)
          = take n_out out ++ np.unravel_index c shape) as Htk.
  { rewrite app_assoc, take_app_length'; [done|]. rewrite length_app. lia. }
  split; [|split; [|split; [|split]]].
  - rewrite !length_app, length_drop. lia.
  - rewrite Htk. replace (take k ds) with (take n_out ds ++ shape).
    + by apply Forall2_app.
    + subst shape. rewrite <- Htt. apply take_drop.
  - assert (0 < re e)%Q.
    { assert (re e == re e / out_p * out_p)%Q as -> by (field; lra).
      by apply Qmult_lt_0_compat. }
    by apply Qmult_lt_0_compat.
  - lia.
  - intros _. exists m. split; [done|]. rewrite Htk. fold e. simpl.
    field. lra.
Qed.

Context (Himag : ∀ idx, np.in_range idx ds →
                   (Qabs (im (entry probab (sing idx))) <= eps)%Q).
Context (Hnorm : N = 0 → cx.abs_le (cx.sub (entry probab []) cx.one) eps = true).

Lemma consistency_check (z : complex) (out_p : Q) :
  (out_p == re z)%Q → (Qabs (im z) <= eps)%Q →
  cx.abs_le (cx.sub z (cx.of_real out_p)) eps = true.
Proof.
  intros Hre Him. apply Qabs_Qle_condition in Him as [Hlo Hhi].
  unfold cx.abs_le, cx.abs2. cbn [re im cx.sub cx.of_real].
  apply andb_true_iff. split; apply Qle_bool_iff; [lra|].
  assert (re z - out_p == 0)%Q as -> by lra. nra.
Qed.

(** The loop of [_sample_cond_single], and the value it leaves in
    [out_p]. *)
Lemma _sample_cond_loop s out :
  length out = N →
  match for_each (py_range 0 N n_group)
          (MPPovm._sample_cond_step rng marginal_p N n_group eps) (s, out, 1%Q) with
  | Ok (_, out', out_p') =>
      length out' = N ∧ np.in_range out' ds ∧
      cx.abs_le (cx.sub (entry probab (sing out')) (cx.of_real out_p')) eps = true
  | Raise e => e ≠ AssertionError 264
  end.
Proof using All.
  intros Hlen.
  pose proof (for_each_inv_pos (λ i, drawn ds marginal_p (N `min` (i * n_group)))
    (λ e, e ≠ AssertionError 264) (py_range 0 N n_group)
    (MPPovm._sample_cond_step rng marginal_p N n_group eps) (s, out, 1%Q)) as Hloop.
  cbv beta in Hloop. rewrite py_range_end in Hloop by done.
  destruct (for_each _ _ _) as [[[s' out'] out_p']|e]; [|apply Hloop].
  - destruct Hloop as (Hlen' & Hin & Hpos & H0 & Hk).
    + rewrite Nat.min_0_r. repeat split; try done; [|lia]. rewrite take_0. constructor.
    + intros i n_out [[sa outa] pa] [-> Hlt]%py_range_lookup Hdrawn; [|done].
      replace (N `min` (i * n_group)) with (i * n_group) in Hdrawn by lia.
      replace (N `min` (S i * n_group)) with (N `min` (i * n_group + n_group)) by lia.
      by apply _sample_cond_step_drawn.
    + rewrite !take_ge in * by lia. split; [done|]. split; [done|].
      destruct (decide (N = 0)) as [HN | HN].
      * rewrite H0 by done. destruct out'; [|simpl in *; lia]. by apply Hnorm.
      * destruct Hk as (m & Hm & Hre); [lia|].
        destruct Hfam as (_ & Hlast & _). rewrite Hlast in Hm. injection Hm as <-.
        apply consistency_check; [done|]. by apply Himag.
  - rewrite Nat.min_0_r. repeat split; try done; [|lia]. rewrite take_0. constructor.
  - intros i n_out [[sa outa] pa] [-> Hlt]%py_range_lookup Hdrawn; [|done].
    replace (N `min` (i * n_group)) with (i * n_group) in Hdrawn by lia.
    replace (N `min` (S i * n_group)) with (N `min` (i * n_group + n_group)) by lia.
    by apply _sample_cond_step_drawn.
Qed.

Lemma _sample_cond_single_consistent s out :
  length out = N →
  MPPovm._sample_cond_single rng s marginal_p n_group out eps
    ≠ Raise (AssertionError 264).
Proof using All.
  intros Hlen. unfold MPPovm._sample_cond_single.
  destruct Hfam as (-> & _ & _). cbn [mbind result_bind].
  unfold mp.len. rewrite Hprobab, length_sing.
  rewrite bool_decide_eq_false_2 by lia. cbn [mbind result_bind].
  pose proof (_sample_cond_loop s out Hlen) as Hloop.
  destruct (for_each _ _ _) as [[[s' out'] out_p']|e]; cbn [mbind result_bind];
    [|congruence].
  destruct Hloop as (Hlen' & Hin & Hcheck).
  destruct (full_index probab ds out' Hprobab Hin) as (q & -> & Hq).
  cbn [mbind result_bind]. by rewrite Hq, Hcheck.
Qed.
End cond_single.

(** ** The marginal family *)

Section sums.
Implicit Types (ds idx : list nat) (f : list (list nat) → complex).

Lemma sum_n_ext n (g h : nat → complex) :
  (∀ j, j < n → g j = h j) → cx.sum_n n g = cx.sum_n n h.
Proof.
  intros Hgh. unfold cx.sum_n. f_equal. apply list_fmap_ext.
  intros i j [-> ?]%lookup_seq. by apply Hgh.
Qed.

Lemma sum_over_ext ds (g h : list nat → complex) :
  (∀ idx, g idx = h idx) → cx.sum_over ds g = cx.sum_over ds h.
Proof.
  revert g h. induction ds as [|d ds IH]; intros g h Hgh; simpl; [done|].
  apply sum_n_ext. intros j _. apply IH. intros idx. apply Hgh.
Qed.

Lemma sum_sites_last k d f :
  cx.sum_sites (replicate k [] ++ [[d]]) f
  = cx.sum_n d (λ j, f (replicate k [] ++ [[j]])).
Proof.
  revert f. induction k as [|k IH]; intros f; [done|].
  simpl. by rewrite IH.
Qed.

Lemma sum_sites_sing ds f :
  cx.sum_sites (sing ds) f = cx.sum_over ds (λ idx, f (sing idx)).
Proof.
  revert f. induction ds as [|d ds IH]; intros f; [done|].
  simpl. apply sum_n_ext. intros j _. by rewrite IH.
Qed.

Lemma kept_dims_last k xs d :
  length xs = k →
  zip_with mp.kept_dims (sing xs ++ [[d]]) (replicate k [] ++ [[0]])
  = sing xs ++ [[]].
Proof. intros <-. induction xs as [|x xs IH]; [done|]. csimpl. by rewrite IH. Qed.

Lemma summed_dims_last k xs d :
  length xs = k →
  zip_with mp.summed_dims (sing xs ++ [[d]]) (replicate k [] ++ [[0]])
  = replicate k [] ++ [[d]].
Proof. intros <-. induction xs as [|x xs IH]; [done|]. csimpl. by rewrite IH. Qed.

Lemma fill_last k xs d idx j :
  length xs = k → length idx = k →
  zip_with (λ '(pd, ax) '(k, s), mp.fill_axes (length pd) 0 ax k s)
    (zip (sing xs ++ [[d]]) (replicate k [] ++ [[0]]))
    (zip (sing idx ++ [[]]) (replicate k [] ++ [[j]]))
  = sing (idx ++ [j]).
Proof.
  intros <-. revert idx.
  induction xs as [|x xs IH]; intros [|i idx] Hlen; simplify_eq/=; [done|].
  f_equal. by apply IH.
Qed.

Lemma unprune_last xs (idx : list (list nat)) :
  length idx = length xs →
  mp.unprune false (sing xs ++ [[]]) idx = idx ++ [[]].
Proof.
  revert idx. induction xs as [|x xs IH]; intros [|i idx] Hlen; simplify_eq/=; [done|].
  f_equal. by apply IH.
Qed.

Lemma filter_unprunable_last xs :
  filter (λ pd, mp.prunable false pd = false) (sing xs ++ [[]]) = sing xs.
Proof.
  induction xs as [|x xs IH]; csimpl.
  - by rewrite filter_cons_False by done.
  - rewrite filter_cons_True by done. by f_equal.
Qed.
End sums.

Section marginals.
Context (ds : list nat) (probab : MPArray) (Hprobab : pdims probab = sing ds).
Local Abbreviation N := (length ds).

Lemma marginal_at_joint : marginal_at ds probab N probab.
Proof using Hprobab.
  split.
  - intros _. rewrite take_ge, drop_ge by done. split; [done|].
    intros idx _. simpl. by rewrite app_nil_r.
  - intros HN. destruct ds; [|done]. unfold mp.scalar, mp.len. by rewrite Hprobab.
Qed.

Lemma marginal_at_sum k prev :
  k < N → marginal_at ds probab (S k) prev →
  marginal_at ds probab k
    (let p := mp.sum prev (replicate k [] ++ [[0]]) in
     if bool_decide (0 < k) then mp.prune p false else p).
Proof.
  intros Hk [Hprev _]. destruct Hprev as [Hpd Hval]; [lia|].
  destruct (lookup_lt_is_Some_2 ds k Hk) as [d Hd].
  assert (take (S k) ds = take k ds ++ [d]) as Htake by by apply take_S_r.
  assert (drop k ds = d :: drop (S k) ds) as Hdrop by by apply drop_S.
  assert (length (take k ds) = k) as Hlk by (rewrite length_take; lia).
  rewrite Htake, sing_app in Hpd. change (sing [d]) with [[d]] in Hpd.
  assert (∀ idx, length idx = k →
    entry (mp.sum prev (replicate k [] ++ [[0]])) (sing idx ++ [[]])
    = cx.sum_over (drop k ds) (λ tl, entry probab (sing (idx ++ tl)))) as Hsum.
  { intros idx Hidx. unfold mp.sum. cbn [entry]. rewrite Hpd.
    rewrite summed_dims_last, sum_sites_last, Hdrop by done. simpl.
    apply sum_n_ext. intros j _. rewrite fill_last by done.
    rewrite Hval by (rewrite length_app; simpl; lia).
    apply sum_over_ext. intros tl. by rewrite <- app_assoc. }
  assert (pdims (mp.sum prev (replicate k [] ++ [[0]])) = sing (take k ds) ++ [[]])
    as Hpsum.
  { unfold mp.sum. cbn [pdims]. rewrite Hpd. by apply kept_dims_last. }
  cbv zeta. case_bool_decide as Hk0; split; try lia.
  - intros _. unfold mp.prune. cbn [pdims entry]. rewrite Hpsum.
    split; [apply filter_unprunable_last|].
    intros idx Hidx. rewrite unprune_last by (rewrite !length_sing; lia).
    by apply Hsum.
  - intros ->. unfold mp.scalar, mp.len. rewrite Hpsum.
    destruct (take 0 ds) eqn:E; [|done]. simpl.
    apply (Hsum [] eq_refl).
Qed.

Lemma marginals_spec :
  ∃ marginal_p,
    MPPovm.marginals probab = Ok marginal_p ∧
    length marginal_p = N + 1 ∧
    ∀ k, k ≤ N → ∃ m, marginal_p !! k = Some (Some m) ∧
                      marginal_at ds probab k m ∧ (k = N → m = probab).
Proof using Hprobab.
  unfold MPPovm.marginals. unfold mp.len. rewrite Hprobab, length_sing.
  set (mp0 := <[N := Some probab]> (replicate (N + 1) None)).
  match goal with |- context [for_each ?xs ?body mp0] =>
    pose proof (for_each_inv_pos
      (λ i (mp : list (option MPArray)),
         length mp = N + 1 ∧
         ∀ k, N - i ≤ k ≤ N → ∃ m, mp !! k = Some (Some m) ∧
                                   marginal_at ds probab k m ∧ (k = N → m = probab))
      (λ _, False) xs body mp0) as Hloop
  end.
  cbv beta in Hloop. rewrite length_reverse, length_seq, Nat.sub_diag in Hloop.
  opose proof* Hloop as Hdone; clear Hloop.
  { split; [by subst mp0; rewrite length_insert, length_replicate|].
    intros k Hk. assert (k = N) as -> by lia. exists probab.
    split; [|split; [apply marginal_at_joint|done]].
    subst mp0. apply list_lookup_insert_eq. rewrite length_replicate. lia. }
  { intros i x mp1 Hx (Hlen1 & Hgood).
    assert (i < N ∧ x = N - 1 - i) as [Hi ->].
    { pose proof (lookup_lt_Some _ _ _ Hx) as Hlt.
      rewrite length_reverse, length_seq in Hlt.
      rewrite reverse_lookup in Hx by by rewrite length_seq.
      rewrite length_seq in Hx. apply lookup_seq in Hx. lia. }
    destruct (Hgood (N - 1 - i + 1) ltac:(lia)) as (prev & Hprev & Hat & _).
    unfold MPPovm.marginal. rewrite Hprev. cbn [mbind result_bind].
    split; [by rewrite length_insert|]. intros k Hk.
    destruct (decide (k = N - 1 - i)) as [-> | Hne].
    - eexists. split; [apply list_lookup_insert_eq; lia|].
      split; [|lia]. apply marginal_at_sum; [lia|].
      by replace (S (N - 1 - i)) with (N - 1 - i + 1) by lia.
    - rewrite list_lookup_insert_ne by done. apply Hgood. lia. }
  destruct (for_each _ _ _) as [mp|e]; [|done].
  exists mp. split; [done|]. destruct Hdone as [Hlen Hk].
  split; [done|]. intros k Hk'. apply Hk. lia.
Qed.
End marginals.

(** ** The generator, and the consistency of conditional sampling *)

Section lcg_lawful.
Local Open Scope Q_scope.

Lemma inverse_cdf_positive u p acc i0 i :
  acc <= u → lcg.inverse_cdf u p acc i0 = Some i →
  ∃ w, p !! (i - i0)%nat = Some w ∧ 0 < w ∧ (i0 ≤ i)%nat.
Proof.
  revert acc i0. induction p as [|x p IH]; intros acc i0 Hacc; simpl; [done|].
  destruct (Qle_bool (acc + x) u) eqn:E.
  - apply Qle_bool_iff in E. intros Hi.
    destruct (IH _ _ E Hi) as (w & Hw & Hpos & Hle). exists w.
    replace (i - i0)%nat with (S (i - S i0)) by lia. split; [done|]. split; [done|lia].
  - intros [= <-]. exists x. rewrite Nat.sub_diag. split; [done|]. split; [|done].
    assert (¬ acc + x <= u) as Hn by (rewrite <- Qle_bool_iff; congruence). lra.
Qed.

Lemma uniform_nonneg seed : 0 <= lcg.uniform seed.
Proof.
  unfold lcg.uniform, Qle. cbn [Qnum Qden].
  pose proof (N2Z.is_nonneg ((seed / 65536) mod 1000)%N). lia.
Qed.

Lemma lcg_lawful : rng_lawful lcg.rng.
Proof.
  intros seed a p i seed'. cbn [choice lcg.rng]. unfold lcg.choice.
  destruct (_ && _ && _) eqn:E; [|done].
  apply andb_true_iff in E as [_ Hsum%abs_le_spec].
  assert (0 < Qsum p) as Hpos.
  { apply Qabs_Qle_condition in Hsum as [Hsum _].
    assert (- (1 # 100000000) < -1 + 1) by done. lra. }
  destruct (lcg.inverse_cdf _ _ _ _) as [j|] eqn:Hj; [|done]. intros [= <- _].
  apply inverse_cdf_positive in Hj as (w & Hw & Hwpos & _).
  - exists w. by rewrite Nat.sub_0_r in Hw.
  - pose proof (uniform_nonneg seed). nra.
Qed.
End lcg_lawful.

Section cond.
Context {St : Type} (rng : Generator St).

Lemma marginal_family_of ds probab marginal_p :
  length marginal_p = length ds + 1 →
  (∀ k, k ≤ length ds → ∃ m, marginal_p !! k = Some (Some m) ∧
                             marginal_at ds probab k m ∧ (k = length ds → m = probab)) →
  marginal_family ds probab marginal_p.
Proof.
  intros Hlen Hk. destruct (Hk (length ds) (le_n _)) as (m & Hm & _ & HmN).
  specialize (HmN eq_refl). subst m.
  split; [|split; [done|]].
  - rewrite last_lookup, Hlen. by replace (Nat.pred (length ds + 1)) with (length ds) by lia.
  - intros k [H1 H2]. destruct (Hk k H2) as (m & Hm' & [Hat _] & _).
    exists m. split; [done|]. by apply Hat.
Qed.
End cond.


(** ** The probability map *)

Section complex_sums.
Implicit Types (z w : complex) (f g : nat → complex).

#[global] Instance cx_eq_equiv : Equivalence cx.eq.
Proof.
  split.
  - intros z. split; reflexivity.
  - intros z w [? ?]. split; by symmetry.
  - intros z w v [? ?] [? ?]. split; etrans; done.
Qed.

#[global] Instance cx_add_proper : Proper (cx.eq ==> cx.eq ==> cx.eq) cx.add.
Proof. intros z z' [Hr Hi] w w' [Hr' Hi']. split; simpl; by rewrite ?Hr, ?Hi, ?Hr', ?Hi'. Qed.

Lemma cx_add_comm z w : cx.add z w ≃ cx.add w z.
Proof. split; simpl; ring. Qed.

Lemma cx_add_assoc z w v : cx.add z (cx.add w v) ≃ cx.add (cx.add z w) v.
Proof. split; simpl; ring. Qed.

Lemma cx_add_zero_l z : cx.add cx.zero z ≃ z.
Proof. split; simpl; ring. Qed.

Lemma cx_add_zero_r z : cx.add z cx.zero ≃ z.
Proof. split; simpl; ring. Qed.

Lemma sum_n_eq n f : cx.sum_n n f = sum_list_cx (seq 0 n) f.
Proof. done. Qed.

Lemma sum_list_cx_app l k f :
  sum_list_cx (l ++ k) f ≃ cx.add (sum_list_cx l f) (sum_list_cx k f).
Proof.
  unfold sum_list_cx. induction l as [|x l IH]; csimpl.
  - by rewrite cx_add_zero_l.
  - by rewrite IH, cx_add_assoc.
Qed.

Lemma sum_list_cx_proper l f g :
  (∀ j, j ∈ l → f j ≃ g j) → sum_list_cx l f ≃ sum_list_cx l g.
Proof.
  unfold sum_list_cx. induction l as [|x l IH]; intros Hfg; csimpl; [done|].
  rewrite IH, (Hfg x); [done|apply list_elem_of_here|].
  intros j Hj. apply Hfg. by apply list_elem_of_further.
Qed.

Lemma sum_n_proper n f g : (∀ j, j < n → f j ≃ g j) → cx.sum_n n f ≃ cx.sum_n n g.
Proof.
  intros Hfg. apply sum_list_cx_proper. intros j Hj%list_elem_of_In%in_seq.
  apply Hfg. lia.
Qed.

Lemma sum_list_cx_add l f g :
  sum_list_cx l (λ j, cx.add (f j) (g j)) ≃ cx.add (sum_list_cx l f) (sum_list_cx l g).
Proof.
  unfold sum_list_cx. induction l as [|x l IH]; csimpl.
  - by rewrite cx_add_zero_l.
  - rewrite IH. split; simpl; ring.
Qed.

Lemma sum_list_cx_zero l : sum_list_cx l (λ _, cx.zero) ≃ cx.zero.
Proof.
  unfold sum_list_cx. induction l as [|x l IH]; csimpl; [done|].
  by rewrite IH, cx_add_zero_l.
Qed.

(** Two nested sums may be exchanged. *)
Lemma sum_list_cx_swap l k (f : nat → nat → complex) :
  sum_list_cx l (λ a, sum_list_cx k (λ b, f a b))
  ≃ sum_list_cx k (λ b, sum_list_cx l (λ a, f a b)).
Proof.
  induction l as [|x l IH].
  - symmetry. exact (sum_list_cx_zero k).
  - change (sum_list_cx (x :: l) ?h) with (cx.add (h x) (sum_list_cx l h)).
    rewrite IH, <- sum_list_cx_add. apply sum_list_cx_proper. intros b _. done.
Qed.

Lemma sum_n_swap n m (f : nat → nat → complex) :
  cx.sum_n n (λ a, cx.sum_n m (λ b, f a b)) ≃ cx.sum_n m (λ b, cx.sum_n n (λ a, f a b)).
Proof. apply sum_list_cx_swap. Qed.

(** A sum over [n * m] indices, cut into [n] rows of [m]. *)
Lemma sum_n_rows n m f :
  cx.sum_n (n * m) f ≃ cx.sum_n n (λ b, cx.sum_n m (λ a, f (b * m + a))).
Proof.
  induction n as [|n IH].
  - done.
  - rewrite !sum_n_eq. rewrite seq_S. replace (S n * m) with (n * m + m) by lia.
    rewrite seq_app, !sum_list_cx_app. rewrite <- !sum_n_eq, IH.
    apply cx_add_proper; [done|]. unfold sum_list_cx at 2. csimpl.
    rewrite cx_add_zero_r. unfold sum_list_cx, cx.sum_n.
    replace (n * m) with (n * m + 0) at 1 by lia.
    rewrite <- (fmap_add_seq (n * m) 0), <- list_fmap_compose. done.
Qed.
End complex_sums.

Section sums_congruence.
Lemma sum_over_proper ds (g h : list nat → complex) :
  (∀ idx, np.in_range idx ds → g idx ≃ h idx) → cx.sum_over ds g ≃ cx.sum_over ds h.
Proof.
  revert g h. induction ds as [|d ds IH]; intros g h Hgh; simpl.
  - apply Hgh. constructor.
  - apply sum_n_proper. intros j Hj. apply IH. intros idx Hidx. apply Hgh.
    by constructor.
Qed.

Lemma sum_sites_proper shapes (f g : list (list nat) → complex) :
  (∀ cs, mp.in_range cs shapes → f cs ≃ g cs) →
  cx.sum_sites shapes f ≃ cx.sum_sites shapes g.
Proof.
  revert f g. induction shapes as [|s shapes IH]; intros f g Hfg; simpl.
  - apply Hfg. constructor.
  - apply sum_over_proper. intros c Hc. apply IH. intros cs Hcs. apply Hfg.
    by constructor.
Qed.

Lemma sum_sites_ext shapes (f g : list (list nat) → complex) :
  (∀ cs, mp.in_range cs shapes → f cs = g cs) →
  cx.sum_sites shapes f ≃ cx.sum_sites shapes g.
Proof. intros Hfg. apply sum_sites_proper. intros cs Hcs. by rewrite Hfg. Qed.
End sums_congruence.

Section probability_map.
Implicit Types (ohs : list (nat * nat)) (self rho : MPArray) (ks : list nat)
  (cs : list (list nat)).

Lemma resolve_site o h :
  1 ≤ o →
  mp.resolve_shape (mp.permute [0; 2; 1] [o; h; h])
                   [Some (default 0 ([o; h; h] !! 0)); None] = [o; h * h].
Proof.
  intros Ho. unfold mp.resolve_shape, mp.permute, np.size. simpl.
  do 2 f_equal. rewrite !Nat.mul_1_r, (Nat.mul_comm o (h * h)).
  apply Nat.div_mul. lia.
Qed.

Lemma resolve_ravel_site h : mp.resolve_shape [h; h] [None] = [h * h].
Proof.
  unfold mp.resolve_shape, np.size. cbn [omap fmap list_fmap list_omap foldr default].
  change (id <$> None) with (@None nat). cbn [foldr default].
  by rewrite Nat.div_1_r, Nat.mul_1_r.
Qed.

Lemma probability_map_pdims ohs self :
  Forall (λ '(o, _), 1 ≤ o) ohs →
  pdims self = povm_pdims ohs → pdims (MPPovm.probability_map self) = merged_pdims ohs.
Proof.
  intros Hout Hself. unfold MPPovm.probability_map, mp.reshape, mp.transpose.
  cbn [pdims]. rewrite Hself. unfold povm_pdims, merged_pdims. clear Hself.
  induction Hout as [|[o h] l Ho _ IH]; [done|].
  rewrite !fmap_cons. cbn [zip_with]. by rewrite IH, resolve_site.
Qed.

Lemma ravel_pdims ohs rho :
  pdims rho = mpo_pdims ohs → pdims (mp.ravel rho) = merged_dims ohs.
Proof.
  intros Hrho. unfold mp.ravel, mp.reshape. cbn [pdims]. rewrite Hrho.
  unfold mpo_pdims, merged_dims. clear.
  induction ohs as [|[o h] l IH]; [done|].
  rewrite !fmap_cons. cbn [zip_with]. by rewrite IH, resolve_ravel_site.
Qed.
End probability_map.

Section probability_entries.
Implicit Types (ohs : list (nat * nat)) (self rho : MPArray) (ks : list nat)
  (cs : list (list nat)).

Lemma probability_map_site o h k j :
  j < h * h →
  mp.unpermute [0; 2; 1]
    (np.unravel_index (np.ravel_multi_index [k; j] [o; h * h]) [o; h; h])
  = [k; j mod h; j / h].
Proof.
  intros Hj. assert (h ≠ 0) by (intros ->; lia).
  unfold mp.unpermute. cbn [np.ravel_multi_index np.unravel_index].
  unfold np.size. cbn [foldr length seq fmap list_fmap list_find].
  rewrite !Nat.mul_1_r, !Nat.add_0_r, !Nat.div_1_r.
  replace ((k * (h * h) + j) / (h * h)) with k
    by (rewrite Nat.div_add_l, Nat.div_small by lia; lia).
  replace ((k * (h * h) + j) `mod` (h * h)) with j
    by (rewrite Nat.add_comm, Nat.Div0.mod_add, Nat.mod_small by lia; lia).
  repeat (rewrite decide_True by done || rewrite decide_False by done).
  done.
Qed.

Lemma ravel_site h j :
  np.unravel_index (np.ravel_multi_index [j] [h * h]) [h; h] = [j / h; j mod h].
Proof.
  cbn [np.ravel_multi_index np.unravel_index]. unfold np.size. cbn [foldr].
  by rewrite !Nat.mul_1_r, !Nat.add_0_r, !Nat.div_1_r.
Qed.

Lemma merged_in_range ohs cs :
  mp.in_range cs (merged_dims ohs) →
  Forall2 (λ '(_, h) c, ∃ j, c = [j] ∧ j < h * h) ohs cs.
Proof.
  unfold mp.in_range, merged_dims. revert cs.
  induction ohs as [|[o h] l IH]; intros cs Hcs.
  - apply Forall2_nil_inv_r in Hcs as ->. constructor.
  - rewrite fmap_cons in Hcs. apply Forall2_cons_inv_r in Hcs as (c & cs' & Hc & Hcs' & ->).
    constructor; [|by apply IH].
    apply Forall2_cons_inv_r in Hc as (j & c' & Hj & Hc' & ->).
    apply Forall2_nil_inv_r in Hc' as ->. eauto.
Qed.

Lemma probability_map_entry ohs self ks cs :
  Forall (λ '(o, _), 1 ≤ o) ohs →
  pdims self = povm_pdims ohs → length ks = length ohs →
  mp.in_range cs (merged_dims ohs) →
  entry (MPPovm.probability_map self) (zip_with cons ks cs)
  = entry self (zip_with (λ k ba, k :: reverse ba) ks
                  (zip_with (λ '(_, h) c, row_col h c) ohs cs)).
Proof.
  intros Hout Hself Hks Hcs%merged_in_range.
  unfold MPPovm.probability_map, mp.reshape, mp.transpose. cbn [pdims entry].
  rewrite Hself. f_equal. unfold povm_pdims. clear Hself.
  revert ks Hks. induction Hcs as [|[o h] c l cs (j & -> & Hj) _ IH]; intros ks Hks.
  - by destruct ks.
  - destruct ks as [|k ks]; [done|]. apply Forall_cons in Hout as [Ho Hout].
    rewrite !fmap_cons. cbn [zip_with zip].
    rewrite resolve_site by done. cbn [fmap list_fmap zip_with].
    f_equal; [|apply IH; [done|by injection Hks]].
    rewrite probability_map_site by done. done.
Qed.

Lemma ravel_entry ohs rho cs :
  pdims rho = mpo_pdims ohs →
  mp.in_range cs (merged_dims ohs) →
  entry (mp.ravel rho) cs = entry rho (zip_with (λ '(_, h) c, row_col h c) ohs cs).
Proof.
  intros Hrho Hcs%merged_in_range. unfold mp.ravel, mp.reshape. cbn [pdims entry].
  rewrite Hrho. f_equal. unfold mpo_pdims. clear Hrho.
  induction Hcs as [|[o h] c l cs (j & -> & Hj) _ IH]; [done|].
  rewrite !fmap_cons. cbn [zip_with zip]. rewrite resolve_ravel_site.
  cbn [zip_with]. f_equal; [|apply IH]. by rewrite ravel_site.
Qed.
End probability_entries.

Section contraction.
Implicit Types (ohs : list (nat * nat)) (a b : MPArray) (ks : list nat)
  (cs : list (list nat)).

Lemma dot_summed_dims ohs :
  zip_with mp.summed_dims (merged_pdims ohs)
    ((λ pd, mp.axes_of pd mp.default_axes.1) <$> merged_pdims ohs)
  = merged_dims ohs.
Proof.
  unfold merged_pdims, merged_dims. induction ohs as [|[o h] l IH]; [done|].
  rewrite !fmap_cons. cbn [zip_with]. by rewrite IH.
Qed.

Lemma dot_pdims ohs a b :
  pdims a = merged_pdims ohs → pdims b = merged_dims ohs →
  pdims (mp.dot a b mp.default_axes) = sing (fst <$> ohs).
Proof.
  intros Ha Hb. unfold mp.dot. cbn [pdims]. rewrite Ha, Hb.
  unfold merged_pdims, merged_dims. clear.
  induction ohs as [|[o h] l IH]; [done|].
  rewrite !fmap_cons. cbn [zip_with]. by rewrite IH.
Qed.

Lemma dot_fill_left ohs ks cs :
  length ks = length ohs → mp.in_range cs (merged_dims ohs) →
  zip_with (λ '(pd, ax) '(i, c),
              mp.fill_axes (length pd) 0 ax (take (length pd - length ax) i) c)
    (zip (merged_pdims ohs)
         ((λ pd, mp.axes_of pd mp.default_axes.1) <$> merged_pdims ohs))
    (zip (sing ks) cs)
  = zip_with cons ks cs.
Proof.
  intros Hks Hcs%merged_in_range. revert ks Hks. unfold merged_pdims.
  induction Hcs as [|[o h] c l cs (j & -> & Hj) _ IH]; intros [|k ks] Hks;
    try done.
  rewrite !fmap_cons. cbn [zip_with zip sing fmap list_fmap].
  f_equal. apply IH. by injection Hks.
Qed.

Lemma dot_fill_right ohs ks cs :
  length ks = length ohs → mp.in_range cs (merged_dims ohs) →
  zip_with (λ '(pd, ax) '(i, c),
              mp.fill_axes (length pd) 0 ax
                (drop (length i - (length pd - length ax)) i) c)
    (zip (merged_dims ohs)
         ((λ pd, mp.axes_of pd mp.default_axes.2) <$> merged_dims ohs))
    (zip (sing ks) cs)
  = cs.
Proof.
  intros Hks Hcs%merged_in_range. revert ks Hks. unfold merged_dims.
  induction Hcs as [|[o h] c l cs (j & -> & Hj) _ IH]; intros [|k ks] Hks;
    try done.
  rewrite !fmap_cons. cbn [zip_with zip sing fmap list_fmap].
  f_equal. apply IH. by injection Hks.
Qed.

Lemma dot_entry ohs a b ks :
  pdims a = merged_pdims ohs → pdims b = merged_dims ohs →
  length ks = length ohs →
  entry (mp.dot a b mp.default_axes) (sing ks)
  ≃ cx.sum_sites (merged_dims ohs)
      (λ cs, cx.mul (entry a (zip_with cons ks cs)) (entry b cs)).
Proof.
  intros Ha Hb Hks. unfold mp.dot. cbn [entry]. rewrite Ha, Hb, dot_summed_dims.
  apply sum_sites_ext. intros cs Hcs.
  by rewrite dot_fill_left, dot_fill_right.
Qed.
End contraction.

Section reindexing.
Implicit Types (ohs : list (nat * nat)) (F : list (list nat) → complex).

Lemma sum_site_rows h (G : list nat → complex) :
  cx.sum_over [h * h] (λ c, G (row_col h c)) ≃ cx.sum_over [h; h] G.
Proof.
  cbn [cx.sum_over]. rewrite sum_n_rows. apply sum_n_proper. intros b Hb.
  apply sum_n_proper. intros a Ha. unfold row_col.
  cbn [lookup list_lookup from_option]. unfold id.
  assert (h ≠ 0) by lia.
  replace ((b * h + a) / h) with b by (rewrite Nat.div_add_l, Nat.div_small by lia; lia).
  replace ((b * h + a) `mod` h) with a
    by (rewrite Nat.add_comm, Nat.Div0.mod_add, Nat.mod_small by lia; lia).
  done.
Qed.

Lemma sum_sites_rows ohs F :
  cx.sum_sites (merged_dims ohs) (λ cs, F (zip_with (λ '(_, h) c, row_col h c) ohs cs))
  ≃ cx.sum_sites (square_dims ohs) F.
Proof.
  revert F. unfold merged_dims, square_dims.
  induction ohs as [|[o h] l IH]; intros F; [done|].
  rewrite !fmap_cons. cbn [cx.sum_sites zip_with].
  etrans; [|apply (sum_site_rows h (λ ba, cx.sum_sites _ (λ bas, F (ba :: bas))))].
  apply sum_over_proper. intros c _. apply (IH (λ bas, F (row_col h c :: bas))).
Qed.

Lemma sum_sites_transpose ohs F :
  cx.sum_sites (square_dims ohs) F
  ≃ cx.sum_sites (square_dims ohs) (λ abs, F (reverse <$> abs)).
Proof.
  revert F. unfold square_dims. induction ohs as [|[o h] l IH]; intros F; [done|].
  rewrite !fmap_cons. cbn [cx.sum_sites cx.sum_over].
  rewrite sum_n_swap. apply sum_n_proper. intros a _. apply sum_n_proper. intros b _.
  apply (IH (λ bas, F ([b; a] :: bas))).
Qed.
End reindexing.

(** C2.  For a POVM of legs (outcome, row, column) per site,
    [probability_map] has the legs (outcome, row * column); its operator
    index [r * h + c] is the column [r] and the row [c] of the element,
    while the raveled density operator has the row [r] and the column [c]
    at the same index.  The contraction of the two is the chain of the
    probabilities [tr (E_k rho)]. *)
Theorem probability_map_contracts (ohs : list (nat * nat)) (self rho : MPArray)
    (ks : list nat) :
  Forall (λ '(o, _), 1 ≤ o) ohs →
  pdims self = povm_pdims ohs →
  pdims rho = mpo_pdims ohs →
  length ks = length ohs →
  pdims (MPPovm.probability_map self) = (λ '(o, h), [o; h * h]) <$> ohs ∧
  (∀ cs, mp.in_range cs ((λ '(_, h), [h * h]) <$> ohs) →
     entry (MPPovm.probability_map self) (zip_with cons ks cs)
     = entry self (zip_with (λ k ba, k :: reverse ba) ks
                     (zip_with (λ '(_, h) c, row_col h c) ohs cs)) ∧
     entry (mp.ravel rho) cs
     = entry rho (zip_with (λ '(_, h) c, row_col h c) ohs cs)) ∧
  pdims (mp.dot (MPPovm.probability_map self) (mp.ravel rho) mp.default_axes)
    = (λ '(o, _), [o]) <$> ohs ∧
  entry (mp.dot (MPPovm.probability_map self) (mp.ravel rho) mp.default_axes)
        ((λ k, [k]) <$> ks)
    ≃ born self rho ks.
Proof.
  intros Hout Hself Hrho Hks.
  pose proof (probability_map_pdims ohs self Hout Hself) as Hpm.
  pose proof (ravel_pdims ohs rho Hrho) as Hrv.
  split; [done|]. split; [|split].
  - intros cs Hcs. split; [by apply probability_map_entry|by apply ravel_entry].
  - rewrite (dot_pdims ohs) by done. unfold sing. rewrite <- list_fmap_compose.
    apply list_fmap_ext. by intros i [o h] _.
  - rewrite (dot_entry ohs) by done.
    etrans.
    { apply sum_sites_ext. intros cs Hcs.
      rewrite (probability_map_entry ohs), (ravel_entry ohs) by done. done. }
    rewrite (sum_sites_rows ohs
      (λ bas, cx.mul (entry self (zip_with (λ k ba, k :: reverse ba) ks bas))
                     (entry rho bas))).
    rewrite sum_sites_transpose. unfold born, MPPovm.hdims. rewrite Hself.
    unfold povm_pdims, square_dims. rewrite <- !list_fmap_compose.
    assert ((λ '(_, h), [h; h]) <$> ohs
            = ((λ h, [h; h]) ∘ (λ pd : list nat, default 0 (pd !! 1)) ∘ (λ '(o, h), [o; h; h]))
              <$> ohs) as <-.
    { apply list_fmap_ext. by intros i [o h] _. }
    apply sum_sites_ext. intros abs _. f_equal. f_equal.
    rewrite zip_with_fmap_r. apply zip_with_ext; [|done..].
    intros k ab. by rewrite reverse_involutive.
Qed.

(** ** Inner products and squared norms *)

Section complex_products.
Implicit Types (z w v : complex).

#[global] Instance cx_mul_proper : Proper (cx.eq ==> cx.eq ==> cx.eq) cx.mul.
Proof.
  intros z z' [Hr Hi] w w' [Hr' Hi']. split; simpl; by rewrite ?Hr, ?Hi, ?Hr', ?Hi'.
Qed.

Lemma cx_mul_one_l z : cx.mul cx.one z ≃ z.
Proof. split; simpl; ring. Qed.

Lemma cx_mul_zero_l z : cx.mul cx.zero z ≃ cx.zero.
Proof. split; simpl; ring. Qed.

Lemma cx_mul_assoc z w v : cx.mul (cx.mul z w) v ≃ cx.mul z (cx.mul w v).
Proof. unfold cx.eq, cx.mul. cbn [re im]. split; ring. Qed.

Lemma cx_conj_mul_self z : cx.mul (cx.conj z) z ≃ cx.of_real (cx.abs2 z).
Proof. unfold cx.eq, cx.mul, cx.conj, cx.of_real, cx.abs2. cbn [re im]. split; ring. Qed.

Lemma sum_n_zero n : cx.sum_n n (λ _, cx.zero) ≃ cx.zero.
Proof. apply sum_list_cx_zero. Qed.

Lemma sum_over_zero ds : cx.sum_over ds (λ _, cx.zero) ≃ cx.zero.
Proof.
  induction ds as [|d ds IH]; simpl; [done|].
  etrans; [|apply (sum_n_zero d)]. apply sum_n_proper. by intros j _.
Qed.

Lemma sum_sites_zero shapes : cx.sum_sites shapes (λ _, cx.zero) ≃ cx.zero.
Proof.
  induction shapes as [|s shapes IH]; simpl; [done|].
  etrans; [|apply (sum_over_zero s)]. apply sum_over_proper. by intros c _.
Qed.

(** A sum with one term that is not zero. *)
Lemma sum_n_indicator n k z :
  k < n → cx.sum_n n (λ j, if decide (j = k) then z else cx.zero) ≃ z.
Proof.
  intros Hk. rewrite sum_n_eq. replace n with (k + (1 + (n - S k))) by lia.
  rewrite !seq_app, !sum_list_cx_app.
  assert (∀ l, Forall (λ j, j ≠ k) l →
    sum_list_cx l (λ j, if decide (j = k) then z else cx.zero) ≃ cx.zero) as Hz.
  { intros l Hl. etrans; [|apply (sum_list_cx_zero l)].
    apply sum_list_cx_proper. intros j Hj.
    rewrite decide_False; [done|]. by apply (proj1 (Forall_forall _ _) Hl). }
  rewrite (Hz (seq 0 k)), (Hz (seq (0 + k + 1) (n - S k))).
  - unfold sum_list_cx. csimpl. rewrite decide_True by done.
    rewrite cx_add_zero_r, cx_add_zero_l, cx_add_zero_r. done.
  - apply Forall_forall. intros j Hj%list_elem_of_In%in_seq. lia.
  - apply Forall_forall. intros j Hj%list_elem_of_In%in_seq. lia.
Qed.

Lemma sum_over_indicator ds (p : list nat) z :
  np.in_range p ds →
  cx.sum_over ds (λ c, if decide (c = p) then z else cx.zero) ≃ z.
Proof.
  induction 1 as [|i d p ds Hi _ IH]; cbn [cx.sum_over].
  - by rewrite decide_True.
  - etrans; [|apply (sum_n_indicator d i z Hi)].
    apply sum_n_proper. intros j Hj. destruct (decide (j = i)) as [-> | Hne].
    + etrans; [|apply IH]. apply sum_over_proper. intros c _.
      destruct (decide (c = p)) as [-> | ?].
      * by rewrite decide_True.
      * rewrite decide_False; [done|]. congruence.
    + etrans; [|apply (sum_over_zero ds)]. apply sum_over_proper. intros c _.
      rewrite decide_False; [done|]. congruence.
Qed.

(** The sum of a product chain of indicators against [F] is the value
    of [F] at the point they indicate. *)
Lemma sum_sites_indicators (shapes pts : list (list nat))
    (phis : list (list nat → complex)) (F : list (list nat) → complex) :
  Forall3 (λ shape p phi,
             np.in_range p shape ∧
             ∀ c, np.in_range c shape →
                  phi c = if decide (c = p) then cx.one else cx.zero)
          shapes pts phis →
  cx.sum_sites shapes
    (λ cs, cx.mul (foldr cx.mul cx.one (zip_with (λ phi c, phi c) phis cs)) (F cs))
  ≃ F pts.
Proof.
  intros H. revert F. induction H as [|shape p phi shapes pts phis [Hp Hphi] _ IH];
    intros F; simpl.
  - apply cx_mul_one_l.
  - etrans; [|apply (sum_over_indicator shape p (F (p :: pts)) Hp)].
    apply sum_over_proper. intros c Hc. rewrite (Hphi c Hc).
    destruct (decide (c = p)) as [-> | Hne].
    + etrans; [|apply (IH (λ cs, F (p :: cs)))].
      apply sum_sites_proper. intros cs _.
      by rewrite cx_mul_one_l.
    + etrans; [|apply (sum_sites_zero shapes)].
      apply sum_sites_proper. intros cs _.
      by rewrite !cx_mul_zero_l.
Qed.
End complex_products.

Section numpy_arrays.
Lemma getitem_fromfunction {A} (f : list nat → A) shape idx :
  np.in_range idx shape → np.getitem (np.fromfunction f shape) idx = Some (f idx).
Proof.
  intros Hin. unfold np.getitem, np.fromfunction. cbn [np.flat np.shape].
  rewrite list_lookup_fmap, lookup_seq_lt by by apply ravel_lt.
  simpl. by rewrite unravel_ravel.
Qed.
End numpy_arrays.

Section gram.
(** the outcome dimensions of [a] and of [b], and the dimension of the
    Hilbert space, site by site *)
Implicit Types (dims : list (nat * nat * nat)) (a b : MPArray) (ix jx : list nat)
  (cs : list (list nat)).

Lemma operator_in_range dims cs :
  mp.in_range cs (operator_dims dims) →
  Forall2 (λ '(_, _, h) c, ∃ x y, c = [x; y] ∧ x < h ∧ y < h) dims cs.
Proof.
  unfold mp.in_range, operator_dims. revert cs.
  induction dims as [|[[o o'] h] l IH]; intros cs Hcs.
  - apply Forall2_nil_inv_r in Hcs as ->. constructor.
  - rewrite fmap_cons in Hcs.
    apply Forall2_cons_inv_r in Hcs as (c & cs' & Hc & Hcs' & ->).
    constructor; [|by apply IH].
    apply Forall2_cons_inv_r in Hc as (x & c' & Hx & Hc' & ->).
    apply Forall2_cons_inv_r in Hc' as (y & c'' & Hy & Hc'' & ->).
    apply Forall2_nil_inv_r in Hc'' as ->. eauto.
Qed.

Lemma gram_pdims dims a b :
  pdims a = left_pdims dims → pdims b = right_pdims dims →
  pdims (mp.dot (mp.conj a) b operator_axes) = pair_pdims dims.
Proof.
  intros Ha Hb. unfold mp.dot. cbn [pdims mp.conj]. rewrite Ha, Hb.
  unfold left_pdims, right_pdims, pair_pdims. clear.
  induction dims as [|[[o o'] h] l IH]; [done|].
  rewrite !fmap_cons. cbn [zip_with]. by rewrite IH.
Qed.

Lemma gram_summed_dims dims :
  zip_with mp.summed_dims (left_pdims dims)
    ((λ pd, mp.axes_of pd operator_axes.1) <$> left_pdims dims)
  = operator_dims dims.
Proof.
  unfold left_pdims, operator_dims. induction dims as [|[[o o'] h] l IH]; [done|].
  rewrite !fmap_cons. cbn [zip_with]. by rewrite IH.
Qed.

Lemma gram_fill_left dims ix jx cs :
  length ix = length dims → length jx = length dims →
  mp.in_range cs (operator_dims dims) →
  zip_with (λ '(pd, ax) '(i, c),
              mp.fill_axes (length pd) 0 ax (take (length pd - length ax) i) c)
    (zip (left_pdims dims)
         ((λ pd, mp.axes_of pd operator_axes.1) <$> left_pdims dims))
    (zip (zip_with (λ i j, [i; j]) ix jx) cs)
  = zip_with cons ix cs.
Proof.
  intros Hix Hjx Hcs%operator_in_range. revert ix jx Hix Hjx. unfold left_pdims.
  induction Hcs as [|[[o o'] h] c l cs (x & y & -> & Hx & Hy) _ IH];
    intros [|i ix] [|j jx] Hix Hjx; try done.
  rewrite !fmap_cons. cbn [zip_with zip].
  f_equal. apply IH; [by injection Hix|by injection Hjx].
Qed.

Lemma gram_fill_right dims ix jx cs :
  length ix = length dims → length jx = length dims →
  mp.in_range cs (operator_dims dims) →
  zip_with (λ '(pd, ax) '(i, c),
              mp.fill_axes (length pd) 0 ax
                (drop (length i - (length pd - length ax)) i) c)
    (zip (right_pdims dims)
         ((λ pd, mp.axes_of pd operator_axes.2) <$> right_pdims dims))
    (zip (zip_with (λ i j, [i; j]) ix jx) cs)
  = zip_with cons jx cs.
Proof.
  intros Hix Hjx Hcs%operator_in_range. revert ix jx Hix Hjx. unfold right_pdims.
  induction Hcs as [|[[o o'] h] c l cs (x & y & -> & Hx & Hy) _ IH];
    intros [|i ix] [|j jx] Hix Hjx; try done.
  rewrite !fmap_cons. cbn [zip_with zip].
  f_equal. apply IH; [by injection Hix|by injection Hjx].
Qed.

Lemma hdims_left dims a :
  pdims a = left_pdims dims → (λ h, [h; h]) <$> MPPovm.hdims a = operator_dims dims.
Proof.
  intros Ha. unfold MPPovm.hdims. rewrite Ha. unfold left_pdims, operator_dims.
  rewrite <- !list_fmap_compose. apply list_fmap_ext. by intros ? [[o o'] h] _.
Qed.

Lemma gram_entry dims a b ix jx :
  pdims a = left_pdims dims → pdims b = right_pdims dims →
  length ix = length dims → length jx = length dims →
  entry (mp.dot (mp.conj a) b operator_axes) (zip_with (λ i j, [i; j]) ix jx)
  ≃ inner_product a b ix jx.
Proof.
  intros Ha Hb Hix Hjx. unfold mp.dot, inner_product. cbn [entry pdims mp.conj].
  rewrite (hdims_left dims) by done. rewrite Ha, Hb, gram_summed_dims.
  apply sum_sites_ext. intros cs Hcs.
  by rewrite gram_fill_left, gram_fill_right.
Qed.
End gram.

Section diagonal.
Implicit Types (os ix : list nat) (g a : MPArray) (cs : list (list nat)).

Lemma square_in_range os cs :
  mp.in_range cs (square_pdims os) →
  Forall2 (λ o c, ∃ x y, c = [x; y] ∧ x < o ∧ y < o) os cs.
Proof.
  unfold mp.in_range, square_pdims. revert cs.
  induction os as [|o l IH]; intros cs Hcs.
  - apply Forall2_nil_inv_r in Hcs as ->. constructor.
  - rewrite fmap_cons in Hcs.
    apply Forall2_cons_inv_r in Hcs as (c & cs' & Hc & Hcs' & ->).
    constructor; [|by apply IH].
    apply Forall2_cons_inv_r in Hc as (x & c' & Hx & Hc' & ->).
    apply Forall2_cons_inv_r in Hc' as (y & c'' & Hy & Hc'' & ->).
    apply Forall2_nil_inv_r in Hc'' as ->. eauto.
Qed.

Lemma eye3d_pdims os : pdims (mp.from_kron (MPPovm.eye3d <$> os)) = cube_pdims os.
Proof.
  unfold mp.from_kron, cube_pdims. cbn [pdims]. rewrite <- list_fmap_compose.
  by apply list_fmap_ext.
Qed.

Lemma diagonal_pdims os g :
  pdims g = square_pdims os →
  pdims (mp.dot (mp.from_kron (MPPovm.eye3d <$> os)) g diagonal_axes) = sing os.
Proof.
  intros Hg. unfold mp.dot. cbn [pdims]. rewrite eye3d_pdims, Hg.
  unfold cube_pdims, square_pdims. clear.
  induction os as [|o l IH]; [done|].
  rewrite !fmap_cons. cbn [zip_with]. by rewrite IH.
Qed.

Lemma diagonal_summed_dims os :
  zip_with mp.summed_dims (cube_pdims os)
    ((λ pd, mp.axes_of pd diagonal_axes.1) <$> cube_pdims os)
  = square_pdims os.
Proof.
  unfold cube_pdims, square_pdims. induction os as [|o l IH]; [done|].
  rewrite !fmap_cons. cbn [zip_with]. by rewrite IH.
Qed.

Lemma diagonal_fill_left os ix cs :
  length ix = length os → mp.in_range cs (square_pdims os) →
  zip_with (λ '(pd, ax) '(i, c),
              mp.fill_axes (length pd) 0 ax (take (length pd - length ax) i) c)
    (zip (cube_pdims os) ((λ pd, mp.axes_of pd diagonal_axes.1) <$> cube_pdims os))
    (zip (sing ix) cs)
  = zip_with cons ix cs.
Proof.
  intros Hix Hcs%square_in_range. revert ix Hix. unfold cube_pdims.
  induction Hcs as [|o c l cs (x & y & -> & Hx & Hy) _ IH]; intros [|i ix] Hix;
    try done.
  rewrite !fmap_cons. cbn [zip_with zip sing fmap list_fmap].
  f_equal. apply IH. by injection Hix.
Qed.

Lemma diagonal_fill_right os ix cs :
  length ix = length os → mp.in_range cs (square_pdims os) →
  zip_with (λ '(pd, ax) '(i, c),
              mp.fill_axes (length pd) 0 ax
                (drop (length i - (length pd - length ax)) i) c)
    (zip (square_pdims os) ((λ pd, mp.axes_of pd diagonal_axes.2) <$> square_pdims os))
    (zip (sing ix) cs)
  = cs.
Proof.
  intros Hix Hcs%square_in_range. revert ix Hix. unfold square_pdims.
  induction Hcs as [|o c l cs (x & y & -> & Hx & Hy) _ IH]; intros [|i ix] Hix;
    try done.
  rewrite !fmap_cons. cbn [zip_with zip sing fmap list_fmap].
  f_equal. apply IH. by injection Hix.
Qed.

Lemma eye3d_entry o i c :
  i < o → np.in_range c [o; o] →
  default cx.zero (np.getitem (MPPovm.eye3d o) (i :: c))
  = if decide (c = [i; i]) then cx.one else cx.zero.
Proof.
  intros Hi Hc. unfold MPPovm.eye3d. rewrite getitem_fromfunction by by constructor.
  apply Forall2_cons_inv_r in Hc as (x & c' & Hx & Hc' & ->).
  apply Forall2_cons_inv_r in Hc' as (y & c'' & Hy & Hc'' & ->).
  apply Forall2_nil_inv_r in Hc'' as ->. simpl.
  destruct (Nat.eqb_spec i x) as [-> | ?], (Nat.eqb_spec x y) as [-> | ?]; simpl;
    case_decide; simplify_eq; done.
Qed.

Lemma diagonal_entry os g ix :
  pdims g = square_pdims os → np.in_range ix os →
  entry (mp.dot (mp.from_kron (MPPovm.eye3d <$> os)) g diagonal_axes) (sing ix)
  ≃ entry g ((λ i, [i; i]) <$> ix).
Proof.
  intros Hg Hix. pose proof (in_range_length _ _ Hix) as Hlen.
  unfold mp.dot. cbn [entry]. rewrite eye3d_pdims, Hg, diagonal_summed_dims.
  etrans.
  { apply sum_sites_ext. intros cs Hcs.
    rewrite diagonal_fill_left, diagonal_fill_right by done. done. }
  etrans; [|apply (sum_sites_indicators (square_pdims os) ((λ i, [i; i]) <$> ix)
              (zip_with (λ o i c, default cx.zero (np.getitem (MPPovm.eye3d o) (i :: c)))
                        os ix) (entry g))].
  - apply sum_sites_ext. intros cs Hcs%square_in_range. f_equal.
    unfold mp.from_kron. cbn [entry]. f_equal.
    clear Hg. revert cs Hcs. induction Hix as [|i o ix os Hi _ IH]; intros cs Hcs.
    + by apply Forall2_nil_inv_l in Hcs as ->.
    + apply Forall2_cons_inv_l in Hcs as (c & cs' & _ & Hcs' & ->).
      rewrite fmap_cons. cbn [zip_with]. f_equal. apply IH; [|done].
      pose proof (Forall2_length _ _ _ Hcs'). by injection Hlen.
  - clear Hg Hlen. unfold square_pdims.
    induction Hix as [|i o ix os Hi _ IH]; [constructor|].
    rewrite !fmap_cons. cbn [zip_with]. constructor; [|done].
    split; [by repeat constructor|]. intros c Hc. by apply eye3d_entry.
Qed.
End diagonal.

Section pruned_arrays.
Implicit Types (os idx : list nat) (d a : MPArray).

Lemma informative_nsoutdims os :
  Forall (λ o, 1 ≤ o) os → informative os = filter (λ o, 1 < o) os.
Proof.
  unfold informative. induction 1 as [|o os Ho _ IH]; [done|].
  rewrite !filter_cons, IH. repeat case_decide; try done; lia.
Qed.

Lemma expand_in_range os idx :
  Forall (λ o, 1 ≤ o) os → np.in_range idx (informative os) →
  np.in_range (expand os idx) os.
Proof.
  intros Hos. revert idx. unfold informative.
  induction Hos as [|o os Ho _ IH]; intros idx Hidx; cbn [expand]; [constructor|].
  rewrite filter_cons in Hidx. destruct (Nat.eqb_spec o 1) as [-> | Hne].
  - rewrite decide_False in Hidx by (intros H; by apply H).
    constructor; [lia|by apply IH].
  - rewrite decide_True in Hidx by done.
    apply Forall2_cons_inv_r in Hidx as (i & idx' & Hi & Hidx' & ->).
    constructor; [done|by apply IH].
Qed.

Lemma prune_singletons_pdims os :
  filter (λ pd, mp.prunable true pd = false) (sing os) = sing (informative os).
Proof.
  unfold informative. induction os as [|o os IH]; [done|].
  unfold sing in *. rewrite fmap_cons, !filter_cons, IH.
  change (mp.prunable true [o]) with ((1 =? o) && true).
  destruct (Nat.eqb_spec 1 o); repeat case_decide; simplify_eq/=; done.
Qed.

Lemma unprune_singletons os idx :
  length idx = length (informative os) →
  mp.unprune true (sing os) (sing idx) = sing (expand os idx).
Proof.
  revert idx. unfold informative. induction os as [|o os IH]; intros idx Hlen; [done|].
  unfold sing in *. rewrite fmap_cons. cbn [mp.unprune expand].
  change (mp.prunable true [o]) with ((1 =? o) && true).
  rewrite filter_cons in Hlen. rewrite (Nat.eqb_sym 1 o).
  destruct (Nat.eqb_spec o 1) as [-> | Hne]; cbn [andb].
  - rewrite decide_False in Hlen by (intros H; by apply H).
    rewrite fmap_cons. f_equal. by apply IH.
  - rewrite decide_True in Hlen by done. destruct idx as [|i idx]; [done|].
    rewrite !fmap_cons. f_equal. apply IH. by injection Hlen.
Qed.

Lemma pruned_array os d :
  pdims d = sing os →
  np.shape (mp.to_array (mp.prune d true)) = informative os ∧
  length (np.flat (mp.to_array (mp.prune d true))) = np.size (informative os) ∧
  ∀ idx, np.in_range idx (informative os) →
    np.getitem (mp.to_array (mp.prune d true)) idx = Some (entry d (sing (expand os idx))).
Proof.
  intros Hd. unfold mp.to_array, mp.prune, mp.plegs. cbn [pdims entry].
  rewrite Hd, prune_singletons_pdims, concat_sing. split; [done|]. split.
  { unfold np.fromfunction. cbn [np.flat]. by rewrite length_fmap, length_seq. }
  intros idx Hidx. rewrite getitem_fromfunction by done.
  pose proof (in_range_length _ _ Hidx) as Hlen.
  rewrite legs_sing, <- Hlen, split_sites_sing. by rewrite unprune_singletons.
Qed.
End pruned_arrays.

Section squared_norms.
Implicit Types (ohs : list (nat * nat)) (a : MPArray) (ix : list nat).

Lemma left_twice ohs : left_pdims (twice ohs) = povm_pdims ohs.
Proof.
  unfold left_pdims, twice, povm_pdims. rewrite <- list_fmap_compose.
  apply list_fmap_ext. by intros ? [o h] _.
Qed.

Lemma right_twice ohs : right_pdims (twice ohs) = povm_pdims ohs.
Proof.
  unfold right_pdims, twice, povm_pdims. rewrite <- list_fmap_compose.
  apply list_fmap_ext. by intros ? [o h] _.
Qed.

Lemma pair_twice ohs : pair_pdims (twice ohs) = square_pdims (fst <$> ohs).
Proof.
  unfold pair_pdims, twice, square_pdims. rewrite <- !list_fmap_compose.
  apply list_fmap_ext. by intros ? [o h] _.
Qed.

Lemma outdims_povm ohs a : pdims a = povm_pdims ohs → MPPovm.outdims a = fst <$> ohs.
Proof.
  intros Ha. unfold MPPovm.outdims. rewrite Ha. unfold povm_pdims.
  rewrite <- list_fmap_compose. apply list_fmap_ext. by intros ? [o h] _.
Qed.

Lemma zip_diag ix : zip_with (λ i j, [i; j]) ix ix = (λ i, [i; i]) <$> ix.
Proof. induction ix as [|i ix IH]; [done|]. csimpl. by rewrite IH. Qed.

Lemma inner_product_self a ix :
  inner_product a a ix ix
  ≃ cx.sum_sites ((λ h, [h; h]) <$> MPPovm.hdims a)
      (λ abs, cx.of_real (cx.abs2 (entry a (zip_with cons ix abs)))).
Proof.
  unfold inner_product. apply sum_sites_proper. intros cs _. apply cx_conj_mul_self.
Qed.

Lemma normsq_spec ohs a :
  pdims a = povm_pdims ohs →
  pdims (MPPovm.normsq a) = sing (fst <$> ohs) ∧
  ∀ ix, np.in_range ix (fst <$> ohs) →
    (re (entry (MPPovm.normsq a) (sing ix)) == norm_squared a ix)%Q.
Proof.
  intros Ha. unfold MPPovm.normsq. cbv zeta. rewrite (outdims_povm ohs) by done.
  pose proof (gram_pdims (twice ohs) a a) as Hg.
  rewrite left_twice, right_twice, pair_twice in Hg. specialize (Hg Ha Ha).
  split; [by apply diagonal_pdims|].
  intros ix Hix. pose proof (in_range_length _ _ Hix) as Hlen.
  rewrite length_fmap in Hlen.
  assert (entry (mp.dot (mp.from_kron (MPPovm.eye3d <$> (fst <$> ohs)))
                   (mp.dot (mp.conj a) a operator_axes) diagonal_axes) (sing ix)
          ≃ cx.sum_sites ((λ h, [h; h]) <$> MPPovm.hdims a)
              (λ abs, cx.of_real (cx.abs2 (entry a (zip_with cons ix abs))))) as [Hre _].
  { rewrite diagonal_entry by done. rewrite <- zip_diag.
    rewrite (gram_entry (twice ohs)); rewrite ?left_twice, ?right_twice; try done.
    - apply inner_product_self.
    - by unfold twice; rewrite length_fmap.
    - by unfold twice; rewrite length_fmap. }
  exact Hre.
Qed.
End squared_norms.

(** ** Matching elements and prefactors *)

Section numpy_shapes.
Implicit Types (s i j idx : list nat).

Lemma ravel_app i j (s1 s2 : list nat) :
  length i = length s1 →
  np.ravel_multi_index (i ++ j) (s1 ++ s2)
  = np.ravel_multi_index i s1 * np.size s2 + np.ravel_multi_index j s2.
Proof.
  revert s1. induction i as [|x i IH]; intros [|d s1] Hlen; simplify_eq/=; [done|].
  rewrite IH by done. rewrite size_app. lia.
Qed.

Lemma size_ones n : np.size (replicate n 1) = 1.
Proof. induction n as [|n IH]; [done|]. simpl. rewrite size_cons, IH. done. Qed.

Lemma ravel_zeros n : np.ravel_multi_index (replicate n 0) (replicate n 1) = 0.
Proof. induction n as [|n IH]; [done|]. simpl. by rewrite IH. Qed.

Lemma clip_keep i s : Forall (λ d, d ≠ 1) s → length i = length s → np.clip i s = i.
Proof.
  intros Hs. revert i. unfold np.clip.
  induction Hs as [|d s Hd _ IH]; intros [|x i] Hlen; simplify_eq/=; [done|].
  rewrite IH by done. by destruct (Nat.eqb_spec d 1).
Qed.

Lemma clip_ones j n : length j = n → np.clip j (replicate n 1) = replicate n 0.
Proof.
  intros <-. unfold np.clip. induction j as [|x j IH]; [done|]. simpl. by rewrite IH.
Qed.

Lemma clip_app i j (s1 s2 : list nat) :
  length i = length s1 → np.clip (i ++ j) (s1 ++ s2) = np.clip i s1 ++ np.clip j s2.
Proof. intros Hlen. unfold np.clip. by rewrite zip_with_app. Qed.

Lemma in_range_app_inv idx (s1 s2 : list nat) :
  np.in_range idx (s1 ++ s2) →
  ∃ i j, idx = i ++ j ∧ np.in_range i s1 ∧ np.in_range j s2.
Proof. intros (i & j & ? & ? & ->)%Forall2_app_inv_r. eauto. Qed.

Lemma broadcast_shape (s1 s2 : list nat) :
  Forall (λ d, d ≠ 1) s1 →
  zip_with (λ d d', if d =? 1 then d' else d)
    (s1 ++ replicate (length s2) 1) (replicate (length s1) 1 ++ s2)
  = s1 ++ s2.
Proof.
  intros Hs1. rewrite zip_with_app by by rewrite length_replicate. f_equal.
  - induction Hs1 as [|d s Hd _ IH]; [done|]. simpl. rewrite IH.
    by destruct (Nat.eqb_spec d 1).
  - induction s2 as [|d s IH]; [done|]. simpl. by rewrite IH.
Qed.

Lemma broadcast_compatible (s1 s2 : list nat) :
  forallb (λ '(d, d'), (d =? d') || (d =? 1) || (d' =? 1))
    (zip (s1 ++ replicate (length s2) 1) (replicate (length s1) 1 ++ s2)) = true.
Proof.
  rewrite zip_with_app by by rewrite length_replicate.
  rewrite forallb_app. apply andb_true_iff. split.
  - induction s1 as [|d s IH]; [done|]. simpl. rewrite IH.
    by rewrite orb_true_r.
  - induction s2 as [|d s IH]; [done|]. simpl. rewrite IH.
    by rewrite orb_true_r.
Qed.

Lemma outer_lookup (la lb : list Q) p q x y :
  la !! p = Some x → lb !! q = Some y →
  (u ← la; (λ v, (u * v)%Q) <$> lb) !! (p * length lb + q) = Some (x * y)%Q.
Proof.
  intros Hp Hq. revert p Hp. induction la as [|u la IH]; intros p Hp; [done|].
  rewrite bind_cons. destruct p as [|p]; simplify_eq/=.
  - rewrite lookup_app_l by (rewrite length_fmap; by eapply lookup_lt_Some).
    by rewrite list_lookup_fmap, Hq.
  - rewrite lookup_app_r; rewrite length_fmap; [|lia].
    replace (length lb + p * length lb + q - length lb) with (p * length lb + q) by lia.
    by apply IH.
Qed.

Lemma outer_length (la lb : list Q) :
  length (u ← la; (λ v, (u * v)%Q) <$> lb) = length la * length lb.
Proof.
  induction la as [|u la IH]; [done|].
  rewrite bind_cons, length_app, length_fmap, IH. simpl. lia.
Qed.
End numpy_shapes.

Section projection.
Implicit Types (ohs : list (nat * nat)) (self other : MPArray).

Lemma projected_dims_positive ohs ohs' :
  Forall (λ '(o, _), 1 ≤ o) ohs' → Forall (λ '(o, _), 1 ≤ o) (projected_dims ohs ohs').
Proof.
  intros H. revert ohs. induction H as [|[o' h'] l Ho _ IH]; intros [|[o h] ohs];
    try constructor; [by case_bool_decide|apply IH].
Qed.

Lemma init_povm_pdims ohs m : pdims m = povm_pdims ohs → MPPovm.init m = Ok m.
Proof.
  intros Hm. unfold MPPovm.init, mp.plegs. rewrite Hm.
  assert (forallb (Nat.eqb 3) (length <$> povm_pdims ohs) = true) as ->.
  { apply forallb_true_iff. intros n (pd & -> & Hpd)%list_elem_of_fmap.
    apply list_elem_of_fmap in Hpd as ([o h] & -> & _). reflexivity. }
  cbn [assert mbind result_bind].
  assert (forallb (λ pd, bool_decide (pd !! 1 = pd !! 2)) (povm_pdims ohs) = true) as ->.
  { apply forallb_true_iff. intros pd Hpd.
    apply list_elem_of_fmap in Hpd as ([o h] & -> & _). simpl.
    by apply bool_decide_eq_true. }
  done.
Qed.

Lemma project_spec ohs ohs' self other :
  pdims self = povm_pdims ohs → pdims other = povm_pdims ohs' →
  length ohs = length ohs' →
  ∃ projected, MPPovm.project self other = Ok projected ∧
               pdims projected = povm_pdims (projected_dims ohs ohs').
Proof.
  intros Hself Hother Hlen. unfold MPPovm.project. cbv zeta.
  set (d := mp.dot _ _ _).
  assert (pdims d = povm_pdims (projected_dims ohs ohs')) as Hd.
  { subst d. unfold mp.dot. cbn [pdims mp.from_kron].
    rewrite (outdims_povm ohs self), (outdims_povm ohs' other), Hother by done.
    unfold povm_pdims, projected_dims. clear Hself Hother.
    revert ohs' Hlen. induction ohs as [|[o h] ohs IH]; intros [|[o' h'] ohs'] Hlen;
      try done.
    cbn [fmap list_fmap zip_with fst]. f_equal; [|apply IH; by injection Hlen].
    by case_bool_decide. }
  exists d. split; [by apply (init_povm_pdims _ _ Hd)|done].
Qed.
End projection.

Ltac keep_assert H l E :=
  match type of H with
  | context [assert ?b l] =>
      destruct b eqn:E; cbn [assert mbind result_bind] in H; [|done]
  end.

Section prefactors.
Implicit Types (inner snormsq onormsq : np.ndarray Q) (eps : Q) (i j : list nat).

Lemma getitem_lt {A} (a : np.ndarray A) idx :
  well_shaped a → np.in_range idx (np.shape a) → is_Some (np.getitem a idx).
Proof.
  intros Ha Hidx. apply lookup_lt_is_Some. rewrite Ha. by apply ravel_lt.
Qed.

Lemma getitem_broadcast_left {A} (a : np.ndarray A) i j n :
  Forall (λ d, d ≠ 1) (np.shape a) → np.in_range i (np.shape a) → length j = n →
  np.getitem (np.NDArray (np.shape a ++ replicate n 1) (np.flat a))
             (np.clip (i ++ j) (np.shape a ++ replicate n 1)) = np.getitem a i.
Proof.
  intros Ha Hi%in_range_length Hj.
  rewrite clip_app, clip_keep, clip_ones by done.
  unfold np.getitem. cbn [np.shape np.flat].
  rewrite ravel_app, size_ones, ravel_zeros by done. f_equal. lia.
Qed.

Lemma getitem_broadcast_right {A} (a : np.ndarray A) i j n :
  Forall (λ d, d ≠ 1) (np.shape a) → length i = n → np.in_range j (np.shape a) →
  np.getitem (np.NDArray (replicate n 1 ++ np.shape a) (np.flat a))
             (np.clip (i ++ j) (replicate n 1 ++ np.shape a)) = np.getitem a j.
Proof.
  intros Ha Hi Hj%in_range_length.
  rewrite clip_app by (by rewrite length_replicate).
  rewrite (clip_keep j), (clip_ones i) by done.
  unfold np.getitem. cbn [np.shape np.flat].
  rewrite ravel_app, ravel_zeros by (by rewrite !length_replicate). done.
Qed.

Lemma all_positive snormsq x :
  np.all (np.map (λ x, negb (Qle_bool x 0)) snormsq) = true →
  x ∈ np.flat snormsq → (0 < x)%Q.
Proof.
  rewrite np_all_map, forallb_true_iff. intros H Hx.
  specialize (H x Hx). apply negb_true_iff in H.
  destruct (Qlt_le_dec 0 x) as [|Hle]; [done|].
  apply Qle_bool_iff in Hle. congruence.
Qed.

Lemma lookup_fromfunction {A} (f : list nat → A) shape idx :
  np.in_range idx shape →
  np.flat (np.fromfunction f shape) !! np.ravel_multi_index idx shape = Some (f idx).
Proof. apply getitem_fromfunction. Qed.

Lemma getitem_map2 {A B C} (f : A → B → C) (a : np.ndarray A) (b : np.ndarray B)
    idx u v :
  np.getitem a idx = Some u →
  np.flat b !! np.ravel_multi_index idx (np.shape a) = Some v →
  np.getitem (np.map2 f a b) idx = Some (f u v).
Proof.
  intros Hu Hv. unfold np.getitem, np.map2. cbn [np.shape np.flat].
  apply lookup_zip_with_Some. by exists u, v.
Qed.

Lemma pow_half_positive (x y : Q) :
  (0 < x)%Q → (0 < y)%Q → MPPovm.pow_half (x / y) = Sqrt (x / y).
Proof.
  intros Hx Hy. unfold MPPovm.pow_half.
  assert (Qle_bool 0 (x / y) = true) as ->; [|done].
  apply Qle_bool_iff, Qle_shift_div_l; [done|]. lra.
Qed.

Lemma match_prefactors_spec inner snormsq onormsq eps match_ prefactors :
  well_shaped inner → well_shaped snormsq → well_shaped onormsq →
  Forall (λ d, d ≠ 1) (np.shape snormsq) → Forall (λ d, d ≠ 1) (np.shape onormsq) →
  MPPovm.match_prefactors inner snormsq onormsq eps = Ok (match_, prefactors) →
  np.shape match_ = np.shape snormsq ++ np.shape onormsq ∧
  np.shape prefactors = np.shape snormsq ++ np.shape onormsq ∧
  ∀ i j x y,
    np.in_range i (np.shape snormsq) → np.in_range j (np.shape onormsq) →
    np.getitem snormsq i = Some x → np.getitem onormsq j = Some y →
    (0 < x)%Q ∧ (0 < y)%Q ∧
    ∃ b u, np.getitem inner (i ++ j) = Some u ∧
           b = abs_le (u / (x * y) - 1) eps ∧
           np.getitem match_ (i ++ j) = Some b ∧
           np.getitem prefactors (i ++ j) = Some (if b then Sqrt (x / y) else NaN).
Proof.
  intros Hinner Hs Ho Hs1 Ho1 H. unfold MPPovm.match_prefactors in H.
  keep_assert H 216 E216. keep_assert H 217 E217. keep_assert H 218 E218.
  apply bool_decide_eq_true in E218.
  destruct (np.reshape (np.outer _ _) _) as [normprod|] eqn:Eouter;
    cbn [mbind result_bind] in H; [|done].
  keep_assert H 221 E221.
  destruct (np.reshape snormsq _) as [s'|] eqn:Es;
    cbn [mbind result_bind] in H; [|done].
  destruct (np.reshape onormsq _) as [o'|] eqn:Eo;
    cbn [mbind result_bind] in H; [|done].
  unfold np.reshape in Eouter, Es, Eo. cbn [np.flat np.outer] in Eouter.
  destruct (bool_decide_reflect (np.size (np.shape inner) = length
              (np.flat snormsq ≫= λ x : Q, (λ y : Q, (x * y)%Q) <$> np.flat onormsq)))
    as [Houter|]; [|done].
  repeat (case_bool_decide; [|done]).
  injection Eouter as <-. injection Es as <-. injection Eo as <-.
  unfold np.divide, np.ndim in H. cbn [np.shape np.flat] in H.
  rewrite broadcast_compatible, bool_decide_eq_true_2 in H
    by (rewrite !length_app, !length_replicate; unfold np.ndim; lia).
  cbn [andb mbind result_bind] in H.
  rewrite broadcast_shape in H by done.
  keep_assert H 231 E231. injection H as <- <-.
  cbn [np.map2 np.map np.shape np.fromfunction]. rewrite E218.
  split; [done|]. split; [done|].
  intros i j x y Hi Hj Hx Hy.
  assert (0 < x)%Q as Hxpos
    by (apply (all_positive snormsq x E216); unfold np.getitem in Hx; by eapply list_elem_of_lookup_2).
  assert (0 < y)%Q as Hypos
    by (apply (all_positive onormsq y E217); unfold np.getitem in Hy; by eapply list_elem_of_lookup_2).
  split; [done|]. split; [done|].
  pose proof (in_range_app _ _ _ _ Hi Hj) as Hij.
  pose proof (ravel_lt _ _ Hij) as Hlt.
  destruct (lookup_lt_is_Some_2 (np.flat inner)
              (np.ravel_multi_index (i ++ j) (np.shape inner))) as [u Hu].
  { rewrite Hinner, E218. done. }
  destruct (lookup_lt_is_Some_2
              (np.flat snormsq ≫= λ x : Q, (λ y : Q, (x * y)%Q) <$> np.flat onormsq)
              (np.ravel_multi_index (i ++ j) (np.shape inner))) as [v Hv].
  { rewrite <- Houter, E218. done. }
  assert (v = (x * y)%Q) as ->.
  { rewrite E218, ravel_app in Hv by by apply in_range_length.
    rewrite <- Ho in Hv. rewrite (outer_lookup _ _ _ _ x y) in Hv by done.
    by injection Hv. }
  exists (abs_le (u / (x * y) - 1) eps), u.
  split; [exact Hu|]. split; [done|].
  assert (np.getitem
            (np.map2 (λ a b : Q, abs_le (a / b - 1) eps) inner
               (np.NDArray (np.shape snormsq ++ np.shape onormsq)
                  (np.flat snormsq ≫= λ x : Q, (λ y : Q, (x * y)%Q) <$> np.flat onormsq)))
            (i ++ j) = Some (abs_le (u / (x * y) - 1) eps)) as Hmatch.
  { by apply (getitem_map2 (λ a b : Q, abs_le (a / b - 1) eps)). }
  split; [done|].
  rewrite <- (pow_half_positive x y) by done.
  apply (getitem_map2 (λ (m : bool) p, if m then p else NaN)); [done|].
  cbn [np.shape np.map2 np.map np.flat]. rewrite list_lookup_fmap.
  rewrite E218.
  rewrite lookup_fromfunction by done. cbn [fmap option_fmap option_map].
  rewrite (getitem_broadcast_left snormsq), (getitem_broadcast_right onormsq), Hx, Hy;
    try done; by apply in_range_length.
Qed.

Lemma reshape_ok {A} (a : np.ndarray A) newshape :
  np.size newshape = length (np.flat a) →
  np.reshape a newshape = Ok (np.NDArray newshape (np.flat a)).
Proof. intros H. unfold np.reshape. by rewrite bool_decide_eq_true_2. Qed.

Lemma match_prefactors_ok inner snormsq onormsq eps :
  well_shaped inner → well_shaped snormsq → well_shaped onormsq →
  Forall (λ d, d ≠ 1) (np.shape snormsq) → Forall (λ d, d ≠ 1) (np.shape onormsq) →
  np.shape inner = np.shape snormsq ++ np.shape onormsq →
  (∀ x, x ∈ np.flat snormsq → (0 < x)%Q) →
  (∀ y, y ∈ np.flat onormsq → (0 < y)%Q) →
  (∀ i j x y u,
     np.in_range i (np.shape snormsq) → np.in_range j (np.shape onormsq) →
     np.getitem snormsq i = Some x → np.getitem onormsq j = Some y →
     np.getitem inner (i ++ j) = Some u → (- eps <= (x * y - u) / (x * y))%Q) →
  is_ok (MPPovm.match_prefactors inner snormsq onormsq eps) = true.
Proof.
  intros Hinner Hs Ho Hs1 Ho1 Hshape Hspos Hopos Hcs.
  assert (∀ a : np.ndarray Q, (∀ x, x ∈ np.flat a → (0 < x)%Q) →
            np.all (np.map (λ x, negb (Qle_bool x 0)) a) = true) as Hall.
  { intros a Ha. rewrite np_all_map. apply forallb_true_iff. intros x Hx.
    apply negb_true_iff. destruct (Qle_bool x 0) eqn:E; [|done].
    apply Qle_bool_iff in E. specialize (Ha x Hx). lra. }
  unfold MPPovm.match_prefactors.
  rewrite !Hall by done. cbn [assert mbind result_bind].
  rewrite bool_decide_eq_true_2 by done. cbn [assert mbind result_bind].
  rewrite (reshape_ok (np.outer snormsq onormsq))
    by (cbn [np.outer np.flat]; by rewrite outer_length, Hshape, size_app, Hs, Ho).
  cbn [mbind result_bind np.outer np.flat].
  assert (np.all (np.map2 (λ n a : Q, Qle_bool (- eps) ((n - a) / n))
            (np.NDArray (np.shape inner)
               (np.flat snormsq ≫= λ x : Q, (λ y : Q, (x * y)%Q) <$> np.flat onormsq))
            inner) = true) as ->.
  { unfold np.all, np.map2. cbn [np.flat]. apply forallb_true_iff.
    intros b (n & Hn)%list_elem_of_lookup_1.
    apply lookup_zip_with_Some in Hn as (v & u & -> & Hv & Hu).
    pose proof (lookup_lt_Some _ _ _ Hu) as Hlt. rewrite Hinner, Hshape in Hlt.
    pose proof (unravel_index_in_range _ _ Hlt) as Hidx.
    apply in_range_app_inv in Hidx as (i & j & Hij & Hi & Hj).
    pose proof (ravel_unravel _ _ Hlt) as Hn. rewrite Hij in Hn.
    destruct (getitem_lt snormsq i Hs Hi) as [x Hx].
    destruct (getitem_lt onormsq j Ho Hj) as [y Hy].
    rewrite <- Hn, ravel_app in Hv by by apply in_range_length.
    rewrite <- Ho in Hv. rewrite (outer_lookup _ _ _ _ x y) in Hv by done.
    injection Hv as <-. apply Qle_bool_iff, (Hcs i j); try done.
    unfold np.getitem. by rewrite Hshape, Hn. }
  cbn [assert mbind result_bind].
  unfold np.ndim.
  rewrite !reshape_ok by (rewrite size_app, size_ones; unfold well_shaped in *; lia).
  cbn [mbind result_bind].
  unfold np.divide. cbn [np.shape np.flat].
  rewrite broadcast_compatible, bool_decide_eq_true_2
    by (rewrite !length_app, !length_replicate; lia).
  cbn [andb mbind result_bind]. rewrite broadcast_shape by done.
  rewrite bool_decide_eq_true_2 by done. done.
Qed.
End prefactors.

Section matching.
Implicit Types (ohs : list (nat * nat)) (self other a : MPArray) (idx os : list nat).

Lemma informative_not_one os : Forall (λ d, d ≠ 1) (informative os).
Proof. apply Forall_forall. by intros d [? _]%list_elem_of_filter. Qed.

Lemma in_range_informative os idx :
  np.in_range idx (informative os) → Forall (λ o, 1 ≤ o) os.
Proof.
  unfold informative. revert idx. induction os as [|o os IH]; intros idx Hidx; [done|].
  rewrite filter_cons in Hidx. case_decide as Ho.
  - apply Forall2_cons_inv_r in Hidx as (i & idx' & Hi & Hidx' & ->).
    constructor; [lia|by eapply IH].
  - constructor; [lia|by eapply IH].
Qed.

Lemma well_shaped_fromfunction {A} (f : list nat → A) shape :
  well_shaped (np.fromfunction f shape).
Proof.
  unfold well_shaped. cbn [np.fromfunction np.flat np.shape].
  by rewrite length_fmap, length_seq.
Qed.

Lemma well_shaped_map {A B} (f : A → B) (arr : np.ndarray A) :
  well_shaped arr → well_shaped (np.map f arr).
Proof. unfold well_shaped. cbn [np.map np.flat np.shape]. by rewrite length_fmap. Qed.

Lemma normsq_array ohs a :
  pdims a = povm_pdims ohs →
  let arr := np.map re (mp.to_array (mp.prune (MPPovm.normsq a) true)) in
  np.shape arr = informative (fst <$> ohs) ∧ well_shaped arr ∧
  ∀ idx, np.in_range idx (informative (fst <$> ohs)) →
    ∃ x, np.getitem arr idx = Some x ∧
         (x == norm_squared a (expand (fst <$> ohs) idx))%Q.
Proof.
  intros Ha arr. destruct (normsq_spec ohs a Ha) as [Hpd Hre].
  destruct (pruned_array (fst <$> ohs) _ Hpd) as (Hshape & _ & Hget).
  split; [done|]. split; [apply well_shaped_map, well_shaped_fromfunction|].
  intros idx Hidx. eexists. split.
  - unfold arr, np.getitem. cbn [np.map np.shape np.flat].
    rewrite list_lookup_fmap. specialize (Hget idx Hidx).
    unfold np.getitem in Hget. rewrite Hget. done.
  - apply Hre, expand_in_range; [|done]. by eapply in_range_informative.
Qed.

Lemma hdims_length ohs ohs' self other :
  pdims self = povm_pdims ohs → pdims other = povm_pdims ohs' →
  MPPovm.hdims self = MPPovm.hdims other → length ohs = length ohs'.
Proof.
  intros Hs Ho H%(f_equal length). unfold MPPovm.hdims in H.
  rewrite Hs, Ho in H. unfold povm_pdims in H. by rewrite !length_fmap in H.
Qed.

(** C6.  In a result of [find_matching_elements], the two arrays are
    indexed by the outcomes of [self] and of the projected [other].  At a
    matched pair the prefactor is the square root of the ratio of the
    squared norms of the two elements, a positive number; at any other
    pair it is [NaN]. *)
Theorem matching_prefactors ohs ohs' self other eps sites match_ prefactors :
  pdims self = povm_pdims ohs → pdims other = povm_pdims ohs' →
  MPPovm.find_matching_elements self other eps = Ok (sites, match_, prefactors) →
  ∃ projected,
    MPPovm.project self other = Ok projected ∧
    let outs := informative (MPPovm.outdims self) in
    let outs' := informative (MPPovm.outdims projected) in
    np.shape match_ = outs ++ outs' ∧ np.shape prefactors = outs ++ outs' ∧
    ∀ i j, np.in_range i outs → np.in_range j outs' →
      ∃ b, np.getitem match_ (i ++ j) = Some b ∧
           if b
           then ∃ r, np.getitem prefactors (i ++ j) = Some (Sqrt r) ∧ (0 < r)%Q ∧
                     (r == norm_squared self (expand (MPPovm.outdims self) i) /
                          norm_squared projected
                            (expand (MPPovm.outdims projected) j))%Q
           else np.getitem prefactors (i ++ j) = Some NaN.
Proof.
  intros Hself Hother H. unfold MPPovm.find_matching_elements in H.
  case_bool_decide as Hh; [|done]. cbn [mbind result_bind] in H.
  pose proof (hdims_length _ _ _ _ Hself Hother Hh) as Hlen.
  destruct (project_spec ohs ohs' self other Hself Hother Hlen)
    as (projected & Hproj & Hpd).
  exists projected. split; [done|]. rewrite Hproj in H. cbn [mbind result_bind] in H.
  destruct (MPPovm.match_prefactors _ _ _ _) as [[m p]|] eqn:E; [|done].
  cbn [mbind result_bind] in H. injection H as _ <- <-.
  destruct (normsq_array ohs self Hself) as (Hs & Hsw & Hsv).
  destruct (normsq_array _ projected Hpd) as (Ho & How & Hov).
  rewrite <- (outdims_povm ohs self Hself) in Hs, Hsv.
  rewrite <- (outdims_povm _ projected Hpd) in Ho, Hov.
  apply match_prefactors_spec in E as (Hm & Hp & Hval);
    [|apply well_shaped_map, well_shaped_fromfunction|done|done
     |rewrite Hs; apply informative_not_one|rewrite Ho; apply informative_not_one].
  rewrite Hs, Ho in Hm, Hp, Hval. cbv zeta. split; [done|]. split; [done|].
  intros i j Hi Hj.
  destruct (Hsv i Hi) as (x & Hx & Hxv). destruct (Hov j Hj) as (y & Hy & Hyv).
  destruct (Hval i j x y Hi Hj Hx Hy) as (Hxpos & Hypos & b & u & _ & _ & Hb & Hpre).
  exists b. split; [done|]. destruct b; [|done].
  exists (x / y)%Q. split; [done|]. split.
  - apply Qlt_shift_div_l; [done|]. lra.
  - by rewrite Hxv, Hyv.
Qed.
End matching.

(** ** A POVM matched with itself *)

Section self_projection.
Implicit Types (ohs : list (nat * nat)) (self : MPArray) (ks os : list nat)
  (cs : list (list nat)).

Lemma project_factors os :
  zip_with (λ (keep : bool) outdim, if keep then np.eye outdim else np.ones [1; outdim])
    ((λ outdim, bool_decide (1 < outdim)) <$> os) os = selector <$> os.
Proof. induction os as [|o os IH]; [done|]. csimpl. by rewrite IH. Qed.

Lemma selector_shape o : 1 ≤ o → np.shape (selector o) = [o; o].
Proof.
  intros Ho. unfold selector. case_bool_decide; [done|].
  by replace o with 1 by lia.
Qed.

Lemma selector_entry o k c :
  k < o → np.in_range c [o] →
  default cx.zero (np.getitem (selector o) (k :: c))
  = if decide (c = [k]) then cx.one else cx.zero.
Proof.
  intros Hk Hc.
  apply Forall2_cons_inv_r in Hc as (x & c' & Hx & Hc' & ->).
  apply Forall2_nil_inv_r in Hc' as ->.
  unfold selector. case_bool_decide as Ho.
  - unfold np.eye. rewrite getitem_fromfunction by by repeat constructor.
    simpl. destruct (Nat.eqb_spec k x) as [-> | ?]; case_decide; simplify_eq; done.
  - replace o with 1 in * by lia. replace k with 0 by lia. replace x with 0 by lia.
    by rewrite decide_True.
Qed.

Lemma selector_pdims os :
  Forall (λ o, 1 ≤ o) os → pdims (mp.from_kron (selector <$> os)) = square_pdims os.
Proof.
  intros Hos. unfold mp.from_kron, square_pdims. cbn [pdims].
  rewrite <- list_fmap_compose. apply Forall_fmap_ext_1.
  eapply Forall_impl; [done|]. intros o Ho. by apply selector_shape.
Qed.

Lemma projected_dims_self ohs :
  Forall (λ '(o, _), 1 ≤ o) ohs → projected_dims ohs ohs = ohs.
Proof.
  unfold projected_dims. induction 1 as [|[o h] l Ho _ IH]; [done|].
  cbn [zip_with]. rewrite IH. f_equal. case_bool_decide; [done|].
  f_equal. lia.
Qed.

Lemma square_dims_in_range ohs cs :
  mp.in_range cs (square_dims ohs) →
  Forall2 (λ '(_, h) c, ∃ x y, c = [x; y] ∧ x < h ∧ y < h) ohs cs.
Proof.
  unfold mp.in_range, square_dims. revert cs.
  induction ohs as [|[o h] l IH]; intros cs Hcs.
  - apply Forall2_nil_inv_r in Hcs as ->. constructor.
  - rewrite fmap_cons in Hcs.
    apply Forall2_cons_inv_r in Hcs as (c & cs' & Hc & Hcs' & ->).
    constructor; [|by apply IH].
    apply Forall2_cons_inv_r in Hc as (x & c' & Hx & Hc' & ->).
    apply Forall2_cons_inv_r in Hc' as (y & c'' & Hy & Hc'' & ->).
    apply Forall2_nil_inv_r in Hc'' as ->. eauto.
Qed.

Lemma sing_in_range os cs :
  mp.in_range cs (sing os) → Forall2 (λ o c, ∃ x, c = [x] ∧ x < o) os cs.
Proof.
  unfold mp.in_range, sing. revert cs.
  induction os as [|o l IH]; intros cs Hcs.
  - apply Forall2_nil_inv_r in Hcs as ->. constructor.
  - rewrite fmap_cons in Hcs.
    apply Forall2_cons_inv_r in Hcs as (c & cs' & Hc & Hcs' & ->).
    constructor; [|by apply IH].
    apply Forall2_cons_inv_r in Hc as (x & c' & Hx & Hc' & ->).
    apply Forall2_nil_inv_r in Hc' as ->. eauto.
Qed.

Lemma project_summed_dims os :
  zip_with mp.summed_dims (square_pdims os)
    ((λ pd, mp.axes_of pd mp.default_axes.1) <$> square_pdims os)
  = sing os.
Proof.
  unfold square_pdims, sing. induction os as [|o l IH]; [done|].
  rewrite !fmap_cons. cbn [zip_with]. by rewrite IH.
Qed.

Lemma project_fill_left ohs ks (ab cs : list (list nat)) :
  length ks = length ohs → mp.in_range ab (square_dims ohs) →
  mp.in_range cs (sing (fst <$> ohs)) →
  zip_with (λ '(pd, ax) '(i, c),
              mp.fill_axes (length pd) 0 ax (take (length pd - length ax) i) c)
    (zip (square_pdims (fst <$> ohs))
         ((λ pd, mp.axes_of pd mp.default_axes.1) <$> square_pdims (fst <$> ohs)))
    (zip (zip_with cons ks ab) cs)
  = zip_with cons ks cs.
Proof.
  intros Hks Hab%square_dims_in_range Hcs%sing_in_range. revert ks cs Hks Hcs.
  unfold square_pdims.
  induction Hab as [|[o h] c l ab' (x & y & -> & Hx & Hy) _ IH];
    intros [|k ks] cs Hks Hcs; try done.
  rewrite !fmap_cons in Hcs.
  apply Forall2_cons_inv_l in Hcs as (c & cs' & (z & -> & Hz) & Hcs' & ->).
  rewrite !fmap_cons. cbn [zip_with zip fst].
  f_equal. apply IH; [by injection Hks|done].
Qed.

Lemma project_fill_right ohs ks (ab cs : list (list nat)) :
  length ks = length ohs → mp.in_range ab (square_dims ohs) →
  mp.in_range cs (sing (fst <$> ohs)) →
  zip_with (λ '(pd, ax) '(i, c),
              mp.fill_axes (length pd) 0 ax
                (drop (length i - (length pd - length ax)) i) c)
    (zip (povm_pdims ohs)
         ((λ pd, mp.axes_of pd mp.default_axes.2) <$> povm_pdims ohs))
    (zip (zip_with cons ks ab) cs)
  = zip_with app cs ab.
Proof.
  intros Hks Hab%square_dims_in_range Hcs%sing_in_range. revert ks cs Hks Hcs.
  unfold povm_pdims.
  induction Hab as [|[o h] c l ab' (x & y & -> & Hx & Hy) _ IH];
    intros [|k ks] cs Hks Hcs; try done.
  { by apply Forall2_nil_inv_l in Hcs as ->. }
  rewrite !fmap_cons in Hcs.
  apply Forall2_cons_inv_l in Hcs as (c & cs' & (z & -> & Hz) & Hcs' & ->).
  rewrite !fmap_cons. cbn [zip_with zip fst].
  f_equal. apply IH; [by injection Hks|done].
Qed.

Lemma project_entry ohs self ks (ab : list (list nat)) :
  Forall (λ '(o, _), 1 ≤ o) ohs → pdims self = povm_pdims ohs →
  np.in_range ks (fst <$> ohs) → mp.in_range ab (square_dims ohs) →
  entry (mp.dot (mp.from_kron (selector <$> (fst <$> ohs))) self mp.default_axes)
        (zip_with cons ks ab)
  ≃ entry self (zip_with cons ks ab).
Proof.
  intros Hohs Hself Hks Hab.
  assert (Forall (λ o, 1 ≤ o) (fst <$> ohs)) as Hos.
  { apply Forall_fmap. eapply Forall_impl; [done|]. by intros [o h]. }
  pose proof (in_range_length _ _ Hks) as Hlen. rewrite length_fmap in Hlen.
  unfold mp.dot. cbn [entry]. rewrite selector_pdims, Hself, project_summed_dims by done.
  etrans.
  { apply sum_sites_ext. intros cs Hcs.
    rewrite project_fill_left, project_fill_right by done. done. }
  replace (zip_with cons ks ab) with (zip_with app (sing ks) ab).
  2: { clear. revert ab. unfold sing.
       induction ks as [|k ks IH]; intros [|c ab]; try done.
       rewrite fmap_cons. cbn [zip_with app]. f_equal. apply IH. }
  etrans; [|apply (sum_sites_indicators (sing (fst <$> ohs)) (sing ks)
              (zip_with (λ o k c, default cx.zero (np.getitem (selector o) (k :: c)))
                        (fst <$> ohs) ks)
              (λ cs, entry self (zip_with app cs ab)))].
  - apply sum_sites_ext. intros cs Hcs%sing_in_range. f_equal.
    unfold mp.from_kron. cbn [entry]. f_equal.
    clear Hself Hab Hos Hlen Hohs. revert cs Hcs.
    induction Hks as [|k o ks os Hk _ IH]; intros cs Hcs.
    + by apply Forall2_nil_inv_l in Hcs as ->.
    + apply Forall2_cons_inv_l in Hcs as (c & cs' & _ & Hcs' & ->).
      rewrite fmap_cons. cbn [zip_with]. f_equal. by apply IH.
  - clear Hself Hab Hlen Hohs. unfold sing.
    induction Hks as [|k o ks os Hk _ IH]; [constructor|].
    rewrite !fmap_cons. cbn [zip_with]. apply Forall_cons in Hos as [Ho Hos].
    constructor; [|by apply IH].
    split; [by repeat constructor|]. intros c Hc. by apply selector_entry.
Qed.
End self_projection.

Section global_arrays.
Implicit Types (os ns i j : list nat) (g : MPArray).

Lemma prune_pairs_pdims os :
  filter (λ pd, mp.prunable true pd = false) (square_pdims os)
  = square_pdims (informative os).
Proof.
  unfold informative, square_pdims. induction os as [|o os IH]; [done|].
  rewrite fmap_cons, !filter_cons, IH.
  change (mp.prunable true [o; o]) with ((1 =? o) && ((1 =? o) && true)).
  destruct (Nat.eqb_spec 1 o); repeat case_decide; simplify_eq/=; done.
Qed.

Lemma unprune_pairs os i j :
  length i = length (informative os) → length j = length (informative os) →
  mp.unprune true (square_pdims os) (zip_with (λ a b, [a; b]) i j)
  = zip_with (λ a b, [a; b]) (expand os i) (expand os j).
Proof.
  revert i j. unfold informative, square_pdims.
  induction os as [|o os IH]; intros i j Hi Hj; [done|].
  rewrite fmap_cons. cbn [mp.unprune expand].
  change (mp.prunable true [o; o]) with ((1 =? o) && ((1 =? o) && true)).
  rewrite filter_cons in Hi, Hj. rewrite (Nat.eqb_sym 1 o).
  destruct (Nat.eqb_spec o 1) as [-> | Hne]; cbn [andb].
  - rewrite decide_False in Hi, Hj by (intros H; by apply H).
    cbn [zip_with]. f_equal. by apply IH.
  - rewrite decide_True in Hi, Hj by done.
    destruct i as [|a i]; [done|]. destruct j as [|b j]; [done|].
    cbn [zip_with]. f_equal. apply IH; [by injection Hi|by injection Hj].
Qed.

Lemma global_shape_pairs g ns :
  pdims g = square_pdims ns → mp.global_shape g = ns ++ ns.
Proof.
  intros Hg. unfold mp.global_shape, mp.legs, mp.plegs. rewrite Hg.
  destruct ns as [|n ns]; [done|].
  unfold square_pdims. rewrite !fmap_cons. cbn [head default from_option length seq].
  change (seq 0 (id 2)) with [0; 1].
  rewrite !bind_cons. change ([] ≫= _) with (@nil nat). rewrite app_nil_r, !fmap_cons.
  cbn [lookup list_lookup default from_option]. unfold id.
  rewrite <- !list_fmap_compose.
  assert (∀ f : nat → nat, (∀ o, f o = o) → f <$> ns = ns) as Hid.
  { intros f Hf. rewrite <- (list_fmap_id ns) at 2. by apply list_fmap_ext. }
  by rewrite !Hid.
Qed.

Lemma local_index_pairs n i j :
  length i = n → length j = n →
  mp.local_index n 2 (i ++ j) = zip_with (λ a b, [a; b]) i j.
Proof.
  intros Hi Hj. unfold mp.local_index. apply list_eq. intros s.
  rewrite list_lookup_fmap, lookup_zip_with.
  destruct (decide (s < n)) as [Hs|Hs].
  - rewrite lookup_seq_lt by done.
    destruct (lookup_lt_is_Some_2 i s) as [a Ha]; [lia|].
    destruct (lookup_lt_is_Some_2 j s) as [b Hb]; [lia|].
    rewrite Ha, Hb. cbn [fmap option_fmap option_map mbind option_bind seq list_fmap].
    replace (0 * n + (0 + s)) with s by lia.
    rewrite lookup_app_l, Ha by lia.
    rewrite lookup_app_r by lia.
    replace (1 * n + (0 + s) - length i) with s by lia. by rewrite Hb.
  - rewrite lookup_seq_ge by lia.
    rewrite (lookup_ge_None_2 i) by lia. done.
Qed.

Lemma pruned_global_array os g :
  pdims g = square_pdims os →
  np.shape (mp.to_array_global (mp.prune g true)) = informative os ++ informative os ∧
  ∀ i j, np.in_range i (informative os) → np.in_range j (informative os) →
    np.getitem (mp.to_array_global (mp.prune g true)) (i ++ j)
    = Some (entry g (zip_with (λ a b, [a; b]) (expand os i) (expand os j))).
Proof.
  intros Hg.
  assert (pdims (mp.prune g true) = square_pdims (informative os)) as Hp.
  { unfold mp.prune. cbn [pdims]. by rewrite Hg, prune_pairs_pdims. }
  unfold mp.to_array_global. cbn [np.shape np.fromfunction].
  rewrite (global_shape_pairs _ _ Hp). split; [done|].
  intros i j Hi Hj. rewrite getitem_fromfunction by by apply in_range_app.
  apply in_range_length in Hi, Hj. f_equal.
  unfold mp.prune at 1. cbn [entry]. rewrite Hg, <- unprune_pairs by done. f_equal.
  unfold mp.len, mp.legs, mp.plegs. rewrite Hp.
  destruct (informative os) as [|n ns] eqn:E.
  - by destruct i, j.
  - unfold square_pdims. rewrite !fmap_cons. cbn [head default from_option length].
    unfold id. rewrite length_fmap.
    change (length [n; n]) with 2. by rewrite local_index_pairs.
Qed.
End global_arrays.

Section cauchy_schwarz.
Local Open Scope Q_scope.

Lemma sq_nonneg (t : Q) : 0 <= t * t.
Proof. destruct (Qlt_le_dec t 0); nra. Qed.

Lemma mul_le_mono_nonneg (p q r s : Q) : 0 <= p → p <= q → 0 <= r → r <= s → p * r <= q * s.
Proof. intros. nra. Qed.

Lemma cs_step (a a' b b' cr ci cr' ci' : Q) :
  0 <= a → 0 <= a' → 0 <= b → 0 <= b' →
  cr * cr + ci * ci <= a * b → cr' * cr' + ci' * ci' <= a' * b' →
  (cr + cr') * (cr + cr') + (ci + ci') * (ci + ci') <= (a + a') * (b + b').
Proof.
  intros Ha Ha' Hb Hb' H H'.
  set (X := a * b' + a' * b). set (Y := cr * cr' + ci * ci').
  assert (Y * Y <= (cr * cr + ci * ci) * (cr' * cr' + ci' * ci')) as H1.
  { pose proof (sq_nonneg (cr * ci' - ci * cr')) as Hs.
    assert ((cr * cr + ci * ci) * (cr' * cr' + ci' * ci')
            == Y * Y + (cr * ci' - ci * cr') * (cr * ci' - ci * cr')) as -> by (unfold Y; ring).
    lra. }
  assert ((cr * cr + ci * ci) * (cr' * cr' + ci' * ci') <= (a * b) * (a' * b')) as H2.
  { apply mul_le_mono_nonneg; try assumption.
    - pose proof (sq_nonneg cr). pose proof (sq_nonneg ci). lra.
    - pose proof (sq_nonneg cr'). pose proof (sq_nonneg ci'). lra. }
  assert (4 * ((a * b) * (a' * b')) <= X * X) as H3.
  { pose proof (sq_nonneg (a * b' - a' * b)) as Hs.
    assert (X * X == 4 * ((a * b) * (a' * b')) + (a * b' - a' * b) * (a * b' - a' * b))
      as -> by (unfold X; ring).
    lra. }
  assert (0 <= X) as HX.
  { unfold X. pose proof (Qmult_le_0_compat _ _ Ha Hb'). pose proof (Qmult_le_0_compat _ _ Ha' Hb). lra. }
  assert (2 * Y <= X) as H4.
  { destruct (Qlt_le_dec X (2 * Y)) as [Hlt|]; [|assumption]. exfalso.
    assert (X * X < (2 * Y) * (2 * Y)) by nra.
    assert ((2 * Y) * (2 * Y) == 4 * (Y * Y)) as E by ring. rewrite E in *. lra. }
  assert ((cr + cr') * (cr + cr') + (ci + ci') * (ci + ci')
          == (cr * cr + ci * ci) + (cr' * cr' + ci' * ci') + 2 * Y) as -> by (unfold Y; ring).
  assert ((a + a') * (b + b') == a * b + a' * b' + X) as -> by (unfold X; ring).
  lra.
Qed.

Lemma dominated_zero : dominated cx.zero cx.zero cx.zero.
Proof. unfold dominated, cx.abs2. simpl. lra. Qed.

Lemma dominated_add A B C A' B' C' :
  dominated A B C → dominated A' B' C' →
  dominated (cx.add A A') (cx.add B B') (cx.add C C').
Proof.
  intros (HA & HB & Ha & Hb & H) (HA' & HB' & Ha' & Hb' & H').
  unfold dominated, cx.abs2 in *. cbn [cx.add re im].
  repeat split; try lra. by apply cs_step.
Qed.

Lemma dominated_term (a b : complex) :
  dominated (cx.of_real (cx.abs2 a)) (cx.of_real (cx.abs2 b)) (cx.mul (cx.conj a) b).
Proof.
  unfold dominated, cx.abs2. cbn [cx.of_real cx.mul cx.conj re im].
  pose proof (sq_nonneg (re a)). pose proof (sq_nonneg (im a)).
  pose proof (sq_nonneg (re b)). pose proof (sq_nonneg (im b)).
  repeat split; lra.
Qed.

Lemma sum_n_dominated n (f g h : nat → complex) :
  (∀ k, dominated (f k) (g k) (h k)) →
  dominated (cx.sum_n n f) (cx.sum_n n g) (cx.sum_n n h).
Proof.
  intros H. unfold cx.sum_n. induction (seq 0 n) as [|k l IH].
  - apply dominated_zero.
  - rewrite !fmap_cons. cbn [foldr]. by apply dominated_add.
Qed.

Lemma sum_over_dominated ds (f g h : list nat → complex) :
  (∀ idx, dominated (f idx) (g idx) (h idx)) →
  dominated (cx.sum_over ds f) (cx.sum_over ds g) (cx.sum_over ds h).
Proof.
  revert f g h. induction ds as [|d ds IH]; intros f g h H; cbn [cx.sum_over]; [done|].
  apply sum_n_dominated. intros k. by apply IH.
Qed.

Lemma sum_sites_dominated shapes (f g h : list (list nat) → complex) :
  (∀ cs, dominated (f cs) (g cs) (h cs)) →
  dominated (cx.sum_sites shapes f) (cx.sum_sites shapes g) (cx.sum_sites shapes h).
Proof.
  revert f g h. induction shapes as [|s l IH]; intros f g h H; cbn [cx.sum_sites]; [done|].
  apply sum_over_dominated. intros c. by apply IH.
Qed.

(** The Cauchy-Schwarz inequality for the elements of two POVMs on the
    same Hilbert space. *)
Lemma inner_product_bound (a b : MPArray) (i j : list nat) :
  MPPovm.hdims a = MPPovm.hdims b →
  cx.abs2 (inner_product a b i j) <= norm_squared a i * norm_squared b j.
Proof.
  intros Hh. unfold inner_product, norm_squared. rewrite <- Hh.
  apply (sum_sites_dominated _
           (λ cs, cx.of_real (cx.abs2 (entry a (zip_with cons i cs))))
           (λ cs, cx.of_real (cx.abs2 (entry b (zip_with cons j cs))))
           (λ cs, cx.mul (cx.conj (entry a (zip_with cons i cs)))
                         (entry b (zip_with cons j cs)))).
  intros cs. apply dominated_term.
Qed.
End cauchy_schwarz.

Section self_matching.
Implicit Types (ohs : list (nat * nat)) (self : MPArray) (ix jx : list nat).

Lemma cx_conj_proper z w : z ≃ w → cx.conj z ≃ cx.conj w.
Proof. intros [Hr Hi]. split; cbn [cx.conj re im]; [done|]. by rewrite Hi. Qed.

Lemma cx_abs2_proper z w : z ≃ w → (cx.abs2 z == cx.abs2 w)%Q.
Proof. intros [Hr Hi]. unfold cx.abs2. by rewrite Hr, Hi. Qed.

Lemma cx_of_real_proper (x y : Q) : (x == y)%Q → cx.of_real x ≃ cx.of_real y.
Proof. intros H. by split. Qed.

Lemma abs_le_proper (x y eps : Q) : (x == y)%Q → abs_le x eps = abs_le y eps.
Proof.
  intros H. unfold abs_le.
  destruct (Qle_bool (Qabs y) eps) eqn:E.
  - apply Qle_bool_iff. apply Qle_bool_iff in E. by rewrite H.
  - destruct (Qle_bool (Qabs x) eps) eqn:E'; [|done].
    apply Qle_bool_iff in E'. rewrite H in E'. apply Qle_bool_iff in E'. congruence.
Qed.

Lemma hdims_povm ohs self :
  pdims self = povm_pdims ohs → (λ h, [h; h]) <$> MPPovm.hdims self = square_dims ohs.
Proof.
  intros Ha. unfold MPPovm.hdims. rewrite Ha. unfold povm_pdims, square_dims.
  rewrite <- !list_fmap_compose. apply list_fmap_ext. by intros ? [o h] _.
Qed.

Lemma project_self ohs self :
  Forall (λ '(o, _), 1 ≤ o) ohs → pdims self = povm_pdims ohs →
  ∃ projected,
    MPPovm.project self self = Ok projected ∧ pdims projected = povm_pdims ohs ∧
    ∀ ks ab, np.in_range ks (fst <$> ohs) → mp.in_range ab (square_dims ohs) →
      entry projected (zip_with cons ks ab) ≃ entry self (zip_with cons ks ab).
Proof.
  intros Hohs Hself.
  destruct (project_spec ohs ohs self self Hself Hself eq_refl)
    as (projected & Hproj & Hpd).
  rewrite projected_dims_self in Hpd by done.
  exists projected. split; [done|]. split; [done|]. intros ks ab Hks Hab.
  unfold MPPovm.project in Hproj. cbv zeta in Hproj.
  rewrite (outdims_povm ohs self Hself), project_factors in Hproj.
  rewrite (init_povm_pdims ohs) in Hproj.
  - injection Hproj as <-. by apply project_entry.
  - unfold MPPovm.init in Hproj.
    repeat (match type of Hproj with
            | context [assert ?b ?l] =>
                destruct b; cbn [assert mbind result_bind] in Hproj; [|done]
            end).
    by injection Hproj as <-.
Qed.

Lemma inner_product_projected ohs self projected ix jx :
  pdims self = povm_pdims ohs →
  (∀ ks ab, np.in_range ks (fst <$> ohs) → mp.in_range ab (square_dims ohs) →
     entry projected (zip_with cons ks ab) ≃ entry self (zip_with cons ks ab)) →
  np.in_range jx (fst <$> ohs) →
  inner_product self projected ix jx ≃ inner_product self self ix jx.
Proof.
  intros Hself Hentry Hjx. unfold inner_product. rewrite (hdims_povm ohs) by done.
  apply sum_sites_proper. intros ab Hab. apply cx_mul_proper; [done|].
  by apply Hentry.
Qed.

Lemma norm_squared_projected ohs self projected jx :
  pdims self = povm_pdims ohs → pdims projected = povm_pdims ohs →
  (∀ ks ab, np.in_range ks (fst <$> ohs) → mp.in_range ab (square_dims ohs) →
     entry projected (zip_with cons ks ab) ≃ entry self (zip_with cons ks ab)) →
  np.in_range jx (fst <$> ohs) →
  (norm_squared projected jx == norm_squared self jx)%Q.
Proof.
  intros Hself Hpd Hentry Hjx. unfold norm_squared.
  rewrite !(hdims_povm ohs) by done.
  apply (sum_sites_proper (square_dims ohs)). intros ab Hab.
  apply cx_of_real_proper, cx_abs2_proper. by apply Hentry.
Qed.

Lemma inner_product_diagonal self ix :
  (cx.abs2 (inner_product self self ix ix)
   == norm_squared self ix * norm_squared self ix)%Q.
Proof.
  rewrite (cx_abs2_proper _ _ (inner_product_self self ix)).
  unfold norm_squared.
  set (z := cx.sum_sites _ _).
  assert (dominated z z z) as (Him & _).
  { apply sum_sites_dominated. intros cs.
    destruct (dominated_term (entry self (zip_with cons ix cs))
                             (entry self (zip_with cons ix cs)))
      as (H1 & _ & H3 & _).
    unfold dominated, cx.abs2. cbn [cx.of_real re im] in *.
    repeat split; try done; lra. }
  unfold cx.abs2. rewrite Him. lra.
Qed.

Lemma flat_getitem {A} (a : np.ndarray A) (x : A) :
  well_shaped a → x ∈ np.flat a →
  ∃ idx, np.in_range idx (np.shape a) ∧ np.getitem a idx = Some x.
Proof.
  intros Ha (n & Hn)%list_elem_of_lookup_1.
  pose proof (lookup_lt_Some _ _ _ Hn) as Hlt. rewrite Ha in Hlt.
  exists (np.unravel_index n (np.shape a)).
  split; [by apply unravel_index_in_range|].
  unfold np.getitem. by rewrite ravel_unravel.
Qed.

End self_matching.

(** ** The checks and the algebra of [count_samples] *)

Section batch_checks.
Implicit Types (self : MPArray) (samples : batch) (shape r out : list nat).

#[local] Instance in_range_dec r shape : Decision (np.in_range r shape).
Proof. unfold np.in_range. apply _. Defined.

Lemma sum_list_zero {A} (f : A → nat) (l : list A) :
  (∀ x, x ∈ l → f x = 0) → sum_list (f <$> l) = 0.
Proof.
  induction l as [|x l IH]; intros H; csimpl; [done|].
  rewrite (H x), IH; [done| |by left]. intros y Hy. apply H. by right.
Qed.

(** A row is counted at one outcome when it is in range, at none
    otherwise. *)
Lemma histogram_row shape r :
  sum_list ((λ n, if decide (r = np.unravel_index n shape) then 1 else 0)
            <$> seq 0 (np.size shape))
  = if decide (np.in_range r shape) then 1 else 0.
Proof.
  case_decide as Hr.
  - trans (sum_list ((λ i, if decide (i = np.ravel_multi_index r shape) then 1 else 0)
                     <$> seq 0 (np.size shape)));
      [|by apply sum_list_indicator, ravel_lt].
    f_equal. apply list_fmap_ext. intros n ? [-> Hn]%lookup_seq. simpl.
    destruct (decide (r = np.unravel_index n shape)) as [-> | Hne].
    + rewrite ravel_unravel by done. by rewrite decide_True.
    + rewrite decide_False; [done|]. intros ->. by rewrite unravel_ravel in Hne.
  - apply sum_list_zero. intros n [_ Hn]%elem_of_seq.
    rewrite decide_False; [done|]. intros ->.
    apply Hr, unravel_index_in_range. lia.
Qed.

Lemma histogram_count shape (rs : list (list nat)) :
  sum_list ((λ n, length (filter (λ r, r = np.unravel_index n shape) rs))
            <$> seq 0 (np.size shape))
  = length (filter (λ r, np.in_range r shape) rs).
Proof.
  induction rs as [|r rs IH].
  - apply sum_list_zero. done.
  - rewrite (filter_cons (λ r, np.in_range r shape)).
    assert (length (if decide (np.in_range r shape)
                    then r :: filter (λ r, np.in_range r shape) rs
                    else filter (λ r, np.in_range r shape) rs)
            = (if decide (np.in_range r shape) then 1 else 0)
              + length (filter (λ r, np.in_range r shape) rs)) as ->
      by by case_decide.
    rewrite <- IH, <- histogram_row, <- sum_list_plus. f_equal.
    apply list_fmap_ext. intros i n _. simpl.
    rewrite filter_cons. by case_decide.
Qed.

Lemma filter_all {A} (P : A → Prop) `{∀ x, Decision (P x)} (l : list A) :
  length (filter P l) = length l ↔ Forall P l.
Proof.
  split.
  - induction l as [|x l IH]; [done|]. rewrite filter_cons.
    pose proof (length_filter P l). case_decide; simpl; intros Hlen.
    + constructor; [done|]. apply IH. lia.
    + lia.
  - induction 1 as [|x l Hx _ IH]; [done|].
    rewrite filter_cons, decide_True by done. simpl. by rewrite IH.
Qed.

(** What [count_samples] does on a batch with the right number of
    columns. *)
Lemma count_samples_run self samples :
  let shape := MPPovm.nsoutdims self in
  rectangular samples → n_cols samples = length shape →
  MPPovm.count_samples self samples
  = if decide (Forall (λ r, np.in_range r shape) (rows samples))
    then Ok (np.NDArray shape
               ((λ n, length (filter (λ r, r = np.unravel_index n shape) (rows samples)))
                <$> seq 0 (np.size shape)))
    else Raise (AssertionError 365).
Proof.
  intros shape Hrect Hcols. unfold MPPovm.count_samples. fold shape.
  change (np.ndim (np.zeros shape)) with (length shape).
  change (np.shape (np.zeros shape)) with shape.
  rewrite (bool_decide_eq_true_2 _ Hcols). cbn [assert mbind result_bind].
  rewrite count_loop by done. rewrite Nat.sub_diag, app_nil_r.
  assert (((λ n, MPPovm.count_rows samples (np.unravel_index n shape))
             <$> seq 0 (np.size shape))
          = ((λ n, length (filter (λ r, r = np.unravel_index n shape) (rows samples)))
             <$> seq 0 (np.size shape))) as ->.
  { apply list_fmap_ext. intros i n _. simpl.
    apply count_rows_eq. eapply Forall_impl; [exact Hrect|]. intros r Hr. simpl in Hr.
    by rewrite unravel_index_length, Hr. }
  cbn [np.flat]. rewrite histogram_count.
  case_decide as Hall.
  - rewrite bool_decide_eq_true_2; [done|]. by apply filter_all.
  - rewrite bool_decide_eq_false_2; [done|]. by rewrite filter_all.
Qed.
End batch_checks.

(** [count_samples] returns a histogram exactly for the batches of the
    right number of columns whose rows are outcomes; it fails on line 361
    for another number of columns and on line 365 when a row is not an
    outcome. *)
Theorem count_samples_checks (self : MPArray) (samples : batch) :
  rectangular samples →
  let shape := MPPovm.nsoutdims self in
  (n_cols samples ≠ length shape →
   MPPovm.count_samples self samples = Raise (AssertionError 361)) ∧
  (n_cols samples = length shape →
   ¬ Forall (λ r, np.in_range r shape) (rows samples) →
   MPPovm.count_samples self samples = Raise (AssertionError 365)) ∧
  (is_ok (MPPovm.count_samples self samples) = true ↔
   n_cols samples = length shape ∧ Forall (λ r, np.in_range r shape) (rows samples)).
Proof.
  intros Hrect shape.
  assert (n_cols samples ≠ length shape →
          MPPovm.count_samples self samples = Raise (AssertionError 361)) as Hcols.
  { intros Hne. unfold MPPovm.count_samples.
    change (np.ndim (np.zeros (MPPovm.nsoutdims self))) with (length shape).
    by rewrite (bool_decide_eq_false_2 _ Hne). }
  split; [done|]. split.
  - intros Hc Hrows. rewrite count_samples_run by done. fold shape.
    by rewrite decide_False.
  - destruct (decide (n_cols samples = length shape)) as [Hc|Hc].
    + rewrite count_samples_run by done. fold shape. case_decide; naive_solver.
    + rewrite Hcols by done. naive_solver.
Qed.

Section count_samples_algebra.
Implicit Types (self : MPArray) (a b : batch).

Lemma foldl_pointwise {A B} (f g : A → B → A) (l : list B) (x : A) :
  (∀ x y, f x y = g x y) → foldl f x l = foldl g x l.
Proof. intros H. revert x. induction l as [|y l IH]; intros x; simpl; [done|]. by rewrite H, IH. Qed.

Lemma count_rows_permutation a b out :
  rows a ≡ₚ rows b → MPPovm.count_rows a out = MPPovm.count_rows b out.
Proof. intros H. unfold MPPovm.count_rows. by rewrite H. Qed.

Lemma count_samples_ok self a :
  rectangular a → is_ok (MPPovm.count_samples self a) = true →
  n_cols a = length (MPPovm.nsoutdims self) ∧
  Forall (λ r, np.in_range r (MPPovm.nsoutdims self)) (rows a).
Proof.
  intros Hrect Hok.
  destruct (decide (n_cols a = length (MPPovm.nsoutdims self))) as [Hc|Hc].
  - split; [done|]. rewrite count_samples_run in Hok by done. by case_decide.
  - unfold MPPovm.count_samples in Hok.
    by rewrite (bool_decide_eq_false_2 _ Hc) in Hok.
Qed.
End count_samples_algebra.

(** The histogram of a batch does not depend on the order of its rows:
    [count_samples] returns (or raises) the same on two batches that are
    permutations of each other. *)
Theorem count_samples_permutation (self : MPArray) (a b : batch) :
  n_cols a = n_cols b → rows a ≡ₚ rows b →
  MPPovm.count_samples self a = MPPovm.count_samples self b.
Proof.
  intros Hcols Hrows. unfold MPPovm.count_samples.
  rewrite Hcols, (Permutation_length Hrows).
  rewrite (foldl_pointwise
             (λ counts out_num,
                let out := np.unravel_index out_num (np.shape counts) in
                np.setitem counts out (MPPovm.count_rows a out))
             (λ counts out_num,
                let out := np.unravel_index out_num (np.shape counts) in
                np.setitem counts out (MPPovm.count_rows b out))); [done|].
  intros counts n. simpl. by rewrite (count_rows_permutation a b).
Qed.

(** The histogram of two batches put together is the sum of their
    histograms. *)
Theorem count_samples_concat (self : MPArray) (a b : batch) (ca cb : np.ndarray nat) :
  rectangular a → rectangular b → n_cols a = n_cols b →
  MPPovm.count_samples self a = Ok ca →
  MPPovm.count_samples self b = Ok cb →
  MPPovm.count_samples self (Batch (n_cols a) (rows a ++ rows b))
  = Ok (np.map2 Nat.add ca cb).
Proof.
  intros Ha Hb Hcols Hca Hcb.
  destruct (count_samples_ok self a Ha) as [Hac Har]; [by rewrite Hca|].
  destruct (count_samples_ok self b Hb) as [Hbc Hbr]; [by rewrite Hcb|].
  rewrite count_samples_run in Hca, Hcb by done.
  rewrite decide_True in Hca by done. rewrite decide_True in Hcb by done.
  injection Hca as <-. injection Hcb as <-.
  rewrite count_samples_run; cbn [n_cols rows]; [| |done].
  - rewrite decide_True by by apply Forall_app.
    unfold np.map2. cbn [np.shape np.flat]. do 2 f_equal.
    rewrite zip_with_fmap_l, zip_with_fmap_r, zip_with_diag.
    apply list_fmap_ext. intros i n _. simpl. by rewrite filter_app, length_app.
  - unfold rectangular in *. cbn [n_cols rows]. apply Forall_app. split; [done|].
    by rewrite Hcols.
Qed.

(** ** Sampling, then counting *)

Section sample_inversion.
Context {S : Type} (rng : Generator S).
Local Open Scope string_scope.
Local Open Scope nat_scope.

(** What a run of [sample] that returns has gone through. *)
Lemma sample_inv ops s self state n_samples method n_group mode eps s' out :
  MPPovm.sample ops rng s self state n_samples method n_group mode eps = Ok (s', out) →
  mp.len self = mp.len state ∧
  ∃ probab,
    next (MPPovm.expectations ops self state mode) = Ok probab ∧
    abs_le (im (mp.sum_all (mp.prune probab true))) eps = true ∧
    abs_le (1 - re (mp.sum_all (mp.prune probab true))) eps = true ∧
    forallb (λ dim, dim <=? 255) (MPPovm.outdims self) = true ∧
    (let k := mp.len (mp.prune probab true) in
     let out0 := Batch k (replicate n_samples (replicate k 255)) in
     (method = "cond" ∧
      MPPovm._sample_cond rng s (mp.prune probab true) n_samples n_group out0 eps
      = Ok (s', out)) ∨
     (method = "direct" ∧
      MPPovm._sample_direct rng s self (mp.prune probab true) n_samples out0 eps
      = Ok (s', out))) ∧
    MPPovm.all_below out (MPPovm.nsoutdims self) = Ok true.
Proof.
  unfold MPPovm.sample. intros Hrun.
  keep_assert Hrun 326 Hlen. apply bool_decide_eq_true in Hlen. split; [done|].
  destruct (next _) as [probab|] eqn:Hnext; [|done]. cbn [mbind result_bind] in Hrun.
  exists probab. split; [done|].
  keep_assert Hrun 331 Him. keep_assert Hrun 332 Hre. keep_assert Hrun 336 H255.
  split; [done|]. split; [done|]. split; [done|].
  match type of Hrun with context [if ?c then ?a else ?b] =>
    destruct (if c then a else b) as [[s1 out1]|] eqn:Hdraw
  end; [|done]. cbn [mbind result_bind] in Hrun.
  destruct (MPPovm.all_below out1 _) as [[]|] eqn:Hok; try done.
  cbn [assert mbind result_bind] in Hrun. injection Hrun as -> ->.
  split; [|done]. cbv zeta.
  destruct (String.eqb_spec method "cond") as [-> | ?]; [by left|].
  destruct (String.eqb_spec method "direct") as [-> | ?]; [by right|]. done.
Qed.

(** The rows of a batch that [sample] returns are outcomes. *)
Lemma sample_rows ops s self state n_samples method n_group mode eps s' out :
  MPPovm.init self = Ok self → Forall (λ d, 1 ≤ d) (MPPovm.outdims self) → ops_wf ops →
  MPPovm.sample ops rng s self state n_samples method n_group mode eps = Ok (s', out) →
  has_shape out n_samples (length (MPPovm.nsoutdims self)) ∧
  Forall (λ r, np.in_range r (MPPovm.nsoutdims self)) (rows out).
Proof.
  intros Hinit Hdims Hops (_ & probab & Hnext & _ & _ & _ & Hdraw & Hbelow)%sample_inv.
  apply next_expectations_pdims in Hnext; [|done..].
  assert (mp.len (mp.prune probab true) = length (MPPovm.nsoutdims self)) as Hlen.
  { unfold mp.len, mp.prune. cbn [pdims]. rewrite Hnext.
    rewrite prune_singletons_outcomes by done. by rewrite length_fmap. }
  cbv zeta in Hdraw. rewrite Hlen in Hdraw.
  set (k := length (MPPovm.nsoutdims self)) in *.
  assert (has_shape (Batch k (replicate n_samples (replicate k 255))) n_samples k) as H0.
  { split; [done|]. split; cbn [rows]; [by rewrite length_replicate|].
    apply Forall_replicate. by rewrite length_replicate. }
  assert (has_shape out n_samples k) as H1.
  { destruct Hdraw as [[_ Hd]|[_ Hd]];
      [by eapply _sample_cond_shape|by eapply _sample_direct_shape]. }
  split; [done|]. apply all_below_in_range; [|done].
  destruct H1 as (? & Hn & ?). by rewrite Hn.
Qed.
End sample_inversion.

(** A batch that [sample] returns is accepted by [count_samples] of the
    same POVM: the histogram has the shape of the non-singleton outcome
    dimensions and its elements sum to the number of samples. *)
Theorem sample_then_count {S} (ops : mpsmpo) (rng : Generator S) (s s' : S)
    (self state : MPArray) (n_samples : nat) (method : string) (n_group : nat)
    (mode : string) (eps : Q) (out : batch) :
  MPPovm.init self = Ok self → Forall (λ d, 1 ≤ d) (MPPovm.outdims self) → ops_wf ops →
  MPPovm.sample ops rng s self state n_samples method n_group mode eps = Ok (s', out) →
  ∃ counts,
    MPPovm.count_samples self out = Ok counts ∧
    np.shape counts = MPPovm.nsoutdims self ∧
    sum_list (np.flat counts) = n_samples.
Proof.
  intros Hinit Hdims Hops Hrun.
  destruct (sample_rows rng _ _ _ _ _ _ _ _ _ _ _ Hinit Hdims Hops Hrun)
    as ((Hc & Hn & Hr) & Hin).
  eexists. split; [by apply count_samples_value|]. split; [done|].
  cbn [np.flat]. by rewrite histogram_total.
Qed.

(** [sample] returns a batch only when the POVM and the state have the
    same number of sites, no outcome dimension exceeds 255, the method is
    one of the two it knows, and the probabilities of the first chain of
    [expectations] sum to one within [eps]. *)
Theorem sample_requirements {S} (ops : mpsmpo) (rng : Generator S) (s s' : S)
    (self state : MPArray) (n_samples : nat) (method : string) (n_group : nat)
    (mode : string) (eps : Q) (out : batch) :
  MPPovm.sample ops rng s self state n_samples method n_group mode eps = Ok (s', out) →
  mp.len self = mp.len state ∧
  (method = "cond"%string ∨ method = "direct"%string) ∧
  Forall (λ d, d ≤ 255) (MPPovm.outdims self) ∧
  ∃ probab,
    next (MPPovm.expectations ops self state mode) = Ok probab ∧
    (Qabs (im (mp.sum_all (mp.prune probab true))) <= eps)%Q ∧
    (Qabs (1 - re (mp.sum_all (mp.prune probab true))) <= eps)%Q.
Proof.
  intros (Hlen & probab & Hnext & Him & Hre & H255 & Hdraw & _)%sample_inv.
  split; [done|]. split; [destruct Hdraw as [[? _]|[? _]]; [by left|by right]|]. split.
  - apply Forall_forall. intros d Hd. rewrite forallb_true_iff in H255.
    by apply Nat.leb_le, H255.
  - exists probab. split; [done|]. by split; apply abs_le_spec.
Qed.

Section direct_rows.
Implicit Types (shape u r : list nat) (cs : list nat) (b : batch).

Lemma fill_entry u r m :
  length u = length r → m < length r →
  <[m := default 0 (u !! m) mod 256]> (((λ v, v mod 256) <$> take m u) ++ drop m r)
  = ((λ v, v mod 256) <$> take (S m) u) ++ drop (S m) r.
Proof.
  intros Hlen Hm.
  destruct (lookup_lt_is_Some_2 u m) as [x Hx]; [lia|].
  destruct (lookup_lt_is_Some_2 r m) as [y Hy]; [lia|].
  rewrite Hx, (take_S_r u m x Hx), fmap_app, <- app_assoc. cbn [default from_option].
  rewrite insert_app_r_alt; rewrite length_fmap, length_take; [|lia].
  replace (m - m `min` length u) with 0 by lia.
  by rewrite (drop_S r y m Hy).
Qed.

Lemma zip_with_zip_with_fmap {A B C D E} (f : C → D → E) (g : A → B → C) (h : B → D)
    (l : list A) (k : list B) :
  zip_with f (zip_with g l k) (h <$> k) = zip_with (λ x y, f (g x y) (h y)) l k.
Proof.
  revert k. induction l as [|x l IH]; intros [|y k]; csimpl; [done..|]. by rewrite IH.
Qed.

Lemma zip_with_ext_in {A B C} (f g : A → B → C) (l : list A) (k : list B) :
  (∀ x y, x ∈ l → f x y = g x y) → zip_with f l k = zip_with g l k.
Proof.
  revert k. induction l as [|x l IH]; intros [|y k] H; csimpl; [done..|].
  rewrite H by by left. f_equal. apply IH. intros ? ? ?. apply H. by right.
Qed.

(** The loop of [_sample_direct] after the columns below [m]. *)
Lemma fill_columns shape cs b m :
  has_shape b (length cs) (length shape) → m ≤ length shape →
  for_each (seq 0 m)
    (λ out pos,
       set_column out pos
         ((λ c, default 0 (np.unravel_index c shape !! pos)) <$> cs)) b
  = Ok (Batch (length shape)
          (zip_with (λ r c, ((λ v, v mod 256) <$> take m (np.unravel_index c shape))
                            ++ drop m r)
                    (rows b) cs)).
Proof.
  intros (Hc & Hn & Hr) Hm. induction m as [|m IH].
  - change (seq 0 0) with (@nil nat). rewrite for_each_nil. destruct b as [k rs]. cbn [n_cols rows] in *. subst k.
    f_equal. f_equal. clear Hm. revert cs Hn.
    induction Hr as [|r rs _ _ IH]; intros [|c cs] Hn; simplify_eq/=; [done|].
    by rewrite <- IH.
  - rewrite seq_S, for_each_app, IH by lia. cbn [mbind result_bind].
    unfold for_each. cbn [foldl mbind result_bind Nat.add].
    unfold set_column. cbn [n_cols rows].
    rewrite bool_decide_eq_true_2 by lia.
    rewrite bool_decide_eq_true_2 by (rewrite length_fmap, length_zip_with; lia).
    cbn [mbind result_bind]. f_equal. f_equal.
    rewrite (zip_with_zip_with_fmap (λ r v, <[m := v mod 256]> r)).
    apply zip_with_ext_in. intros r c Hrin.
    apply fill_entry; [|].
    + rewrite unravel_index_length. symmetry.
      by apply (proj1 (Forall_forall _ _) Hr).
    + rewrite (proj1 (Forall_forall _ _) Hr r Hrin). lia.
Qed.
End direct_rows.

(** Direct sampling: the rows of the batch are the multi-indices of the
    draws that the generator returns for the clamped probabilities, in
    their order. *)
Theorem sample_direct_rows {St} (rng : Generator St) (s s' : St) (self probab : MPArray)
    (n_samples : nat) (out out' : batch) (eps : Q) :
  rng_sized rng →
  let p := mp.to_array (mp.prune probab true) in
  has_shape out n_samples (np.ndim p) →
  MPPovm._sample_direct rng s self probab n_samples out eps = Ok (s', out') →
  ∃ cs,
    choices rng s (length (np.flat p)) n_samples
            (np.flat (np.map MPPovm.clamp (np.map re p))) = Some (cs, s') ∧
    Forall (λ c, c < np.size (np.shape p)) cs ∧
    rows out'
    = (λ c, (λ v, v mod 256) <$> np.unravel_index c (np.shape p)) <$> cs.
Proof.
  intros Hrng p Hout Hrun. unfold MPPovm._sample_direct in Hrun. fold p in Hrun.
  keep_assert Hrun 286 H286. keep_assert Hrun 288 H288. keep_assert Hrun 290 H290.
  unfold MPPovm._sample_direct_draw in Hrun.
  cbn [np.map np.flat np.shape] in Hrun. rewrite !length_fmap in Hrun.
  cbn [np.map np.flat np.shape]. unfold np.ndim in *. cbn [np.shape] in Hrun.
  destruct (choices rng _ _ _ _) as [[cs s0]|] eqn:Hcs; [|done].
  cbn [mbind result_bind] in Hrun.
  destruct (forallb _ cs) eqn:Hlt; [|done]. cbn [mbind result_bind] in Hrun.
  pose proof (Hrng _ _ _ _ _ _ Hcs) as Hlen.
  change (np.shape (np.map MPPovm.clamp (np.map re p))) with (np.shape p) in Hrun.
  rewrite (fill_columns (np.shape p) cs out (length (np.shape p))) in Hrun;
    [|by rewrite Hlen|done].
  cbn [mbind result_bind] in Hrun. injection Hrun as -> <-.
  exists cs. split; [done|]. split.
  - apply Forall_forall. intros c Hc. rewrite forallb_true_iff in Hlt.
    by apply Nat.ltb_lt, Hlt.
  - cbn [rows]. destruct Hout as (_ & Hn & Hr). rewrite <- Hlen in Hn. clear -Hn Hr.
    revert cs Hn. induction Hr as [|r rs Hrl _ IH]; intros [|c cs] Hn; simplify_eq/=;
      [done|].
    rewrite IH by done. f_equal.
    rewrite take_ge, drop_ge, app_nil_r by (rewrite ?unravel_index_length; lia). done.
Qed.

(** ** Product POVMs, the chains of [expectations], and [eye] *)

Section constructors.
Implicit Types (lelems : np.ndarray complex) (width o h : nat) (dims : list nat).

Lemma filter_replicate {A} (P : A → Prop) `{∀ x, Decision (P x)} (n : nat) (x : A) :
  filter P (replicate n x) = if decide (P x) then replicate n x else [].
Proof.
  induction n as [|n IH]; cbn [replicate]; [by case_decide|].
  rewrite filter_cons, IH. by case_decide.
Qed.

Lemma init_checks m :
  (Forall (λ pd, length pd = 3) (pdims m) →
   Forall (λ pd, pd !! 1 = pd !! 2) (pdims m) → MPPovm.init m = Ok m) ∧
  (¬ Forall (λ pd, length pd = 3) (pdims m) →
   MPPovm.init m = Raise (AssertionError 48)) ∧
  (Forall (λ pd, length pd = 3) (pdims m) →
   ¬ Forall (λ pd, pd !! 1 = pd !! 2) (pdims m) →
   MPPovm.init m = Raise (AssertionError 50)).
Proof.
  unfold MPPovm.init, mp.plegs.
  assert (forallb (Nat.eqb 3) (length <$> pdims m) = true
          ↔ Forall (λ pd, length pd = 3) (pdims m)) as H3.
  { rewrite forallb_true_iff, Forall_forall. split.
    - intros H pd Hpd. symmetry. apply Nat.eqb_eq, H. by apply list_elem_of_fmap_2.
    - intros H n (pd & -> & Hpd)%list_elem_of_fmap. apply Nat.eqb_eq. symmetry. by apply H. }
  assert (forallb (λ pd, bool_decide (pd !! 1 = pd !! 2)) (pdims m) = true
          ↔ Forall (λ pd, pd !! 1 = pd !! 2) (pdims m)) as Hh.
  { rewrite forallb_true_iff, Forall_forall. split.
    - intros H pd Hpd. by apply (bool_decide_eq_true_1 _), H.
    - intros H pd Hpd. by apply bool_decide_eq_true_2, H. }
  destruct (forallb (Nat.eqb 3) _); cbn [assert mbind result_bind].
  - destruct (forallb (λ pd, bool_decide _) _); cbn [assert mbind result_bind].
    + split; [done|]. split; [intros []; by apply H3|intros _ []; by apply Hh].
    + split; [|split; [intros []; by apply H3|done]].
      intros _ Hf. apply Hh in Hf. done.
  - split; [|split; [done|]]; intros Hf; apply H3 in Hf; done.
Qed.
End constructors.

(** [from_local_povm] builds a POVM of [width] sites, each with the
    outcome and Hilbert space dimensions of the local elements; it fails,
    unless [width] is zero, on line 48 when the local elements do not have
    three axes and on line 50 when their last two axes differ. *)
Theorem from_local_povm_product (lelems : np.ndarray complex) (width : nat) :
  (∀ o h, np.shape lelems = [o; h; h] →
     ∃ m, MPPovm.from_local_povm lelems width = Ok m ∧
          mp.len m = width ∧
          MPPovm.outdims m = replicate width o ∧
          MPPovm.hdims m = replicate width h ∧
          MPPovm.nsoutdims m = if bool_decide (1 < o) then replicate width o else []) ∧
  (0 < width → length (np.shape lelems) ≠ 3 →
   MPPovm.from_local_povm lelems width = Raise (AssertionError 48)) ∧
  (0 < width → ∀ o h h', np.shape lelems = [o; h; h'] → h ≠ h' →
   MPPovm.from_local_povm lelems width = Raise (AssertionError 50)) ∧
  (width = 0 → is_ok (MPPovm.from_local_povm lelems width) = true).
Proof.
  unfold MPPovm.from_local_povm.
  set (m := mp.from_kron (replicate width lelems)).
  assert (pdims m = replicate width (np.shape lelems)) as Hpd.
  { unfold m, mp.from_kron. cbn [pdims]. by rewrite fmap_replicate. }
  destruct (init_checks m) as (Hok & H48 & H50). rewrite Hpd in Hok, H48, H50.
  split; [|split; [|split]].
  - intros o h Hs. exists m. rewrite Hs in *. split; [|split; [|split; [|split]]].
    + apply Hok; by apply Forall_replicate.
    + unfold mp.len. by rewrite Hpd, length_replicate.
    + unfold MPPovm.outdims. by rewrite Hpd, fmap_replicate.
    + unfold MPPovm.hdims. by rewrite Hpd, fmap_replicate.
    + unfold MPPovm.nsoutdims, MPPovm.outdims. rewrite Hpd, fmap_replicate.
      cbn [lookup list_lookup default from_option]. unfold id.
      rewrite filter_replicate. by destruct (decide (1 < o)), (bool_decide_reflect (1 < o)).
  - intros Hw Hlen. apply H48. destruct width as [|w]; [lia|].
    cbn [replicate]. by intros [? _]%Forall_cons.
  - intros Hw o h h' Hs Hne. rewrite Hs in *. apply H50.
    + by apply Forall_replicate.
    + destruct width as [|w]; [lia|]. cbn [replicate].
      intros [Heq _]%Forall_cons. by simplify_eq/=.
  - intros ->. by rewrite Hok.
Qed.

(** Every chain that [expectations] yields has one leg per site, of the
    outcome dimension of the site; and [expectations] fails on line 132,
    whatever the mode, when the POVM has more sites than the state. *)
Theorem expectations_chains (ops : mpsmpo) (self mpa : MPArray) (mode : string) :
  ops_wf ops → MPPovm.init self = Ok self →
  (mp.len mpa < mp.len self →
   MPPovm.expectations ops self mpa mode = Raise (AssertionError 132)) ∧
  (∀ chains, MPPovm.expectations ops self mpa mode = Ok chains →
     mp.len self ≤ mp.len mpa ∧
     Forall (λ p, pdims p = (λ d, [d]) <$> MPPovm.outdims self) chains).
Proof.
  intros Hops Hinit. unfold MPPovm.expectations.
  destruct (Hops mpa (mp.len self)) as (Hmpo & Hmps & Hpmps). split.
  - intros Hlt. rewrite bool_decide_eq_false_2 by lia. done.
  - intros chains. case_bool_decide as Hlen; [|done]. cbn [assert mbind result_bind].
    intros Hrun. split; [done|].
    repeat match type of Hrun with
    | context [if ?b then _ else _] => destruct b
    end; try done; injection Hrun as <-; apply Forall_fmap.
    all: match goal with
         | H : Forall _ ?l |- Forall _ ?l =>
             eapply Forall_impl; [exact H|]; intros x Hx; simpl in *;
             by apply probability_pdims
         end.
Qed.

Section identity_povm.
Implicit Types (dims : list nat) (rho : MPArray) (F : list (list nat) → complex).

(** The site tensor [np.eye(dim).reshape((1, dim, dim))]. *)
Lemma eye_factors dims :
  mapM (λ dim, np.reshape (np.eye dim) [1; dim; dim]) dims
  = Ok ((λ d, np.NDArray [1; d; d] (np.flat (np.eye d))) <$> dims).
Proof.
  induction dims as [|d dims IH]; [done|].
  change (mapM ?f (d :: dims)) with (y ← f d; k ← mapM f dims; mret (y :: k)).
  rewrite IH. cbn beta. rewrite reshape_ok; [done|].
  unfold np.eye, np.fromfunction. cbn [np.flat]. rewrite length_fmap, length_seq.
  unfold np.size. simpl. lia.
Qed.

Lemma eye_factor_entry d a b :
  a < d → b < d →
  default cx.zero (np.getitem (np.NDArray [1; d; d] (np.flat (np.eye d))) [0; a; b])
  = if decide (a = b) then cx.one else cx.zero.
Proof.
  intros Ha Hb.
  assert (np.getitem (np.NDArray [1; d; d] (np.flat (np.eye d))) [0; a; b]
          = np.getitem (np.eye d) [a; b]) as ->.
  { unfold np.getitem. cbn [np.shape np.flat np.ravel_multi_index np.eye np.fromfunction].
    f_equal. }
  unfold np.eye. rewrite getitem_fromfunction by by repeat constructor.
  simpl. destruct (Nat.eqb_spec a b); by case_decide.
Qed.

(** A sum against a product of Kronecker deltas runs over the
    diagonal. *)
Lemma sum_sites_diagonal dims (phis : list (list nat → complex)) F :
  Forall2 (λ d phi, ∀ a b, a < d → b < d →
                     phi [a; b] = if decide (a = b) then cx.one else cx.zero)
          dims phis →
  cx.sum_sites ((λ d, [d; d]) <$> dims)
    (λ abs, cx.mul (foldr cx.mul cx.one (zip_with (λ phi c, phi c) phis abs)) (F abs))
  ≃ cx.sum_sites ((λ d, [d]) <$> dims) (λ cs, F ((λ c, c ++ c) <$> cs)).
Proof.
  intros H. revert F. induction H as [|d phi dims phis Hphi _ IH]; intros F.
  - simpl. apply cx_mul_one_l.
  - rewrite !fmap_cons. cbn [cx.sum_sites cx.sum_over].
    apply sum_n_proper. intros a Ha.
    etrans; [|apply (sum_n_indicator d a _ Ha)].
    apply sum_n_proper. intros b Hb. cbn [zip_with foldr].
    rewrite (Hphi a b Ha Hb).
    destruct (decide (a = b)) as [<- | Hne].
    + rewrite decide_True by done.
      etrans; [|apply (IH (λ cs, F ([a; a] :: cs)))].
      apply sum_sites_proper. intros cs _. by rewrite cx_mul_one_l.
    + rewrite decide_False by done.
      etrans; [|apply (sum_sites_zero ((λ d, [d; d]) <$> dims))].
      apply sum_sites_proper. intros cs _. by rewrite !cx_mul_zero_l.
Qed.

Lemma eye_run dims :
  MPPovm.eye dims
  = Ok (mp.from_kron ((λ d, np.NDArray [1; d; d] (np.flat (np.eye d))) <$> dims)).
Proof.
  unfold MPPovm.eye. rewrite eye_factors. cbn [mbind result_bind].
  apply (init_povm_pdims ((λ d, (1, d)) <$> dims)).
  unfold mp.from_kron, povm_pdims. cbn [pdims]. by rewrite <- !list_fmap_compose.
Qed.

Lemma eye_entry dims (ab : list (list nat)) :
  length ab = length dims →
  entry (mp.from_kron ((λ d, np.NDArray [1; d; d] (np.flat (np.eye d))) <$> dims))
        (zip_with cons (replicate (length dims) 0) ab)
  = foldr cx.mul cx.one
      (zip_with (λ phi c, phi c)
         ((λ d c, default cx.zero
                    (np.getitem (np.NDArray [1; d; d] (np.flat (np.eye d))) (0 :: c)))
          <$> dims) ab).
Proof.
  unfold mp.from_kron. cbn [entry]. intros Hlen. f_equal. revert ab Hlen.
  induction dims as [|d dims IH]; intros [|c ab] Hlen; try done.
  rewrite !fmap_cons. cbn [length replicate zip_with]. f_equal. apply IH.
  by injection Hlen.
Qed.

Lemma expectation_born (ohs : list (nat * nat)) (self : MPArray) rho (ks : list nat) :
  Forall (λ '(o, _), 1 ≤ o) ohs → pdims self = povm_pdims ohs →
  pdims rho = mpo_pdims ohs → length ks = length ohs →
  entry (mp.dot (MPPovm.probability_map self) (mp.ravel rho) mp.default_axes) (sing ks)
  ≃ born self rho ks.
Proof.
  intros Hout Hself Hrho Hks.
  pose proof (probability_map_pdims ohs self Hout Hself) as Hpm.
  pose proof (ravel_pdims ohs rho Hrho) as Hrv.
  rewrite (dot_entry ohs) by done.
  etrans.
  { apply sum_sites_ext. intros cs Hcs.
    rewrite (probability_map_entry ohs), (ravel_entry ohs) by done. done. }
  rewrite (sum_sites_rows ohs
    (λ bas, cx.mul (entry self (zip_with (λ k ba, k :: reverse ba) ks bas))
                   (entry rho bas))).
  rewrite sum_sites_transpose. unfold born. rewrite (hdims_povm ohs) by done.
  apply sum_sites_ext. intros ab _. f_equal. f_equal.
  rewrite zip_with_fmap_r. apply zip_with_ext; [|done..].
  intros k c. by rewrite reverse_involutive.
Qed.
End identity_povm.

(** [eye] builds the POVM with one outcome per site: it has no
    non-singleton outcome, its Hilbert space dimensions are the given ones,
    and the probability of its outcome in a state is the trace of the
    state. *)
Theorem eye_trace (dims : list nat) (rho : MPArray) :
  pdims rho = (λ d, [d; d]) <$> dims →
  ∃ m, MPPovm.eye dims = Ok m ∧
       MPPovm.outdims m = replicate (length dims) 1 ∧
       MPPovm.nsoutdims m = [] ∧
       MPPovm.hdims m = dims ∧
       entry (mp.dot (MPPovm.probability_map m) (mp.ravel rho) mp.default_axes)
             (replicate (length dims) [0])
       ≃ trace rho.
Proof.
  intros Hrho. eexists. split; [apply eye_run|].
  set (m := mp.from_kron _).
  assert (pdims m = povm_pdims ((λ d, (1, d)) <$> dims)) as Hm.
  { unfold m, mp.from_kron, povm_pdims. cbn [pdims]. by rewrite <- !list_fmap_compose. }
  assert (MPPovm.outdims m = replicate (length dims) 1) as Hout.
  { rewrite (outdims_povm _ _ Hm), <- list_fmap_compose.
    clear. induction dims as [|d dims IH]; [done|]. csimpl. by rewrite IH. }
  split; [done|]. split; [|split].
  - unfold MPPovm.nsoutdims. rewrite Hout, filter_replicate. by rewrite decide_False by lia.
  - unfold MPPovm.hdims. rewrite Hm. unfold povm_pdims. rewrite <- !list_fmap_compose.
    rewrite <- (list_fmap_id dims) at 2. by apply list_fmap_ext.
  - replace (replicate (length dims) [0]) with (sing (replicate (length dims) 0))
      by (unfold sing; by rewrite fmap_replicate).
    rewrite (expectation_born ((λ d, (1, d)) <$> dims)); try done.
    + unfold born, trace. rewrite Hrho, (hdims_povm _ _ Hm).
      unfold square_dims. rewrite <- !list_fmap_compose.
      etrans.
      { apply sum_sites_ext. intros ab Hab. unfold m. rewrite eye_entry; [done|].
        apply Forall2_length in Hab. by rewrite length_fmap in Hab. }
      etrans.
      { apply (sum_sites_diagonal dims _ (λ ab, entry rho (reverse <$> ab))).
        clear. induction dims as [|d dims IH]; [constructor|].
        rewrite fmap_cons. constructor; [|done]. intros a b Ha Hb.
        by apply eye_factor_entry. }
      apply sum_sites_ext. intros cs Hcs%sing_in_range. f_equal.
      rewrite <- list_fmap_compose. apply Forall_fmap_ext_1.
      clear -Hcs. induction Hcs as [|d c dims cs (x & -> & _) _ IH]; by constructor.
    + apply Forall_fmap, Forall_forall. intros d _. simpl. lia.
    + unfold mpo_pdims. by rewrite <- list_fmap_compose.
    + by rewrite length_replicate, length_fmap.
Qed.

(** ** The sites and the failures of [find_matching_elements] *)

Section nonzero.
Implicit Types (bs : list bool) (l : list nat).

Lemma filter_ext_in {A} (P Q : A → Prop) `{!∀ x, Decision (P x), !∀ x, Decision (Q x)}
    (xs : list A) :
  (∀ x, x ∈ xs → P x ↔ Q x) → filter P xs = filter Q xs.
Proof.
  induction xs as [|x xs IH]; intros Hext; [done|].
  rewrite !filter_cons, IH by (intros y Hy; apply Hext; by right).
  pose proof (Hext x ltac:(by left)). repeat case_decide; naive_solver.
Qed.

(** [np.nonzero(support)[0]]: the positions of the entries that are
    true, in increasing order. *)
Lemma nonzero_positions bs k :
  (λ '(i, _), i) <$> filter (λ '(_, keep), keep = true)
                            (imap (λ i (keep : bool), (k + i, keep)) bs)
  = filter (λ i, bs !! (i - k) = Some true) (seq k (length bs)).
Proof.
  revert k. induction bs as [|b bs IH]; intros k; [done|].
  rewrite imap_cons. cbn [length seq]. rewrite !filter_cons.
  replace (k + 0 - k) with 0 by lia. replace (k - k) with 0 by lia.
  assert (imap ((λ i (keep : bool), (k + i, keep)) ∘ S) bs
          = imap (λ i (keep : bool), (S k + i, keep)) bs) as ->.
  { apply imap_ext. intros i x _. simpl. f_equal. lia. }
  assert (filter (λ i, (b :: bs) !! (i - k) = Some true) (seq (S k) (length bs))
          = filter (λ i, bs !! (i - S k) = Some true) (seq (S k) (length bs))) as ->.
  { apply filter_ext_in. intros i [Hi _]%elem_of_seq.
    replace (i - k) with (S (i - S k)) by lia. done. }
  rewrite <- IH. cbn [lookup list_lookup].
  destruct b.
  - rewrite !decide_True by done. csimpl. f_equal. lia.
  - rewrite !decide_False by done. done.
Qed.

Lemma nonzero_values l :
  (λ i, default 0 (l !! i)) <$> filter (λ i, 1 < default 0 (l !! i)) (seq 0 (length l))
  = filter (λ d, 1 < d) l.
Proof.
  induction l as [|d l IH] using rev_ind; [done|].
  rewrite length_app, Nat.add_comm. cbn [length Nat.add].
  rewrite seq_S, !filter_app, fmap_app. cbn [Nat.add]. f_equal.
  - rewrite <- IH. 
    assert (filter (λ i, 1 < default 0 ((l ++ [d]) !! i)) (seq 0 (length l))
            = filter (λ i, 1 < default 0 (l !! i)) (seq 0 (length l))) as ->.
    { apply filter_ext_in. intros i [_ Hi]%elem_of_seq.
      by rewrite lookup_app_l by lia. }
    apply Forall_fmap_ext_1, Forall_forall.
    intros i [_ [_ Hi]%elem_of_seq]%list_elem_of_filter.
    by rewrite lookup_app_l by lia.
  - rewrite !filter_cons, !filter_nil. rewrite list_lookup_middle by done.
    cbn [default from_option]. unfold id. case_decide; [|done].
    csimpl. by rewrite list_lookup_middle.
Qed.
End nonzero.

(** The sites that [find_matching_elements] returns are the positions of
    the sites where [self] has more than one outcome, in increasing order;
    the outcome dimensions at these sites are the non-singleton outcome
    dimensions. *)
Theorem matching_sites (self other : MPArray) (eps : Q) (sites : list nat)
    (match_ : np.ndarray bool) (prefactors : np.ndarray root) :
  MPPovm.find_matching_elements self other eps = Ok (sites, match_, prefactors) →
  sites = filter (λ i, 1 < default 0 (MPPovm.outdims self !! i)) (seq 0 (mp.len self)) ∧
  (λ i, default 0 (MPPovm.outdims self !! i)) <$> sites = MPPovm.nsoutdims self.
Proof.
  unfold MPPovm.find_matching_elements. intros Hrun.
  case_bool_decide; [|done]. cbn [mbind result_bind] in Hrun.
  destruct (MPPovm.project self other) as [projected|]; [|done].
  cbn [mbind result_bind] in Hrun.
  destruct (MPPovm.match_prefactors _ _ _ _) as [[m p]|]; [|done].
  cbn [mbind result_bind] in Hrun. injection Hrun as <- _ _.
  assert ((λ '(i, _), i) <$> filter (λ '(_, keep), keep = true)
            (imap (λ i (keep : bool), (i, keep))
               ((λ outdim, bool_decide (1 < outdim)) <$> MPPovm.outdims self))
          = filter (λ i, 1 < default 0 (MPPovm.outdims self !! i)) (seq 0 (mp.len self)))
    as ->.
  { rewrite (nonzero_positions _ 0), length_fmap.
    assert (length (MPPovm.outdims self) = mp.len self) as ->
      by (unfold MPPovm.outdims, mp.len; by rewrite length_fmap).
    apply list_filter_iff. intros i. rewrite Nat.sub_0_r, list_lookup_fmap.
    destruct (MPPovm.outdims self !! i) as [d|]; simpl.
    - split; [intros [= Hd]; by apply bool_decide_eq_true_1 in Hd|].
      intros Hd. f_equal. by apply bool_decide_eq_true_2.
    - split; [done|lia]. }
  split; [done|].
  unfold MPPovm.nsoutdims. rewrite <- nonzero_values.
  assert (length (MPPovm.outdims self) = mp.len self) as ->
    by (unfold MPPovm.outdims, mp.len; by rewrite length_fmap).
  done.
Qed.

(** [find_matching_elements] raises the [ValueError] on the Hilbert space
    exactly when the local Hilbert space dimensions of the two POVMs
    differ; every other failure is another exception. *)
Theorem matching_hilbert_spaces (self other : MPArray) (eps : Q) :
  MPPovm.find_matching_elements self other eps
    = Raise (ValueError "Incompatible input Hilbert space")
  ↔ MPPovm.hdims self ≠ MPPovm.hdims other.
Proof.
  unfold MPPovm.find_matching_elements. split.
  - intros Hrun Heq. rewrite bool_decide_eq_true_2 in Hrun by done.
    cbn [mbind result_bind] in Hrun.
    destruct (MPPovm.project self other) as [projected|e] eqn:Hp.
    + cbn [mbind result_bind] in Hrun.
      set (inner := np.map cx.abs2 _) in Hrun.
      set (snormsq := np.map re _) in Hrun.
      set (onormsq := np.map re _) in Hrun.
      clearbody inner snormsq onormsq.
      unfold MPPovm.match_prefactors, assert in Hrun.
      repeat (match type of Hrun with
              | context [if ?b then _ else _] => destruct b
              | context [np.reshape ?a ?s] =>
                  unfold np.reshape at 1 in Hrun
              | context [np.divide ?a ?s] =>
                  unfold np.divide at 1 in Hrun
              end; cbn [mbind result_bind] in Hrun; try discriminate Hrun).
    + unfold MPPovm.project, MPPovm.init, assert in Hp.
      cbn [mbind result_bind] in Hrun. injection Hrun as ->.
      repeat (match type of Hp with
              | context [if ?b then _ else _] => destruct b
              end; cbn [mbind result_bind] in Hp; try discriminate Hp).
  - intros Hne. by rewrite bool_decide_eq_false_2.
Qed.

Section zero_element.
Variables (ohs ohs' : list (nat * nat)) (self other : MPArray).
Hypothesis Hself : pdims self = povm_pdims ohs.
Hypothesis Hother : pdims other = povm_pdims ohs'.

Lemma zero_element_fails idx :
  np.in_range idx (informative (fst <$> ohs)) →
  (norm_squared self (expand (fst <$> ohs) idx) <= 0)%Q →
  np.all (np.map (λ x, negb (Qle_bool x 0))
            (np.map re (mp.to_array (mp.prune (MPPovm.normsq self) true)))) = false.
Proof.
  intros Hidx Hzero.
  destruct (normsq_array ohs self Hself) as (_ & _ & Hget).
  destruct (Hget idx Hidx) as (x & Hx & Hxq).
  destruct (np.all _) eqn:Hall; [|done].
  pose proof (all_positive _ x Hall) as Hpos.
  unfold np.getitem in Hx. apply list_elem_of_lookup_2 in Hx.
  specialize (Hpos Hx). rewrite Hxq in Hpos. lra.
Qed.
End zero_element.

(** A POVM [self] with an element that is zero cannot be matched:
    [find_matching_elements] fails on the assertion that the squared norms
    of the elements of [self] are positive. *)
Theorem matching_zero_element (ohs ohs' : list (nat * nat)) (self other : MPArray)
    (eps : Q) (idx : list nat) :
  pdims self = povm_pdims ohs →
  pdims other = povm_pdims ohs' →
  MPPovm.hdims self = MPPovm.hdims other →
  np.in_range idx (informative (fst <$> ohs)) →
  (norm_squared self (expand (fst <$> ohs) idx) <= 0)%Q →
  MPPovm.find_matching_elements self other eps = Raise (AssertionError 216).
Proof.
  intros Hself Hother Hh Hidx Hzero. unfold MPPovm.find_matching_elements.
  rewrite bool_decide_eq_true_2 by done. cbn [mbind result_bind].
  destruct (project_spec ohs ohs' self other Hself Hother) as (projected & -> & _).
  { by eapply hdims_length. }
  cbn [mbind result_bind]. unfold MPPovm.match_prefactors.
  rewrite (zero_element_fails ohs self Hself idx Hidx Hzero). done.
Qed.

(** ** Instances *)

Section instances.
Local Open Scope string_scope.
Local Open Scope nat_scope.

Lemma full_window_wf : ops_wf ex.full_window.
Proof.
  intros mpa width. cbn [ex.full_window reductions_mpo reductions_mps_as_pmps
                          reductions_pmps pmps_to_mpo].
  unfold ex.whole. case_bool_decide; repeat constructor; done.
Qed.

Lemma count_samples_histogram_witness :
  ∃ counts,
    MPPovm.count_samples ex.z_povm (Batch 2 [[0; 1]; [1; 1]; [0; 1]]) = Ok counts ∧
    np.getitem counts [0; 1] = Some 2 ∧ sum_list (np.flat counts) = 3.
Proof.
  destruct (count_samples_histogram ex.z_povm (Batch 2 [[0; 1]; [1; 1]; [0; 1]]))
    as (counts & Hrun & _ & Hget & Hsum).
  - reflexivity.
  - vm_compute. repeat constructor.
  - exists counts. split; [exact Hrun|]. split; [|exact Hsum].
    apply (Hget [0; 1]). vm_compute. repeat constructor.
Defined.

Lemma probability_map_contracts_witness :
  pdims (MPPovm.probability_map ex.z_povm) = [[2; 4]; [2; 4]] ∧
  entry (mp.dot (MPPovm.probability_map ex.z_povm) (mp.ravel ex.mixed_state)
                mp.default_axes) [[0]; [1]]
  ≃ born ex.z_povm ex.mixed_state [0; 1].
Proof.
  destruct (probability_map_contracts [(2, 2); (2, 2)] ex.z_povm ex.mixed_state [0; 1])
    as (Hpd & _ & _ & Hborn).
  - repeat constructor.
  - reflexivity.
  - reflexivity.
  - reflexivity.
  - split; [exact Hpd|exact Hborn].
Defined.

Lemma sample_outcomes_in_range_witness :
  ∃ s' out,
    MPPovm.sample ex.full_window lcg.rng 42%N ex.z_povm ex.mixed_state 3 "cond" 1 "auto"
                  ex.tolerance = Ok (s', out) ∧
    length (rows out) = 3 ∧
    Forall (λ r, np.in_range r [2; 2] ∧ Forall (λ v, v ≠ 255) r) (rows out).
Proof.
  destruct (sample_outcomes_in_range ex.full_window lcg.rng 42%N ex.z_povm ex.mixed_state
              3 "cond" 1 "auto" ex.tolerance) as [_ Hrun].
  - reflexivity.
  - vm_compute. repeat constructor.
  - exact full_window_wf.
  - eexists _, _. split; [vm_compute; reflexivity|].
    eapply Hrun. vm_compute. reflexivity.
Defined.



Lemma z_povm_elements ix :
  np.in_range ix (MPPovm.outdims ex.z_povm) → (0 < norm_squared ex.z_povm ix)%Q.
Proof.
  intros Hix. change (MPPovm.outdims ex.z_povm) with [2; 2] in Hix.
  apply Forall2_cons_inv_r in Hix as (a & ix' & Ha & Hix & ->).
  apply Forall2_cons_inv_r in Hix as (b & ix'' & Hb & Hix & ->).
  apply Forall2_nil_inv_r in Hix as ->.
  destruct a as [|[|a]]; [| |lia]; (destruct b as [|[|b]]; [| |lia]); by vm_compute.
Qed.



Lemma matching_prefactors_witness :
  ∃ projected,
    MPPovm.project ex.z_povm ex.z_povm = Ok projected ∧
    let outs := informative (MPPovm.outdims ex.z_povm) in
    let outs' := informative (MPPovm.outdims projected) in
    np.shape ex.z_matches = (outs ++ outs')%list ∧ np.shape ex.z_prefactors = (outs ++ outs')%list ∧
    ∀ i j, np.in_range i outs → np.in_range j outs' →
      ∃ b, np.getitem ex.z_matches (i ++ j)%list = Some b ∧
           if b
           then ∃ r, np.getitem ex.z_prefactors (i ++ j)%list = Some (Sqrt r) ∧ (0 < r)%Q ∧
                     (r == norm_squared ex.z_povm (expand (MPPovm.outdims ex.z_povm) i) /
                          norm_squared projected
                            (expand (MPPovm.outdims projected) j))%Q
           else np.getitem ex.z_prefactors (i ++ j)%list = Some NaN.
Proof.
  apply (matching_prefactors [(2, 2); (2, 2)] [(2, 2); (2, 2)] ex.z_povm ex.z_povm
           ex.tolerance [0; 1] ex.z_matches ex.z_prefactors).
  - reflexivity.
  - reflexivity.
  - vm_compute. reflexivity.
Defined.

End instances.

(** ** Further instances *)

Section further_instances.
Local Open Scope string_scope.
Local Open Scope nat_scope.

Lemma lcg_sized : rng_sized lcg.rng.
Proof.
  intros s a n. revert s. cbn [choices lcg.rng].
  induction n as [|n IH]; intros s p cs s'; cbn [lcg.choices].
  - by intros [= <- _].
  - destruct (lcg.choice s a p) as [[i seed]|]; [|done]. cbn [mbind option_bind].
    destruct (lcg.choices seed a n p) as [[l seed']|] eqn:Hl; [|done].
    cbn [mbind option_bind]. intros [= <- _]. cbn [length]. f_equal. by eapply IH.
Qed.

Lemma count_samples_checks_witness :
  MPPovm.count_samples ex.z_povm (Batch 3 [[0; 1; 0]]) = Raise (AssertionError 361) ∧
  MPPovm.count_samples ex.z_povm (Batch 2 [[0; 1]; [0; 2]]) = Raise (AssertionError 365).
Proof.
  split.
  - apply (count_samples_checks ex.z_povm (Batch 3 [[0; 1; 0]])).
    + repeat constructor.
    + vm_compute. lia.
  - apply (count_samples_checks ex.z_povm (Batch 2 [[0; 1]; [0; 2]])).
    + repeat constructor.
    + reflexivity.
    + vm_compute. intros H. apply Forall_cons in H as [_ H].
      apply Forall_cons in H as [H _]. apply Forall2_cons in H as [_ H].
      apply Forall2_cons in H as [H _]. lia.
Defined.

Lemma count_samples_permutation_witness :
  MPPovm.count_samples ex.z_povm (Batch 2 [[0; 1]; [1; 1]; [0; 0]])
  = MPPovm.count_samples ex.z_povm (Batch 2 [[1; 1]; [0; 1]; [0; 0]]).
Proof.
  apply (count_samples_permutation ex.z_povm (Batch 2 [[0; 1]; [1; 1]; [0; 0]])
           (Batch 2 [[1; 1]; [0; 1]; [0; 0]])).
  - reflexivity.
  - apply perm_swap.
Defined.

Lemma count_samples_concat_witness :
  MPPovm.count_samples ex.z_povm (Batch 2 [[0; 1]; [1; 1]; [0; 1]])
  = Ok (np.map2 Nat.add (np.NDArray [2; 2] [0; 1; 0; 0]) (np.NDArray [2; 2] [0; 1; 0; 1])).
Proof.
  apply (count_samples_concat ex.z_povm (Batch 2 [[0; 1]]) (Batch 2 [[1; 1]; [0; 1]])).
  - repeat constructor.
  - repeat constructor.
  - reflexivity.
  - vm_compute. reflexivity.
  - vm_compute. reflexivity.
Defined.

Lemma sample_then_count_witness :
  ∃ s' out counts,
    MPPovm.sample ex.full_window lcg.rng 42%N ex.z_povm ex.mixed_state 3 "direct" 1 "auto"
                  ex.tolerance = Ok (s', out) ∧
    MPPovm.count_samples ex.z_povm out = Ok counts ∧
    np.shape counts = [2; 2] ∧ sum_list (np.flat counts) = 3.
Proof.
  assert (∃ s' out,
            MPPovm.sample ex.full_window lcg.rng 42%N ex.z_povm ex.mixed_state 3 "direct" 1
                          "auto" ex.tolerance = Ok (s', out)) as (s' & out & Hrun).
  { eexists _, _. vm_compute. reflexivity. }
  destruct (sample_then_count ex.full_window lcg.rng 42%N s' ex.z_povm ex.mixed_state
              3 "direct" 1 "auto" ex.tolerance out) as (counts & Hc & Hshape & Hsum).
  - reflexivity.
  - vm_compute. repeat constructor.
  - exact full_window_wf.
  - exact Hrun.
  - exists s', out, counts. split; [exact Hrun|]. split; [exact Hc|].
    split; [exact Hshape|exact Hsum].
Defined.

Lemma sample_requirements_witness :
  ∃ probab,
    next (MPPovm.expectations ex.full_window ex.z_povm ex.mixed_state "auto") = Ok probab ∧
    (Qabs (im (mp.sum_all (mp.prune probab true))) <= ex.tolerance)%Q ∧
    (Qabs (1 - re (mp.sum_all (mp.prune probab true))) <= ex.tolerance)%Q.
Proof.
  assert (∃ s' out,
            MPPovm.sample ex.full_window lcg.rng 42%N ex.z_povm ex.mixed_state 3 "cond" 1
                          "auto" ex.tolerance = Ok (s', out)) as (s' & out & Hrun).
  { eexists _, _. vm_compute. reflexivity. }
  apply (sample_requirements ex.full_window lcg.rng 42%N s' ex.z_povm ex.mixed_state
           3 "cond" 1 "auto" ex.tolerance out Hrun).
Defined.

Lemma sample_direct_rows_witness :
  ∃ s' out' cs,
    MPPovm._sample_direct lcg.rng 42%N ex.z_povm ex.uniform_probab 3 (ex.unfilled 3 2)
                          (1 # 10) = Ok (s', out') ∧
    choices lcg.rng 42%N 4 3 (replicate 4 (1 # 4)%Q) = Some (cs, s') ∧
    rows out' = (λ c, np.unravel_index c [2; 2]) <$> cs.
Proof.
  assert (∃ s' out',
            MPPovm._sample_direct lcg.rng 42%N ex.z_povm ex.uniform_probab 3
                                  (ex.unfilled 3 2) (1 # 10) = Ok (s', out'))
    as (s' & out' & Hrun).
  { eexists _, _. vm_compute. reflexivity. }
  destruct (sample_direct_rows lcg.rng 42%N s' ex.z_povm ex.uniform_probab 3
              (ex.unfilled 3 2) out' (1 # 10)) as (cs & Hcs & Hlt & Hrows).
  - exact lcg_sized.
  - vm_compute. repeat constructor.
  - exact Hrun.
  - exists s', out', cs. split; [exact Hrun|]. split; [exact Hcs|].
    rewrite Hrows. apply Forall_fmap_ext_1.
    change (np.shape (mp.to_array (mp.prune ex.uniform_probab true))) with [2; 2] in *.
    eapply Forall_impl; [exact Hlt|]. intros c Hc.
    change (np.size [2; 2]) with 4 in Hc.
    do 4 (destruct c as [|c]; [reflexivity|]). lia.
Defined.

Lemma expectations_chains_witness :
  MPPovm.expectations ex.full_window ex.z_povm (mp.from_kron [ex.mixed_qubit]) "auto"
  = Raise (AssertionError 132) ∧
  ∀ chains,
    MPPovm.expectations ex.full_window ex.z_povm ex.mixed_state "auto" = Ok chains →
    Forall (λ p, pdims p = [[2]; [2]]) chains.
Proof.
  split.
  - apply (expectations_chains ex.full_window ex.z_povm (mp.from_kron [ex.mixed_qubit])
             "auto").
    + exact full_window_wf.
    + reflexivity.
    + vm_compute. lia.
  - intros chains Hrun.
    apply (expectations_chains ex.full_window ex.z_povm ex.mixed_state "auto"
             full_window_wf eq_refl). exact Hrun.
Defined.

Lemma eye_trace_witness :
  ∃ m, MPPovm.eye [2; 2] = Ok m ∧
       MPPovm.outdims m = [1; 1] ∧
       MPPovm.nsoutdims m = [] ∧
       MPPovm.hdims m = [2; 2] ∧
       entry (mp.dot (MPPovm.probability_map m) (mp.ravel ex.mixed_state) mp.default_axes)
             [[0]; [0]]
       ≃ trace ex.mixed_state.
Proof.
  apply (eye_trace [2; 2] ex.mixed_state). reflexivity.
Defined.

Lemma matching_sites_witness :
  [0] = filter (λ i, 1 < default 0 (MPPovm.outdims ex.z_first !! i))
               (seq 0 (mp.len ex.z_first)) ∧
  (λ i, default 0 (MPPovm.outdims ex.z_first !! i)) <$> [0] = MPPovm.nsoutdims ex.z_first.
Proof.
  assert (∃ match_ prefactors,
            MPPovm.find_matching_elements ex.z_first ex.z_povm ex.tolerance
            = Ok ([0], match_, prefactors)) as (match_ & prefactors & Hrun).
  { eexists _, _. vm_compute. reflexivity. }
  apply (matching_sites ex.z_first ex.z_povm ex.tolerance [0] match_ prefactors Hrun).
Defined.

Lemma matching_zero_element_witness :
  MPPovm.find_matching_elements ex.first_only ex.first_only ex.tolerance
  = Raise (AssertionError 216).
Proof.
  apply (matching_zero_element [(2, 1)] [(2, 1)] ex.first_only ex.first_only
           ex.tolerance [1]).
  - reflexivity.
  - reflexivity.
  - reflexivity.
  - vm_compute. repeat constructor.
  - by vm_compute.
Defined.

End further_instances.
